(** * Diffusion inpainting of [services/pptxService.ts]

    A shallow embedding of the reconstruction engine ([sharpDiffusion],
    [hierarchicalInpaint], [performInpainting]) and the properties of the
    engine that the specification states; then of the code around the
    engine: the deck of slides and its updates ([App.tsx], with the
    selection of [downloadPPTX]), the undo history of the mask pad
    ([StepMasking.tsx]) and the filter of the OCR results
    ([performOCR]), each with the properties the code itself shows.

    Conventions of the embedding.
    - A [Uint8ClampedArray] is a [list Z]; a read out of range is
      [undefined] ([None]), a store out of range is dropped, and a store
      converts the number to a byte the way the typed array does
      (clamp to [0,255]; round half to even for a fraction).
    - JavaScript numbers that are integers in the source (indices, sizes,
      counters, colour sums) are [Z].
    - A canvas is a width, a height and the RGBA bytes that
      [getImageData] reports.  The canvas keeps its pixels with the
      colours multiplied by alpha, so what is written is not always what
      is read back: a pixel written with alpha 0 is read back as
      transparent black, a pixel with alpha 255 as it was written, and a
      translucent pixel with its alpha and with colour bytes rounded as
      the browser rounds them.  In the engine every [drawImage] and
      every [putImageData] goes through this store ([stored]).  In the
      mask pad the only image data put back are snapshots that
      [getImageData] returned, and the canvas holds those as they are.
    - What the browser does and the source does not define (the rounding
      of a translucent colour, the filter of a scaled [drawImage],
      whether a call of [getContext] gives a context, [Math.random]) is
      a Variable of the section that needs it.
    - The numbers of the texturizer are IEEE 754 doubles: a finite
      double is the rational number it denotes, and every operation of
      the source rounds its exact result to the nearest double, a tie
      to the even one ([b64]).
    - A JavaScript string is a [string]; [null] is [None]; in a
      condition [null] and the empty string are falsy.  An update of
      React state is the function from the previous state to the next.
    - Where code outside the engine computes with numbers that need
      not be integers (the coordinates of the OCR filter), the
      arithmetic is a Variable: what is proved holds for every
      arithmetic, floating point included.  The layout arithmetic of
      [downloadPPTX] and the rectangles of the automatic detection,
      whose properties would depend on rounding, are left out. *)

From Stdlib Require Import ZArith QArith Qround Qabs Qpower Lia Lqa.
From stdpp Require Import base tactics option list list_numbers strings.

Local Open Scope Z_scope.

(** ** Typed arrays *)

Module Buffer.

(** [ToUint8Clamp] on an integer. *)
Definition clamp8 (v : Z) : Z := Z.max 0 (Z.min 255 v).

Definition is_byte (v : Z) : Prop := 0 <= v <= 255.

(** [d[i]] *)
Definition rd (d : list Z) (i : Z) : option Z :=
  if i <? 0 then None else d !! Z.to_nat i.

(** [d[i] = v] *)
Definition wr (d : list Z) (i : Z) (v : Z) : list Z :=
  if i <? 0 then d else <[Z.to_nat i := clamp8 v]> d.

(** [d[i] < 128]; a comparison with [undefined] is false. *)
Definition below128 (d : list Z) (i : Z) : bool :=
  match rd d i with Some a => a <? 128 | None => false end.

(** [d[i] > 0]; a comparison with [undefined] is false. *)
Definition positive_at (d : list Z) (i : Z) : bool :=
  match rd d i with Some a => 0 <? a | None => false end.

(** The value of [d[i]] inside a sum.  Every such read of the source is
    guarded by [d[i'] > 0] at a larger index [i'], hence in range. *)
Definition rd0 (d : list Z) (i : Z) : Z := default 0 (rd d i).

(** A four-element [Uint8ClampedArray] literal. *)
Definition color : Type := Z * Z * Z * Z.

Definition mk_color (r g b a : Z) : color :=
  (clamp8 r, clamp8 g, clamp8 b, clamp8 a).

(** The component of a colour that goes to byte [o] of the pixel. *)
Definition chan (c : color) (o : Z) : Z :=
  let '(c0, c1, c2, c3) := c in
  if o =? 0 then c0 else if o =? 1 then c1 else if o =? 2 then c2 else c3.

(** The four bytes of pixel number [p] of a buffer. *)
Definition pixel (d : list Z) (p : Z) : color :=
  (rd0 d (4 * p), rd0 d (4 * p + 1), rd0 d (4 * p + 2), rd0 d (4 * p + 3)).

(** The four stores of one pixel. *)
Definition write_px (d : list Z) (idx : Z) (c : color) : list Z :=
  let '(c0, c1, c2, c3) := c in
  wr (wr (wr (wr d idx c0) (idx + 1) c1) (idx + 2) c2) (idx + 3) c3.

(** The indices [0, 4, 8, ...] below [len]: [for (i = 0; i < len; i += 4)]. *)
Definition strides4 (len : Z) : list Z :=
  (λ k, 4 * k) <$> seqZ 0 ((len + 3) / 4).

End Buffer.

Import Buffer.

(** ** DiffusionFiller: [sharpDiffusion] *)

Module Diffusion.

(** [Math.round(s / count)] for integers [0 <= s], [0 < count <= 8]:
    the quotient rounded to the nearest integer, a half upwards. *)
Definition round_div (s count : Z) : Z := (2 * s + count) / (2 * count).

(** The row-major pixel offsets of the two nested [for] loops of Init. *)
Definition pixel_indices (width height : Z) : list Z :=
  y ← seqZ 0 height; x ← seqZ 0 width; [(y * width + x) * 4].

(** One turn of the Init loop body. *)
Definition init_step (mData : list Z) (preserveContent : bool)
    (st : list Z * list Z) (idx : Z) : list Z * list Z :=
  let '(data, todoPixels) := st in
  if below128 mData (idx + 3) then
    (if preserveContent then data else wr data (idx + 3) 0,
     todoPixels ++ [idx])
  else st.

Definition init (data mData : list Z) (width height : Z)
    (preserveContent : bool) : list Z * list Z :=
  foldl (init_step mData preserveContent) (data, []) (pixel_indices width height).

Definition neighbors (x y : Z) : list (Z * Z) :=
  [ (x, y - 1); (x, y + 1); (x - 1, y); (x + 1, y);
    (x - 1, y - 1); (x + 1, y - 1); (x - 1, y + 1); (x + 1, y + 1) ].

(** The running sums [r], [g], [b], [count]. *)
Record sums : Type := Sums { sr : Z; sg : Z; sb : Z; scount : Z }.

Definition in_bounds (width height nx ny : Z) : bool :=
  (0 <=? nx) && (nx <? width) && (0 <=? ny) && (ny <? height).

(** The body of [for (const [nx, ny] of neighbors)]. *)
Definition neighbor_step (data : list Z) (width height : Z)
    (s : sums) (n : Z * Z) : sums :=
  let '(nx, ny) := n in
  if in_bounds width height nx ny then
    let nIdx := (ny * width + nx) * 4 in
    if positive_at data (nIdx + 3) then
      Sums (sr s + rd0 data nIdx) (sg s + rd0 data (nIdx + 1))
           (sb s + rd0 data (nIdx + 2)) (scount s + 1)
    else s
  else s.

(** The colour a worklist pixel would receive in this pass, if any. *)
Definition probe (data : list Z) (width height : Z) (idx : Z) : option color :=
  let pIdx := idx / 4 in
  let x := Z.rem pIdx width in
  let y := pIdx / width in
  let s := foldl (neighbor_step data width height) (Sums 0 0 0 0) (neighbors x y) in
  if 0 <? scount s then
    Some (mk_color (round_div (sr s) (scount s)) (round_div (sg s) (scount s))
                   (round_div (sb s) (scount s)) 255)
  else None.

(** [Map.prototype.set]: an existing key keeps its place. *)
Fixpoint map_set (m : list (Z * color)) (k : Z) (v : color) : list (Z * color) :=
  match m with
  | [] => [(k, v)]
  | (k', v') :: m' => if k' =? k then (k, v) :: m' else (k', v') :: map_set m' k v
  end.

(** [Array.prototype.indexOf] *)
Fixpoint indexOf (l : list Z) (v : Z) : option nat :=
  match l with
  | [] => None
  | a :: l' => if a =? v then Some O else S <$> indexOf l' v
  end.

(** The first inner loop: the scan of the worklist over the snapshot. *)
Definition scan_step (data : list Z) (width height : Z)
    (newFilled : list (Z * color)) (idx : Z) : list (Z * color) :=
  if idx =? -1 then newFilled
  else match probe data width height idx with
       | Some c => map_set newFilled idx c
       | None => newFilled
       end.

Definition scan (data : list Z) (width height : Z) (todoPixels : list Z)
    : list (Z * color) :=
  foldl (scan_step data width height) [] todoPixels.

(** The second inner loop: the commit of [newFilled]. *)
Definition commit_step (preserveContent : bool)
    (st : list Z * list Z * Z) (e : Z * color) : list Z * list Z * Z :=
  let '(data, todoPixels, filledCount) := st in
  let '(idx, c) := e in
  (write_px data idx c,
   (if preserveContent then todoPixels
    else match indexOf todoPixels idx with
         | Some listIdx => <[listIdx := -1]> todoPixels
         | None => todoPixels
         end),
   filledCount + 1).

Definition commit (preserveContent : bool) (data todoPixels : list Z)
    (newFilled : list (Z * color)) : list Z * list Z * Z :=
  foldl (commit_step preserveContent) (data, todoPixels, 0) newFilled.

(** The variables that live across the [while] loop. *)
Record state : Type := State {
  data : list Z;
  todoPixels : list Z;
  remaining : Z;
  pass : Z
}.

(** One turn of the [while] body, after its guard.  The flag tells
    whether the loop goes on ([false] is the [break]). *)
Definition body (width height : Z) (preserveContent : bool) (st : state)
    : state * bool :=
  let newFilled := scan (data st) width height (todoPixels st) in
  let '(data', todo', filledCount) :=
    commit preserveContent (data st) (todoPixels st) newFilled in
  if preserveContent then
    (State data' todo' (remaining st) (pass st + 1), true)
  else if filledCount =? 0 then
    (State data' todo' (remaining st - filledCount) (pass st), false)
  else
    (State data' todo' (remaining st - filledCount) (pass st + 1), true).

(** The [while] loop.  [pass] grows by one on every turn that goes on,
    so at most [maxPasses - pass] turns remain: that number is the
    structural argument.  The second component lists the worklist each
    executed turn started from, oldest first. *)
Fixpoint loop (turns : nat) (width height : Z) (preserveContent : bool)
    (st : state) : state * list (list Z) :=
  match turns with
  | O => (st, [])
  | S turns' =>
      if 0 <? remaining st then
        let '(st', go) := body width height preserveContent st in
        if go then
          let '(fin, tr) := loop turns' width height preserveContent st' in
          (fin, todoPixels st :: tr)
        else (st', [todoPixels st])
      else (st, [])
  end.

Definition run (data mData : list Z) (width height maxPasses : Z)
    (preserveContent : bool) : state * list (list Z) :=
  let '(data0, todo) := init data mData width height preserveContent in
  loop (Z.to_nat maxPasses) width height preserveContent
       (State data0 todo (Z.of_nat (length todo)) 0).

(** The buffer [data] after the call. *)
Definition sharpDiffusion (data mData : list Z) (width height maxPasses : Z)
    (preserveContent : bool) : list Z :=
  Diffusion.data (run data mData width height maxPasses preserveContent).1.

End Diffusion.

Import Diffusion.

(** ** Canvases *)

Module Canvas2D.

(** A raster: its size and its RGBA bytes, row-major.  For a decoded
    image the bytes are those of the file; for a canvas they are the
    bytes that [getImageData] reports, which is what every later read,
    draw and [toDataURL] of the canvas sees. *)
Record Canvas : Type := MkCanvas { cw : Z; ch : Z; cdata : list Z }.

(** [getImageData(0, 0, w, h)]: the rectangle at the origin; a pixel of
    the rectangle that lies outside the canvas is transparent black. *)
Definition getImageData (c : Canvas) (w h : Z) : list Z :=
  (λ j, let p := j / 4 in
        let x := p mod w in
        let y := p / w in
        if (x <? cw c) && (y <? ch c)
        then rd0 (cdata c) ((y * cw c + x) * 4 + j mod 4)
        else 0)
  <$> seqZ 0 (w * h * 4).

(** The [w] x [h] rectangle at the origin of a raster, as a raster:
    cropped where the raster is larger, transparent black where it is
    smaller. *)
Definition crop (src : Canvas) (w h : Z) : Canvas :=
  MkCanvas w h (getImageData src w h).

Section Store.

(** The colour byte that is read back after the byte [c] was written
    under alpha [a], for [0 < a < 255]: the canvas keeps [c] multiplied
    by [a / 255] and divides again on reading, each with the rounding of
    the browser. *)
Variable blend : Z → Z → Z.

(** What is read back of a pixel that was written. *)
Definition stored (c : color) : color :=
  let '(r, g, b, a) := c in
  if a =? 0 then (0, 0, 0, 0)
  else if a =? 255 then (r, g, b, a)
  else (clamp8 (blend r a), clamp8 (blend g a), clamp8 (blend b a), a).

(** A whole buffer written and read back. *)
Definition through (d : list Z) : list Z :=
  (λ j, chan (stored (pixel d (j / 4))) (j mod 4)) <$> seqZ 0 (Z.of_nat (length d)).

(** [drawImage(src, 0, 0)] on a fresh canvas of size [w] x [h], which
    starts transparent black. *)
Definition drawImage00 (src : Canvas) (w h : Z) : Canvas :=
  MkCanvas w h (through (getImageData src w h)).

(** The canvas of size [w] x [h] after [putImageData(d, 0, 0)] with
    image data of its size. *)
Definition putData (w h : Z) (d : list Z) : Canvas :=
  MkCanvas w h (through d).

End Store.

(** The store that rounds to the nearest byte both ways: [c * a / 255]
    when it writes, [p * 255 / a] when it reads. *)
Definition nearest (c a : Z) : Z := round_div (round_div (c * a) 255 * 255) a.

(** A canvas call that throws on an empty raster. *)
Definition empty_raster (w h : Z) : bool := (w <=? 0) || (h <=? 0).

End Canvas2D.

Import Canvas2D.

(** ** Texturizer arithmetic *)

Module Texture.

(** [ToUint8Clamp] on a fraction: clamp, then round half to even. *)
Definition to_uint8_clamp (q : Q) : Z :=
  if Qle_bool q 0 then 0
  else if Qle_bool 255 q then 255
  else
    let f := Qfloor q in
    match (inject_Z f + Qmake 1 2 ?= q)%Q with
    | Lt => f + 1
    | Gt => f
    | Eq => if Z.even f then f else f + 1
    end.

(** The integer nearest to [q], a tie to the even one. *)
Definition rne (q : Q) : Z :=
  let f := Qfloor q in
  match (inject_Z f + Qmake 1 2 ?= q)%Q with
  | Lt => f + 1
  | Gt => f
  | Eq => if Z.even f then f else f + 1
  end.

(** The exponent [e] of a number that is not 0:
    [2 ^ e <= |q| < 2 ^ (e + 1)]. *)
Definition binade (q : Q) : Z :=
  let k := Z.log2 (Z.abs (Qnum q)) - Z.log2 (Zpos (Qden q)) in
  if Qle_bool (2 ^ k) (Qabs q) then k else k - 1.

(** The distance of neighbouring doubles around [q]: 52 bits below the
    exponent, and [2 ^ -1074] in the subnormal range. *)
Definition ulp (q : Q) : Q := (2 ^ (Z.max (binade q) (-1022) - 52))%Q.

(** The double nearest to [q], a tie to the one with the even
    significand (no overflow: the magnitudes of the texturizer stay
    below 262). *)
Definition b64 (q : Q) : Q := (inject_Z (rne (q / ulp q)) * ulp q)%Q.

(** [(Math.random() - 0.5) * 12] for the value [u] of [Math.random()]. *)
Definition noise_of (u : Q) : Q := b64 (b64 (u - Qmake 1 2) * 12).

Definition qmin (a b : Q) : Q := if Qle_bool a b then a else b.
Definition qmax (a b : Q) : Q := if Qle_bool a b then b else a.

(** The byte stored by
    [out[i] = Math.max(0, Math.min(255, smoothData[i] + noise))];
    an [undefined] operand makes the sum [NaN], which is stored as 0. *)
Definition textured (smoothData : list Z) (i : Z) (noise : Q) : Z :=
  match rd smoothData i with
  | Some s => to_uint8_clamp (qmax 0 (qmin 255 (b64 (inject_Z s + noise))))
  | None => 0
  end.

(** [d[i] = v] for a byte [v] that is already converted. *)
Definition wr_byte (d : list Z) (i : Z) (v : Z) : list Z :=
  if i <? 0 then d else <[Z.to_nat i := v]> d.

End Texture.

Import Texture.

(** ** PyramidOrchestrator and Texturizer: [hierarchicalInpaint] *)

Inductive failure : Type :=
| LoadOriginalFailed    (* "Failed to load original image" *)
| LoadMaskFailed        (* "Failed to load mask image" *)
| CanvasError           (* "Canvas error" *)
| MaskError             (* "Mask error" *)
| CanvasException.      (* a canvas call threw; caught and rejected *)

(** The canvases the engine creates; each is asked for its context
    once. *)
Inductive canvas_id : Type :=
| ImageCanvas                   (* [canvas] of [process] *)
| MaskCanvas                    (* [maskCanvas] of [process] *)
| LevelCanvas (index : nat)     (* [sCanvas] of a level *)
| LevelMask (index : nat)       (* [mCanvas] of a level *)
| GuessCanvas (index : nat).    (* [guessCanvas] of a level *)

Section Engine.

(** The rounding of the canvas store, see [stored]. *)
Variable blend : Z → Z → Z.

(** [dst.drawImage(src, 0, 0, sw, sh)] on a fresh canvas of size
    [sw] x [sh]: the bytes of the destination.  The flag is
    [imageSmoothingQuality = 'high']. *)
Variable drawScaled : bool → Canvas → Z → Z → list Z.

(** Whether [getContext('2d')] gives a context for this canvas, which
    has this size. *)
Variable context_ok : canvas_id → Z → Z → bool.

(** The values of [Math.random()], in the order of the calls; each is a
    double in [0, 1). *)
Variable random : nat → Q.

Definition scales : list Q := [Qmake 1 8; Qmake 1 4; Qmake 1 2; Qmake 1 1].

(** Step 3 of a level: the hole pixels of the level take the guess. *)
Definition inject_step (guessData currentMaskData : list Z)
    (currentData : list Z) (i : Z) : list Z :=
  if below128 currentMaskData (i + 3) then
    wr (wr (wr (wr currentData i (rd0 guessData i))
               (i + 1) (rd0 guessData (i + 1)))
           (i + 2) (rd0 guessData (i + 2)))
       (i + 3) 255
  else currentData.

Definition inject_guess (guessData currentData currentMaskData : list Z) : list Z :=
  foldl (inject_step guessData currentMaskData) currentData
        (strides4 (Z.of_nat (length guessData))).

(** The callback of [scales.forEach], on [lastCanvas]. *)
Definition level (ctx maskCtx : Canvas) (width height : Z)
    (lastCanvas : option Canvas) (index : nat) (scale : Q)
    : failure + option Canvas :=
  let sw := Qceiling (inject_Z width * scale) in
  let sh := Qceiling (inject_Z height * scale) in
  if negb (context_ok (LevelCanvas index) sw sh) then inr lastCanvas
  else if empty_raster (cw ctx) (ch ctx) then inl CanvasException
  else
    let sCanvas := MkCanvas sw sh (drawScaled false ctx sw sh) in
    if negb (context_ok (LevelMask index) sw sh) then inr lastCanvas
    else
      let mCanvas := MkCanvas sw sh (drawScaled false maskCtx sw sh) in
      let diffuse (sCanvas : Canvas) : failure + option Canvas :=
        let imgD := getImageData sCanvas sw sh in
        let maskD := getImageData mCanvas sw sh in
        let isBaseLayer := Nat.eqb index 0 in
        let passes := if isBaseLayer then 50 else 15 in
        inr (Some (putData blend sw sh
                     (sharpDiffusion imgD maskD sw sh passes (negb isBaseLayer)))) in
      match lastCanvas with
      | Some lc =>
          if negb (context_ok (GuessCanvas index) sw sh) then inr lastCanvas
          else
            let guessData :=
              getImageData (MkCanvas sw sh (drawScaled true lc sw sh)) sw sh in
            let currentData := getImageData sCanvas sw sh in
            let currentMaskData := getImageData mCanvas sw sh in
            diffuse (putData blend sw sh
                       (inject_guess guessData currentData currentMaskData))
      | None => diffuse sCanvas
      end.

Fixpoint levels (ctx maskCtx : Canvas) (width height : Z)
    (lastCanvas : option Canvas) (index : nat) (ss : list Q)
    : failure + option Canvas :=
  match ss with
  | [] => inr lastCanvas
  | scale :: ss' =>
      match level ctx maskCtx width height lastCanvas index scale with
      | inl e => inl e
      | inr lc => levels ctx maskCtx width height lc (S index) ss'
      end
  end.

(** The pre-texture result: [lastCanvas] after the [forEach]. *)
Definition pyramid (ctx maskCtx : Canvas) (width height : Z)
    : failure + option Canvas :=
  levels ctx maskCtx width height None 0%nat scales.

(** The body of the final loop; the state is the buffer and the number
    of [Math.random()] calls made so far. *)
Definition texture_step (smoothData mData : list Z)
    (st : list Z * nat) (i : Z) : list Z * nat :=
  let '(fd, k) := st in
  if below128 mData (i + 3) then
    let noise := noise_of (random k) in
    (wr (wr_byte (wr_byte (wr_byte fd i (textured smoothData i noise))
                          (i + 1) (textured smoothData (i + 1) noise))
                 (i + 2) (textured smoothData (i + 2) noise))
        (i + 3) 255,
     S k)
  else st.

Definition texturize (finalData smoothData mData : list Z) : list Z :=
  (foldl (texture_step smoothData mData) (finalData, 0%nat)
         (strides4 (Z.of_nat (length finalData)))).1.

(** The canvas [ctx] after the call. *)
Definition hierarchicalInpaint (ctx maskCtx : Canvas) (width height : Z)
    : failure + Canvas :=
  match pyramid ctx maskCtx width height with
  | inl e => inl e
  | inr None => inr ctx
  | inr (Some lastCanvas) =>
      if empty_raster width height then inl CanvasException
      else
        let finalData := getImageData ctx width height in
        let smoothData := getImageData lastCanvas width height in
        let mData := getImageData maskCtx width height in
        inr (putData blend width height (texturize finalData smoothData mData))
  end.

(** ** InpaintService: [performInpainting] *)

Inductive InpaintMode : Type := Chart | Photo.

(** The arguments are the two decoded images, [None] for one that fires
    [onerror]; the result is the canvas that [toDataURL] encodes. *)
Definition performInpainting (img mask : option Canvas) (mode : InpaintMode)
    : failure + Canvas :=
  match img, mask with
  | None, _ => inl LoadOriginalFailed
  | Some _, None => inl LoadMaskFailed
  | Some img, Some mask =>
      let width := cw img in
      let height := ch img in
      if negb (context_ok ImageCanvas width height) then inl CanvasError
      else
        let ctx := drawImage00 blend img width height in
        if negb (context_ok MaskCanvas width height) then inl MaskError
        else
          let maskCtx := drawImage00 blend mask width height in
          match mode with
          | Photo => hierarchicalInpaint ctx maskCtx width height
          | Chart =>
              if empty_raster width height then inl CanvasException
              else
                let imgData := getImageData ctx width height in
                let maskData := getImageData maskCtx width height in
                inr (putData blend width height
                       (sharpDiffusion imgData maskData width height
                                       (Z.max width height) false))
          end
  end.

End Engine.

(** ** Vocabulary of the properties *)

Module Spec.

(** The offset of the pixel [(x, y)] in a buffer of width [w]. *)
Definition offset (w x y : Z) : Z := (y * w + x) * 4.

Definition in_grid (w h x y : Z) : Prop := 0 <= x < w ∧ 0 <= y < h.

(** The pixel at offset [idx] is a hole of the mask. *)
Definition hole (mData : list Z) (idx : Z) : Prop :=
  below128 mData (idx + 3) = true.

#[global] Instance hole_dec mData idx : Decision (hole mData idx).
Proof. unfold hole. apply _. Defined.

(** The hole pixels of the grid, in scan order. *)
Definition holes (mData : list Z) (w h : Z) : list Z :=
  filter (hole mData) (pixel_indices w h).

(** Slot [j] is one of the four bytes of a hole pixel of the grid. *)
Definition hole_slot (mData : list Z) (w h j : Z) : Prop :=
  ∃ x y, in_grid w h x y ∧ hole mData (offset w x y) ∧
         offset w x y <= j <= offset w x y + 3.

(** The store of Init under SpaceFill. *)
Definition clear (d : list Z) (idx : Z) : list Z := wr d (idx + 3) 0.

(** The worklist entries that are still pixels. *)
Definition live (todo : list Z) : list Z := filter (λ i, i ≠ -1) todo.

(** The worklist update of one commit turn under SpaceFill. *)
Definition kill (todo : list Z) (idx : Z) : list Z :=
  match indexOf todo idx with
  | Some listIdx => <[listIdx := -1]> todo
  | None => todo
  end.

(** The stores of a whole commit. *)
Definition fills (d : list Z) (newFilled : list (Z * color)) : list Z :=
  foldl (λ d e, write_px d e.1 e.2) d newFilled.

(** An offset of a pixel: a multiple of four, not negative. *)
Definition aligned (idx : Z) : Prop := 0 <= idx ∧ idx mod 4 = 0.

(** A neighbour that counts: inside the grid and with alpha above 0. *)
Definition valid_nb (d : list Z) (w h : Z) (n : Z * Z) : bool :=
  in_bounds w h n.1 n.2 && positive_at d (offset w n.1 n.2 + 3).

(** The invariant of the SpaceFill loop, relative to the buffer [d0]
    and the mask [m] of the call: the worklist holds distinct hole
    pixels; a hole pixel on the worklist is cleared and otherwise as in
    [d0]; a hole pixel off the worklist is opaque; no other slot has
    changed. *)
Record fill_inv (d0 m : list Z) (w h : Z) (st : state) : Prop := FillInv {
  inv_length : length (data st) = length d0;
  inv_todo : ∀ i, i ∈ todoPixels st → i = -1 ∨ i ∈ holes m w h;
  inv_nodup : NoDup (live (todoPixels st));
  inv_remaining : remaining st = Z.of_nat (length (live (todoPixels st)));
  inv_open : ∀ idx, idx ∈ holes m w h → idx ∈ todoPixels st →
    rd (data st) (idx + 3) = (const 0 <$> rd d0 (idx + 3)) ∧
    ∀ k, 0 <= k < 3 → rd (data st) (idx + k) = rd d0 (idx + k);
  inv_done : ∀ idx, idx ∈ holes m w h → idx ∉ todoPixels st →
    rd (data st) (idx + 3) = (const 255 <$> rd d0 (idx + 3));
  inv_keep : ∀ j, ¬ hole_slot m w h j → rd (data st) j = rd d0 j
}.

(** A double: a significand of at most 53 bits at an exponent that is
    not below the least one. *)
Definition double (f : Q) : Prop :=
  ∃ M e, Z.abs M < 2 ^ 53 ∧ -1074 <= e ∧ (f == inject_Z M * 2 ^ e)%Q.

(** The Chebyshev distance of two pixels: the number of 8-neighbour
    steps between them. *)
Definition cheb (x y kx ky : Z) : Z := Z.max (Z.abs (x - kx)) (Z.abs (y - ky)).

(** Every keep pixel of the grid has alpha above 0 in the image. *)
Definition keeps_count (d m : list Z) (w h : Z) : Prop :=
  ∀ x y, in_grid w h x y → ¬ hole m (offset w x y) →
         positive_at d (offset w x y + 3) = true.

(** Two buffers that differ at most in the colour bytes of pixels whose
    alpha is not above 0 in either. *)
Definition masked_eq (d1 d2 : list Z) : Prop :=
  length d1 = length d2 ∧
  ∀ j, rd d1 j = rd d2 j ∨
       ∃ p c, 0 <= p ∧ 0 <= c < 3 ∧ j = 4 * p + c ∧
              positive_at d1 (4 * p + 3) = false ∧
              positive_at d2 (4 * p + 3) = false.

(** A buffer of the right length for a [w] x [h] raster. *)
Definition sized (w h : Z) (d : list Z) : Prop :=
  Z.of_nat (length d) = w * h * 4.

(** A raster as a decoder delivers it. *)
Definition wf_raster (c : Canvas) : Prop :=
  0 <= cw c ∧ 0 <= ch c ∧ sized (cw c) (ch c) (cdata c).

(** The pixel at offset [idx] is a keep pixel of the mask: its mask
    alpha is at least 128. *)
Definition keep (mData : list Z) (idx : Z) : Prop :=
  ∃ a, rd mData (idx + 3) = Some a ∧ 128 <= a.

(** Two loop states in step: same worklist, same counters, buffers
    that differ only under alpha 0. *)
Definition in_step (s1 s2 : state) : Prop :=
  masked_eq (data s1) (data s2) ∧ todoPixels s1 = todoPixels s2 ∧
  remaining s1 = remaining s2 ∧ pass s1 = pass s2.


(** The number of the sample of [Math.random()] that the final loop
    uses at the hole pixel at offset [i]: the hole pixels that come
    before it in the loop. *)
Definition sample_at (mData : list Z) (i : Z) : nat :=
  length (filter (hole mData) (strides4 i)).

(** Some level, from [index] on, gets the context of its first
    canvas. *)
Fixpoint some_level_canvas (context_ok : canvas_id → Z → Z → bool)
    (w h : Z) (index : nat) (ss : list Q) : bool :=
  match ss with
  | [] => false
  | scale :: ss' =>
      context_ok (LevelCanvas index) (Qceiling (inject_Z w * scale))
                 (Qceiling (inject_Z h * scale))
      || some_level_canvas context_ok w h (S index) ss'
  end.

Definition level_drawn (context_ok : canvas_id → Z → Z → bool) (w h : Z) : bool :=
  some_level_canvas context_ok w h 0 scales.

(** The browser gives the three canvases of level [index], whose size
    is [sw] x [sh], their contexts. *)
Definition level_given (context_ok : canvas_id → Z → Z → bool)
    (index : nat) (sw sh : Z) : Prop :=
  context_ok (LevelCanvas index) sw sh = true ∧
  context_ok (LevelMask index) sw sh = true ∧
  context_ok (GuessCanvas index) sw sh = true.

(** The loop state after Init. *)
Definition start (data mData : list Z) (w h : Z) (pc : bool) : state :=
  let '(data0, todo) := init data mData w h pc in
  State data0 todo (Z.of_nat (length todo)) 0.

(** The loop state when the budget is [turns] passes. *)
Definition after (turns : nat) (data mData : list Z) (w h : Z) (pc : bool) : state :=
  (loop turns w h pc (start data mData w h pc)).1.

End Spec.

Import Spec.

(** ** Sentences of the specification, as they are written

    The sentences below are the ones the code does not satisfy as they
    stand; each is refuted on a concrete input further down, next to the
    statement that does hold. *)

Module Stated.

(** Non-destructive outside the hole: for an image and a mask of its
    size, every keep pixel of the buffer that [performInpainting]
    returns equals the pixel of the image, in either mode. *)
Definition keep_untouched : Prop :=
  ∀ blend drawScaled context_ok random img mask mode out x y k,
    wf_raster img → wf_raster mask → cw mask = cw img → ch mask = ch img →
    performInpainting blend drawScaled context_ok random (Some img) (Some mask) mode
      = inr out →
    in_grid (cw img) (ch img) x y → keep (cdata mask) (offset (cw img) x y) →
    0 <= k <= 3 →
    rd (cdata out) (offset (cw img) x y + k) = rd (cdata img) (offset (cw img) x y + k).


(** The returned buffer has the size of the image and is opaque
    everywhere. *)
Definition opaque_output : Prop :=
  ∀ blend drawScaled context_ok random img mask mode out,
    wf_raster img → wf_raster mask →
    performInpainting blend drawScaled context_ok random (Some img) (Some mask) mode
      = inr out →
    cw out = cw img ∧ ch out = ch img ∧
    ∀ x y, in_grid (cw img) (ch img) x y →
           rd (cdata out) (offset (cw img) x y + 3) = Some 255.

(** A mask of another size than the image is rejected. *)
Definition mismatch_rejected : Prop :=
  ∀ blend drawScaled context_ok random img mask mode,
    wf_raster img → wf_raster mask →
    (cw mask, ch mask) ≠ (cw img, ch img) →
    ∃ e, performInpainting blend drawScaled context_ok random (Some img) (Some mask) mode
           = inl e.

(** Under SpaceFill, two images that agree outside the hole give the
    same output. *)
Definition hole_content_ignored : Prop :=
  ∀ d1 d2 m w h maxPasses,
    sized w h d1 → sized w h d2 → sized w h m →
    (∀ j, ¬ hole_slot m w h j → rd d1 j = rd d2 j) →
    sharpDiffusion d1 m w h maxPasses false = sharpDiffusion d2 m w h maxPasses false.

(** Under SeamHeal, the worklist never changes and the loop runs
    exactly [maxPasses] turns, each over every hole pixel. *)
Definition heal_runs_all_passes : Prop :=
  ∀ data mData w h maxPasses,
    sized w h data → sized w h mData → 0 <= maxPasses →
    todoPixels (run data mData w h maxPasses true).1 = holes mData w h ∧
    (run data mData w h maxPasses true).2 =
      replicate (Z.to_nat maxPasses) (holes mData w h).

(** Bounded noise, photo mode: for a random stream in [0, 1), a hole
    pixel of the returned buffer is opaque and each of its colour bytes
    is within 6 of the byte of the pyramid's result; any other pixel
    equals the pixel of the image. *)
Definition bounded_noise : Prop :=
  ∀ blend drawScaled context_ok random img mask out,
    (∀ q c sw sh, Forall is_byte (drawScaled q c sw sh)) →
    (∀ k, (0 <= random k)%Q ∧ (random k < 1)%Q) →
    wf_raster img → wf_raster mask → cw mask = cw img → ch mask = ch img →
    performInpainting blend drawScaled context_ok random (Some img) (Some mask) Photo
      = inr out →
    let w := cw img in
    let h := ch img in
    ∃ last,
      pyramid blend drawScaled context_ok (drawImage00 blend img w h)
              (drawImage00 blend mask w h) w h = inr (Some last) ∧
      ∀ x y, in_grid w h x y →
        (hole (cdata mask) (offset w x y) →
           rd (cdata out) (offset w x y + 3) = Some 255 ∧
           ∀ c, 0 <= c < 3 →
             ∃ v s, rd (cdata out) (offset w x y + c) = Some v ∧
                    rd (getImageData last w h) (offset w x y + c) = Some s ∧
                    Z.abs (v - s) <= 6) ∧
        (¬ hole (cdata mask) (offset w x y) →
           ∀ k, 0 <= k <= 3 →
             rd (cdata out) (offset w x y + k) = rd (cdata img) (offset w x y + k)).


End Stated.

(** ** Sample inputs *)

Module Sample.

(** A browser whose scaled draw paints every pixel [(10, 11, 12, 255)]. *)
Definition flat_draw (_ : bool) (_ : Canvas) (sw sh : Z) : list Z :=
  mjoin (replicate (Z.to_nat (sw * sh)) [10; 11; 12; 255]).

Definition always (_ _ : Z) : bool := true.

(** A browser that gives every canvas of the engine its context. *)
Definition granted (_ : canvas_id) (_ _ : Z) : bool := true.

(** A browser that gives the two canvases of [process] their contexts
    and no canvas of the pyramid. *)
Definition process_only (c : canvas_id) (_ _ : Z) : bool :=
  match c with ImageCanvas | MaskCanvas => true | _ => false end.

(** A browser that gives only the image canvas of [process] its
    context. *)
Definition image_only (c : canvas_id) (_ _ : Z) : bool :=
  match c with ImageCanvas => true | _ => false end.

(** The double just below 0.625. *)
Definition below58 : Q := Qmake 5 8 - Qmake 1 (2 ^ 52).

(** [Math.random()] returning 0.625 on every call: the noise is 1.5. *)
Definition random58 (_ : nat) : Q := Qmake 5 8.

(** [Math.random()] returning 0.25 on every call: the noise is -3. *)
Definition random14 (_ : nat) : Q := Qmake 1 4.

(** A 2 x 1 image whose left pixel is transparent, and a mask that
    keeps the left pixel and erases the right one. *)
Definition clear_left : list Z := [9; 9; 9; 0; 1; 2; 3; 255].
Definition erase_right : list Z := [0; 0; 0; 255; 0; 0; 0; 0].

(** A 2 x 1 opaque image, and one that differs from it in the right
    pixel only. *)
Definition two_px : list Z := [50; 60; 70; 255; 1; 2; 3; 255].
Definition two_px_alt : list Z := [50; 60; 70; 255; 200; 100; 0; 9].

(** The 4 x 4 white image of the specification's scenario and the mask
    that erases its 2 x 2 centre. *)
Definition white4 : list Z := replicate 64 255.
Definition mask4 : list Z :=
  let k := [255; 255; 255; 255] in
  let o := [255; 255; 255; 0] in
  k ++ k ++ k ++ k ++ k ++ o ++ o ++ k ++ k ++ o ++ o ++ k ++ k ++ k ++ k ++ k.

(** 1 x 1 rasters. *)
Definition one_px : Canvas := MkCanvas 1 1 [10; 20; 30; 255].
Definition other_px : Canvas := MkCanvas 1 1 [40; 50; 60; 255].
Definition faint_px : Canvas := MkCanvas 1 1 [5; 6; 7; 100].
Definition keep_px : Canvas := MkCanvas 1 1 [0; 0; 0; 255].
Definition hole_px : Canvas := MkCanvas 1 1 [0; 0; 0; 0].

(** A 2 x 1 mask that keeps both pixels. *)
Definition keep_2x1 : Canvas := MkCanvas 2 1 [0; 0; 0; 255; 0; 0; 0; 255].

End Sample.

(** ** Vocabulary of the further properties *)

Module Range.

(** The running sum that feeds byte [o] of the colour. *)
Definition ssum (s : sums) (o : Z) : Z :=
  if o =? 0 then sr s else if o =? 1 then sg s else sb s.

(** Every pixel of the grid that counts as a neighbour (alpha above 0)
    has byte [o] between [lo] and [hi]. *)
Definition within (d : list Z) (w h o lo hi : Z) : Prop :=
  ∀ x y, in_grid w h x y → positive_at d (offset w x y + 3) = true →
         lo <= rd0 d (offset w x y + o) <= hi.

(** The entries of a worklist are pixel offsets or the mark -1. *)
Definition todo_ok (todo : list Z) : Prop :=
  ∀ k, k ∈ todo → k = -1 ∨ aligned k.

End Range.

Import Range.

(** ** The deck of slides: [types.ts] and the reducers of [App.tsx]

    The state of the component is a value of [AppState]; every
    [setAppState(prev => ...)] of the source is the function from
    [prev] to the next state.  A handler that reads [appState] (the
    state of the last render) before it calls [setAppState] takes what
    it reads as an argument of its own. *)

Module App.

Inductive AppStep : Type := API_KEY | UPLOAD | EDITOR.

Inductive SlideStatus : Type := PENDING | PROCESSING | DONE | ERROR.

#[global] Instance SlideStatus_eq_dec : EqDecision SlideStatus.
Proof. solve_decision. Defined.

#[global] Instance AppStep_eq_dec : EqDecision AppStep.
Proof. solve_decision. Defined.

(** The reducers pass the OCR items of a slide on unread: their type is
    a parameter. *)
Record Slide (OCRResult : Type) : Type := MkSlide {
  id : string;
  originalImageSrc : string;
  processedImageSrc : option string;   (* [null] is [None] *)
  ocrData : list OCRResult;
  status : SlideStatus;
  isRefineMode : bool
}.

Arguments MkSlide {_} _ _ _ _ _ _.
Arguments id {_} _.
Arguments originalImageSrc {_} _.
Arguments processedImageSrc {_} _.
Arguments ocrData {_} _.
Arguments status {_} _.
Arguments isRefineMode {_} _.

Record AppState (OCRResult : Type) : Type := MkApp {
  step : AppStep;
  slides : list (Slide OCRResult);
  activeSlideId : option string;       (* [null] is [None] *)
  isGlobalProcessing : bool;
  globalStatusText : string;
  apiKey : string
}.

Arguments MkApp {_} _ _ _ _ _ _.
Arguments step {_} _.
Arguments slides {_} _.
Arguments activeSlideId {_} _.
Arguments isGlobalProcessing {_} _.
Arguments globalStatusText {_} _.
Arguments apiKey {_} _.

(** A string in a condition: the empty string is falsy. *)
Definition nonempty (s : string) : bool :=
  match s with EmptyString => false | String _ _ => true end.

(** A [string | null] in a condition: [null] and the empty string are
    falsy. *)
Definition truthy (s : option string) : bool :=
  match s with Some s => nonempty s | None => false end.

Section Reducers.
Context {OCRResult : Type}.

(** [generateId()]: the value of the call for the image at position
    [k] of one upload. *)
Variable generateId : nat → string.

Local Abbreviation Slide := (Slide OCRResult).
Local Abbreviation AppState := (AppState OCRResult).

(** The argument of [useState]. *)
Definition initialState : AppState :=
  MkApp API_KEY [] None false EmptyString EmptyString.

(** The effect on mount, for the value [localStorage] holds. *)
Definition restoreApiKey (storedKey : option string) (prev : AppState) : AppState :=
  match storedKey with
  | Some key =>
      if nonempty key
      then MkApp UPLOAD (slides prev) (activeSlideId prev)
                 (isGlobalProcessing prev) (globalStatusText prev) key
      else prev
  | None => prev
  end.

(** The stored key and the state after [handleSaveApiKey(key)]. *)
Definition handleSaveApiKey (key : string) (prev : AppState) : option string * AppState :=
  (Some key,
   MkApp UPLOAD (slides prev) (activeSlideId prev)
         (isGlobalProcessing prev) (globalStatusText prev) key).

(** The stored key and the state after [handleClearApiKey()]. *)
Definition handleClearApiKey : option string * AppState :=
  (None, MkApp API_KEY [] None false EmptyString EmptyString).

Definition newSlide (k : nat) (img : string) : Slide :=
  MkSlide (generateId k) img None [] PENDING false.

(** [handleImagesUpload(images)].  [newSlides[0].id] throws a TypeError
    when [images] is empty: [None]. *)
Definition handleImagesUpload (images : list string) (prev : AppState)
    : option AppState :=
  let newSlides := imap newSlide images in
  let active :=
    if truthy (activeSlideId prev) then Some (activeSlideId prev)
    else match newSlides with
         | s :: _ => Some (Some (id s))
         | [] => None
         end in
  match active with
  | Some a =>
      Some (MkApp EDITOR (slides prev ++ newSlides) a
                  (isGlobalProcessing prev) (globalStatusText prev) (apiKey prev))
  | None => None
  end.

(** The end of [processFiles] of [StepUpload]: the parent is called
    only with a list that is not empty. *)
Definition processFiles_done (images : list string) (prev : AppState)
    : option AppState :=
  if (0 <? length images)%nat then handleImagesUpload images prev else Some prev.

(** [deleteSlide(e, id)] *)
Definition deleteSlide (id0 : string) (prev : AppState) : AppState :=
  let newSlides := filter (λ s, id s ≠ id0) (slides prev) in
  match newSlides with
  | [] =>
      MkApp UPLOAD [] None
            (isGlobalProcessing prev) (globalStatusText prev) (apiKey prev)
  | s0 :: _ =>
      let newActiveId :=
        if decide (Some id0 = activeSlideId prev) then Some (id s0)
        else activeSlideId prev in
      MkApp (step prev) newSlides newActiveId
            (isGlobalProcessing prev) (globalStatusText prev) (apiKey prev)
  end.

(** [slides.findIndex(s => s.id === activeSlideId)], with the slide
    found. *)
Definition findSlide (a : string) (l : list Slide) : option (nat * Slide) :=
  list_find (λ s, id s = a) l.

Definition with_slides (prev : AppState) (l : list Slide) : AppState :=
  MkApp (step prev) l (activeSlideId prev)
        (isGlobalProcessing prev) (globalStatusText prev) (apiKey prev).

(** [handleMaskCancel()] *)
Definition handleMaskCancel (prev : AppState) : AppState :=
  match activeSlideId prev with
  | Some a =>
      if nonempty a then
        match findSlide a (slides prev) with
        | Some (idx, slide) =>
            if isRefineMode slide then
              with_slides prev
                (<[idx := MkSlide (id slide) (originalImageSrc slide)
                            (processedImageSrc slide) (ocrData slide)
                            (status slide) false]> (slides prev))
            else prev
        | None => prev
        end
      else prev
  | None => prev
  end.

(** [handleRefine()]; [activeSlideId] is read from the state of the
    last render. *)
Definition handleRefine (activeSlideId : option string) (prev : AppState) : AppState :=
  match activeSlideId with
  | Some a =>
      if nonempty a then
        match findSlide a (slides prev) with
        | Some (idx, slide) =>
            with_slides prev
              (<[idx := MkSlide (id slide) (originalImageSrc slide)
                          (processedImageSrc slide) (ocrData slide)
                          (status slide) true]> (slides prev))
        | None => prev
        end
      else prev
  | None => prev
  end.

(** [handleRevertToOriginal()]; [activeSlideId] is read from the state
    of the last render. *)
Definition handleRevertToOriginal (activeSlideId : option string) (prev : AppState)
    : AppState :=
  match activeSlideId with
  | Some a =>
      if nonempty a then
        match findSlide a (slides prev) with
        | Some (idx, slide) =>
            with_slides prev
              (<[idx := MkSlide (id slide) (originalImageSrc slide)
                          (Some (originalImageSrc slide)) (ocrData slide)
                          DONE false]> (slides prev))
        | None => prev
        end
      else prev
  | None => prev
  end.

(** [handleResetAll()] *)
Definition handleResetAll (prev : AppState) : AppState :=
  MkApp UPLOAD [] None false EmptyString (apiKey prev).

(** The click on a slide of the filmstrip. *)
Definition selectSlide (slideId : string) (prev : AppState) : AppState :=
  MkApp (step prev) (slides prev) (Some slideId)
        (isGlobalProcessing prev) (globalStatusText prev) (apiKey prev).

(** The click on "new page". *)
Definition addPage (prev : AppState) : AppState :=
  MkApp UPLOAD (slides prev) (activeSlideId prev)
        (isGlobalProcessing prev) (globalStatusText prev) (apiKey prev).

(** *** [handleProcessingStart] *)

(** The slide the handler works on, with its index, read from the state
    of the last render; [None] is the early [return]. *)
Definition processingTarget (appState : AppState) : option (nat * Slide) :=
  match activeSlideId appState with
  | Some a => if nonempty a then findSlide a (slides appState) else None
  | None => None
  end.

(** The image handed to [performInpainting]; also the [imageSrc] of the
    masking view. *)
Definition inpaintSource (slide : Slide) : string :=
  match processedImageSrc slide with
  | Some p => if isRefineMode slide && nonempty p then p else originalImageSrc slide
  | None => originalImageSrc slide
  end.

(** [currentOCRData]: [performOCR] is called only outside refine mode. *)
Definition ocrAfter (currentSlide : Slide) (performOCR : list OCRResult)
    : list OCRResult :=
  if isRefineMode currentSlide then ocrData currentSlide else performOCR.

(** The first update: the overlay goes up. *)
Definition processingBegin (text : string) (prev : AppState) : AppState :=
  MkApp (step prev) (slides prev) (activeSlideId prev) true text (apiKey prev).

(** The updates of the status text before each service call. *)
Definition setStatusText (text : string) (prev : AppState) : AppState :=
  MkApp (step prev) (slides prev) (activeSlideId prev)
        (isGlobalProcessing prev) text (apiKey prev).

(** [a[i] = v] on a copy of the array; a store beyond the end would
    leave a sparse array, which a list is not: [None]. *)
Definition array_store {A} (l : list A) (i : nat) (v : A) : option (list A) :=
  if (i <? length l)%nat then Some (<[i := v]> l)
  else if (i =? length l)%nat then Some (l ++ [v])
  else None.

(** The last update of a successful run. *)
Definition processingDone (currentSlideIndex : nat) (currentSlide : Slide)
    (processedImage : string) (currentOCRData : list OCRResult) (prev : AppState)
    : option AppState :=
  updatedSlides ← array_store (slides prev) currentSlideIndex
                     (MkSlide (id currentSlide) (originalImageSrc currentSlide)
                              (Some processedImage) currentOCRData DONE false);
  Some (MkApp (step prev) updatedSlides (activeSlideId prev) false
              (globalStatusText prev) (apiKey prev)).

(** The update of the [catch] block. *)
Definition processingFailed (prev : AppState) : AppState :=
  MkApp (step prev) (slides prev) (activeSlideId prev) false
        (globalStatusText prev) (apiKey prev).

(** *** What is rendered *)

Inductive View : Type :=
| ShowApiKey
| ShowUpload
| ShowMasking (imageSrc : string)
| ShowResult (slide : Slide)
| ShowPlaceholder.

(** [appState.slides.find(s => s.id === appState.activeSlideId)] *)
Definition activeSlide (st : AppState) : option Slide :=
  snd <$> list_find (λ s, Some (id s) = activeSlideId st) (slides st).

(** The main area. *)
Definition mainView (st : AppState) : View :=
  match step st with
  | API_KEY => ShowApiKey
  | UPLOAD => ShowUpload
  | EDITOR =>
      match activeSlide st with
      | Some s =>
          if bool_decide (status s = PENDING) || isRefineMode s
          then ShowMasking (inpaintSource s)
          else ShowResult s
      | None => ShowPlaceholder
      end
  end.

(** *** The export: which slides and which image, [downloadPPTX] *)

Definition validSlides (l : list Slide) : list Slide :=
  filter (λ s, status s ≠ ERROR) l.

(** [slideData.processedImageSrc || slideData.originalImageSrc] *)
Definition bgImage (slideData : Slide) : string :=
  match processedImageSrc slideData with
  | Some p => if nonempty p then p else originalImageSrc slideData
  | None => originalImageSrc slideData
  end.

(** The number on the download button. *)
Definition pagesShown (st : AppState) : nat := length (slides st).

(** *** Vocabulary *)

(** The selection points at a slide of the deck; no selection only
    outside the editor. *)
Definition coherent (st : AppState) : Prop :=
  match activeSlideId st with
  | Some a => a ∈ id <$> slides st
  | None => step st ≠ EDITOR
  end.

(** Every slide waits for processing or is done. *)
Definition settled (st : AppState) : Prop :=
  Forall (λ s, status s = PENDING ∨ status s = DONE) (slides st).

End Reducers.

End App.

Import App.

(** ** A sample deck *)

Module Desk.

Definition ids (k : nat) : string :=
  match k with O => "n0" | 1%nat => "n1" | _ => "n2" end%string.

Definition slideA : Slide unit := MkSlide "a" "a.png" None [] PENDING false.

Definition slideB : Slide unit := MkSlide "b" "b.png" (Some "b2.png"%string) [tt] DONE false.

(** Two slides in the editor, the second one selected. *)
Definition deck : AppState unit :=
  MkApp EDITOR [slideA; slideB] (Some "b"%string) false EmptyString "key".

End Desk.

(** ** The mask pad: the undo history of [StepMasking.tsx]

    The drawing canvas and the [history] state of the component.  A
    snapshot ([ImageData]) is a raster like a canvas.  What a stroke or
    a rectangle paints is not modelled: a property that speaks of a
    drawing speaks of any new content of the canvas. *)

Module Masking.

(** [ctx.getImageData(0, 0, canvas.width, canvas.height)] *)
Definition snapshot (c : Canvas) : Canvas := crop c (cw c) (ch c).

(** [ctx.putImageData(img, 0, 0)]: the pixels of [img] replace those of
    the canvas, where the canvas has them. *)
Definition putImageData (c img : Canvas) : Canvas :=
  MkCanvas (cw c) (ch c)
    ((λ j, let p := j / 4 in
           let x := p mod cw c in
           let y := p / cw c in
           if (x <? cw img) && (y <? ch img)
           then rd0 (cdata img) ((y * cw img + x) * 4 + j mod 4)
           else rd0 (cdata c) j)
     <$> seqZ 0 (cw c * ch c * 4)).

(** [ctx.clearRect(0, 0, canvas.width, canvas.height)] *)
Definition clearRect (c : Canvas) : Canvas :=
  MkCanvas (cw c) (ch c) (replicate (Z.to_nat (cw c * ch c * 4)) 0).

(** The canvas and the [history] state. *)
Record pad : Type := Pad { canvas : Canvas; history : list Canvas }.

(** The last twenty entries of a list. *)
Definition latest20 (l : list Canvas) : list Canvas :=
  if (20 <? length l)%nat then drop (length l - 20) l else l.

Section Handlers.

(** Whether [getContext('2d')] gives a context for a canvas of this
    size. *)
Variable context_ok : Z → Z → bool.

Definition has_ctx (p : pad) : bool := context_ok (cw (canvas p)) (ch (canvas p)).

(** [saveHistory()] *)
Definition saveHistory (p : pad) : pad :=
  if has_ctx p then
    let imageData := snapshot (canvas p) in
    let newHistory := history p ++ [imageData] in
    Pad (canvas p)
        (if (20 <? length newHistory)%nat
         then drop (length newHistory - 20) newHistory
         else newHistory)
  else p.

(** [handleUndo()] *)
Definition handleUndo (p : pad) : pad :=
  if (0 <? length (history p))%nat then
    let newHistory := history p in
    if (length newHistory <=? 1)%nat then
      Pad (if has_ctx p then clearRect (canvas p) else canvas p) []
    else
      let newHistory := take (length newHistory - 1) newHistory in   (* [pop()] *)
      match last newHistory with
      | Some previousState =>
          if has_ctx p then Pad (putImageData (canvas p) previousState) newHistory
          else p
      | None => p
      end
  else p.

(** [handleLocalCancel()], before it calls [onCancel]. *)
Definition handleLocalCancel (p : pad) : pad :=
  Pad (if has_ctx p then clearRect (canvas p) else canvas p) [].

(** [initCanvas()] for an image of the given natural size: setting the
    size of the canvas clears it. *)
Definition initCanvas (naturalWidth naturalHeight : Z) (p : pad) : pad :=
  saveHistory (Pad (clearRect (MkCanvas naturalWidth naturalHeight [])) (history p)).

(** A drawing gesture that leaves [d] on the canvas, up to
    [stopDrawing()], which saves; without a context nothing is drawn. *)
Definition stroke (d : list Z) (p : pad) : pad :=
  if has_ctx p
  then saveHistory (Pad (MkCanvas (cw (canvas p)) (ch (canvas p)) d) (history p))
  else p.

(** [handleAutoDetect()], when the rectangles it fills leave [d] on the
    canvas: it saves before and after. *)
Definition autoDetect (d : list Z) (p : pad) : pad :=
  if has_ctx p then
    let p1 := saveHistory p in
    saveHistory (Pad (MkCanvas (cw (canvas p)) (ch (canvas p)) d) (history p1))
  else p.

(** *** Vocabulary *)

(** A snapshot of the size of the canvas. *)
Definition fits (c s : Canvas) : Prop :=
  wf_raster s ∧ cw s = cw c ∧ ch s = ch c.

(** The history tells what the canvas shows: its last snapshot is the
    canvas; with no snapshot the canvas is clear. *)
Definition in_sync (p : pad) : Prop :=
  wf_raster (canvas p) ∧ Forall (fits (canvas p)) (history p) ∧
  match last (history p) with
  | Some s => s = canvas p
  | None => canvas p = clearRect (canvas p)
  end.

End Handlers.

End Masking.

Import Masking.

(** ** The OCR filter: [performOCR] of [geminiService.ts]

    The answer of the model is data; the filter that follows is code.
    The coordinates of an answer are integers (the response schema says
    so); the products and quotients the filter computes from them are
    JavaScript numbers, whose arithmetic is a parameter here, so that
    what is proved of the filter holds for floating point as well as for
    exact arithmetic. *)

Module Ocr.

Record Box (N : Type) : Type := MkBox { ymin : N; xmin : N; ymax : N; xmax : N }.

Arguments MkBox {_} _ _ _ _.
Arguments ymin {_} _.
Arguments xmin {_} _.
Arguments ymax {_} _.
Arguments xmax {_} _.

(** [OCRResult] of [types.ts], over the numbers [N]. *)
Record OCRResult (N : Type) : Type := MkOCR { text : string; box : Box N }.

Arguments MkOCR {_} _ _.
Arguments text {_} _.
Arguments box {_} _.

(** [d[i] < 50]; a comparison with [undefined] is false. *)
Definition below50 (d : list Z) (i : Z) : bool :=
  match rd d i with Some a => a <? 50 | None => false end.

(** What comes back from the model. *)
Inductive answer : Type :=
| Rejected                              (* the request failed *)
| Blank                                 (* [response.text] is empty or missing *)
| Garbled                               (* [JSON.parse] throws *)
| Parsed (parsed : list (OCRResult Z)).

Section Filter.

(** JavaScript numbers and the operations the filter applies to them. *)
Variable num : Type.
Variable of_int : Z → num.
Variables div mul add : num → num → num.
(** [Math.floor], of a number that is finite. *)
Variable floor : num → Z.

(** Whether [getContext('2d')] gives a context for a canvas of this size. *)
Variable context_ok : Z → Z → bool.

(** The rounding of the canvas store, see [stored]. *)
Variable blend : Z → Z → Z.

(** [getMaskData(maskBase64)] for the decoded mask, [None] for one that
    fires [onerror]; the result is [{data, width, height}], [None] is a
    rejection. *)
Definition getMaskData (mask : option Canvas) : option Canvas :=
  match mask with
  | Some img =>
      if context_ok (cw img) (ch img)
      then Some (MkCanvas (cw img) (ch img)
                   (getImageData (drawImage00 blend img (cw img) (ch img))
                                 (cw img) (ch img)))
      else None
  | None => None
  end.

(** [(c / 1000) * size] *)
Definition to_px (c size : Z) : num := mul (div (of_int c) (of_int 1000)) (of_int size).

(** [isMasked] at the end of the [forEach] callback. *)
Definition isMasked (maskInfo : Canvas) (item : OCRResult Z) : bool :=
  let xmin := to_px (xmin (box item)) (cw maskInfo) in
  let xmax := to_px (xmax (box item)) (cw maskInfo) in
  let ymin := to_px (ymin (box item)) (ch maskInfo) in
  let ymax := to_px (ymax (box item)) (ch maskInfo) in
  let centerX := floor (div (add xmin xmax) (of_int 2)) in
  let centerY := floor (div (add ymin ymax) (of_int 2)) in
  let idx := (centerY * cw maskInfo + centerX) * 4 in
  if below50 (cdata maskInfo) (idx + 3) then true
  else
    let idxTL := (floor ymin * cw maskInfo + floor xmin) * 4 in
    let idxBR := (floor ymax * cw maskInfo + floor xmax) * 4 in
    below50 (cdata maskInfo) (idxTL + 3) || below50 (cdata maskInfo) (idxBR + 3).

(** The three offsets the callback reads the mask at. *)
Definition probes (maskInfo : Canvas) (item : OCRResult Z) : list Z :=
  let xmin := to_px (xmin (box item)) (cw maskInfo) in
  let xmax := to_px (xmax (box item)) (cw maskInfo) in
  let ymin := to_px (ymin (box item)) (ch maskInfo) in
  let ymax := to_px (ymax (box item)) (ch maskInfo) in
  [ (floor (div (add ymin ymax) (of_int 2)) * cw maskInfo
     + floor (div (add xmin xmax) (of_int 2))) * 4;
    (floor ymin * cw maskInfo + floor xmin) * 4;
    (floor ymax * cw maskInfo + floor xmax) * 4 ].


(** The object pushed for an item that is kept. *)
Definition kept (item : OCRResult Z) : OCRResult num :=
  MkOCR (text item)
        (MkBox (div (of_int (ymin (box item))) (of_int 10))
               (div (of_int (xmin (box item))) (of_int 10))
               (div (of_int (ymax (box item))) (of_int 10))
               (div (of_int (xmax (box item))) (of_int 10))).

(** The callback of [parsed.forEach]. *)
Definition filter_step (maskInfo : Canvas) (filteredResults : list (OCRResult num))
    (item : OCRResult Z) : list (OCRResult num) :=
  if isMasked maskInfo item then filteredResults ++ [kept item] else filteredResults.

Definition filterResults (maskInfo : Canvas) (parsed : list (OCRResult Z))
    : list (OCRResult num) :=
  foldl (filter_step maskInfo) [] parsed.

(** [performOCR(apiKey, originalImageBase64, maskBase64)], for what the
    model answers and the decoded mask; [None] is a throw. *)
Definition performOCR (apiKey : string) (response : answer) (mask : option Canvas)
    : option (list (OCRResult num)) :=
  if negb (nonempty apiKey) then None
  else
    match response, getMaskData mask with
    | Rejected, _ => None
    | _, None => None
    | Blank, Some _ => Some []
    | Garbled, Some _ => None
    | Parsed parsed, Some maskInfo => Some (filterResults maskInfo parsed)
    end.

End Filter.

(** *** Exact arithmetic, to run the filter *)

Definition exact_px (c size : Z) : Q := to_px Q inject_Z Qdiv Qmult c size.


End Ocr.

Import Ocr.

(** * Properties *)

(** ** The embedding on sample inputs *)

(** Scenario of the specification: a white 4 x 4 image with the 2 x 2
    centre erased is white again after a chart-mode fill with four
    passes; one turn of the loop fills the four pixels. *)
Example scenario_white4 :
  sharpDiffusion Sample.white4 Sample.mask4 4 4 4 false = Sample.white4 ∧
  (run Sample.white4 Sample.mask4 4 4 4 false).2 = [[20; 24; 36; 40]].
Proof. split; vm_compute; reflexivity. Qed.

(** The byte array rounds a half to the even byte. *)
Example round_half_even :
  to_uint8_clamp (Qmake 23 2) = 12 ∧ to_uint8_clamp (Qmake 25 2) = 12 ∧
  to_uint8_clamp (Qmake 27 2) = 14 ∧ to_uint8_clamp (Qmake 1001 4) = 250.
Proof. repeat split; reflexivity. Qed.

(** [Math.round] of a quotient rounds a half upwards. *)
Example round_div_half : round_div 5 2 = 3 ∧ round_div 7 3 = 2 ∧ round_div 8 3 = 3.
Proof. repeat split; reflexivity. Qed.

(** Photo mode on a 2 x 1 image with the right pixel erased, a flat
    pyramid (10, 11, 12) and noise 1.5. *)
Example photo_2x1 :
  performInpainting nearest Sample.flat_draw Sample.granted Sample.random58
    (Some (MkCanvas 2 1 Sample.two_px)) (Some (MkCanvas 2 1 Sample.erase_right)) Photo
  = inr (MkCanvas 2 1 [50; 60; 70; 255; 12; 12; 14; 255]).
Proof. vm_compute. reflexivity. Qed.

(** The sum of colour and noise is rounded to a double before the
    byte array rounds it: for the draw just below 0.625 the noise is
    just below 1.5; on 200 the sum rounds to 201.5 and the byte is 202,
    on 5 the sum stays below 6.5 and the byte is 6. *)
Example double_sum_rounds :
  noise_of Sample.below58 == Qmake 1688849860263933 (2 ^ 50) ∧
  b64 (200 + noise_of Sample.below58) == Qmake 403 2 ∧
  textured [200] 0 (noise_of Sample.below58) = 202 ∧
  textured [5] 0 (noise_of Sample.below58) = 6.
Proof. repeat split; vm_compute; reflexivity. Qed.

(** A mask canvas without a context rejects with the mask message. *)
Example mask_failure :
  performInpainting nearest Sample.flat_draw Sample.image_only Sample.random58
    (Some (MkCanvas 2 1 Sample.two_px)) (Some (MkCanvas 2 1 Sample.erase_right)) Chart
  = inl MaskError.
Proof. reflexivity. Qed.

(** When no canvas of the pyramid gets a context, photo mode resolves
    with the image as it was drawn: the erased pixel is not filled and
    keeps its alpha. *)
Example photo_without_pyramid :
  performInpainting nearest Sample.flat_draw Sample.process_only Sample.random58
    (Some (MkCanvas 2 1 Sample.two_px_alt)) (Some (MkCanvas 2 1 Sample.erase_right)) Photo
  = inr (MkCanvas 2 1 [50; 60; 70; 255; 198; 113; 0; 9]).
Proof. vm_compute. reflexivity. Qed.

(** A failed decode of the image rejects. *)
Example load_failure :
  performInpainting nearest Sample.flat_draw Sample.granted Sample.random58
    None (Some Sample.keep_px) Chart = inl LoadOriginalFailed.
Proof. reflexivity. Qed.

(** ** Reads and stores *)

Section BufferFacts.
Implicit Types (d : list Z) (i j v : Z).

Lemma clamp8_byte v : is_byte (clamp8 v).
Proof. unfold is_byte, clamp8. lia. Qed.

Lemma clamp8_id v : is_byte v → clamp8 v = v.
Proof. unfold is_byte, clamp8. lia. Qed.

Lemma rd_is_Some d i : is_Some (rd d i) ↔ 0 <= i < Z.of_nat (length d).
Proof.
  unfold rd. destruct (Z.ltb_spec i 0) as [Hi|Hi].
  - split; [intros [? ?]; discriminate | lia].
  - rewrite lookup_lt_is_Some. lia.
Qed.

Lemma rd_of_nat d (n : nat) : rd d (Z.of_nat n) = d !! n.
Proof.
  unfold rd. destruct (Z.ltb_spec (Z.of_nat n) 0); [lia|]. by rewrite Nat2Z.id.
Qed.

Lemma rd_None d i : rd d i = None ↔ ¬ (0 <= i < Z.of_nat (length d)).
Proof. rewrite <- rd_is_Some, eq_None_not_Some. tauto. Qed.

Lemma length_wr d i v : length (wr d i v) = length d.
Proof. unfold wr. destruct (i <? 0); [done | apply length_insert]. Qed.

Lemma rd_wr_ne d i j v : i ≠ j → rd (wr d i v) j = rd d j.
Proof.
  intros Hne. unfold rd, wr.
  destruct (Z.ltb_spec j 0); [done|].
  destruct (Z.ltb_spec i 0); [done|].
  apply list_lookup_insert_ne. lia.
Qed.

Lemma rd_wr_eq d i v : is_Some (rd d i) → rd (wr d i v) i = Some (clamp8 v).
Proof.
  intros Hs. apply rd_is_Some in Hs. unfold rd, wr.
  destruct (Z.ltb_spec i 0); [lia|].
  apply list_lookup_insert_eq. lia.
Qed.

Lemma rd_wr_is_Some d i j v : is_Some (rd (wr d i v) j) ↔ is_Some (rd d j).
Proof. by rewrite !rd_is_Some, length_wr. Qed.

Lemma length_wr_byte d i v : length (wr_byte d i v) = length d.
Proof. unfold wr_byte. destruct (i <? 0); [done | apply length_insert]. Qed.

Lemma rd_wr_byte_ne d i j v : i ≠ j → rd (wr_byte d i v) j = rd d j.
Proof.
  intros Hne. unfold rd, wr_byte.
  destruct (Z.ltb_spec j 0); [done|].
  destruct (Z.ltb_spec i 0); [done|].
  apply list_lookup_insert_ne. lia.
Qed.

Lemma rd_wr_byte_eq d i v : is_Some (rd d i) → rd (wr_byte d i v) i = Some v.
Proof.
  intros Hs. apply rd_is_Some in Hs. unfold rd, wr_byte.
  destruct (Z.ltb_spec i 0); [lia|].
  apply list_lookup_insert_eq. lia.
Qed.

Lemma rd_wr_byte_is_Some d i j v : is_Some (rd (wr_byte d i v) j) ↔ is_Some (rd d j).
Proof. by rewrite !rd_is_Some, length_wr_byte. Qed.

Lemma wr_bytes d i v : Forall is_byte d → Forall is_byte (wr d i v).
Proof.
  intros Hd. unfold wr. destruct (i <? 0); [done|].
  apply Forall_insert; [done | apply clamp8_byte].
Qed.

Lemma rd_byte d i a : Forall is_byte d → rd d i = Some a → is_byte a.
Proof.
  intros Hd. unfold rd. destruct (i <? 0); [done|].
  intros Hl. eapply Forall_lookup_1; eauto.
Qed.

Lemma rd0_byte d i : Forall is_byte d → is_byte (rd0 d i).
Proof.
  intros Hd. unfold rd0. destruct (rd d i) as [a|] eqn:E; simpl.
  - eapply rd_byte; eauto.
  - unfold is_byte; lia.
Qed.

Lemma length_write_px d idx c : length (write_px d idx c) = length d.
Proof. destruct c as [[[c0 c1] c2] c3]. simpl. by rewrite !length_wr. Qed.

(** A pixel store leaves every slot outside the pixel alone. *)
Lemma rd_write_px_out d idx c j :
  ¬ (idx <= j <= idx + 3) → rd (write_px d idx c) j = rd d j.
Proof.
  intros Hj. destruct c as [[[c0 c1] c2] c3]. simpl.
  rewrite !rd_wr_ne by lia. done.
Qed.

Lemma write_px_bytes d idx c : Forall is_byte d → Forall is_byte (write_px d idx c).
Proof.
  intros Hd. destruct c as [[[c0 c1] c2] c3]. simpl.
  by repeat apply wr_bytes.
Qed.

(** The alpha byte after a pixel store. *)
Lemma rd_write_px_alpha d idx c :
  is_Some (rd d (idx + 3)) → rd (write_px d idx c) (idx + 3) = Some (clamp8 c.2).
Proof.
  intros Hs. destruct c as [[[c0 c1] c2] c3]. simpl.
  rewrite rd_wr_eq; [done|]. by rewrite !rd_wr_is_Some.
Qed.

Lemma rd_write_px_is_Some d idx c j :
  is_Some (rd (write_px d idx c) j) ↔ is_Some (rd d j).
Proof. by rewrite !rd_is_Some, length_write_px. Qed.

End BufferFacts.

(** ** Init *)

Section InitFacts.
Implicit Types (d m : list Z) (w h idx j : Z).

Lemma elem_of_pixel_indices w h idx :
  idx ∈ pixel_indices w h ↔ ∃ x y, in_grid w h x y ∧ idx = offset w x y.
Proof.
  unfold pixel_indices, in_grid, offset. rewrite list_elem_of_bind. split.
  - intros (y & Hx & Hy). apply list_elem_of_bind in Hx as (x & Hi & Hx).
    apply list_elem_of_singleton in Hi.
    apply elem_of_seqZ in Hx, Hy. exists x, y. lia.
  - intros (x & y & [Hx Hy] & ->). exists y. split.
    + apply list_elem_of_bind. exists x. split; [apply list_elem_of_singleton; done|].
      apply elem_of_seqZ. lia.
    + apply elem_of_seqZ. lia.
Qed.

(** Two pixels of the grid with the same offset are the same pixel. *)
Lemma offset_inj w h x y x' y' :
  in_grid w h x y → in_grid w h x' y' → offset w x y = offset w x' y' →
  x = x' ∧ y = y'.
Proof.
  unfold in_grid, offset. intros [Hx Hy] [Hx' Hy'] He.
  assert (y * w + x = y' * w + x') as He' by lia. clear He.
  assert (y = y') as ->.
  { destruct (Z.lt_trichotomy y y') as [Hl|[Hl|Hl]]; [|done|].
    - assert ((y + 1) * w <= y' * w) by (apply Z.mul_le_mono_nonneg_r; lia). lia.
    - assert ((y' + 1) * w <= y * w) by (apply Z.mul_le_mono_nonneg_r; lia). lia. }
  lia.
Qed.

Lemma NoDup_pixel_indices w h : NoDup (pixel_indices w h).
Proof.
  unfold pixel_indices. apply NoDup_bind.
  - intros y1 y2 i Hy1 Hy2 H1 H2.
    apply list_elem_of_bind in H1 as (x1 & Hi1 & Hx1).
    apply list_elem_of_bind in H2 as (x2 & Hi2 & Hx2).
    apply list_elem_of_singleton in Hi1, Hi2.
    apply elem_of_seqZ in Hx1, Hx2, Hy1, Hy2.
    destruct (offset_inj w h x1 y1 x2 y2) as [_ ?]; unfold in_grid, offset; [lia..|done].
  - intros y Hy. apply NoDup_bind.
    + intros x1 x2 i Hx1 Hx2 H1 H2.
      apply list_elem_of_singleton in H1, H2. lia.
    + intros; apply NoDup_singleton.
    + apply NoDup_seqZ.
  - apply NoDup_seqZ.
Qed.

Lemma elem_of_holes m w h idx :
  idx ∈ holes m w h ↔ hole m idx ∧ ∃ x y, in_grid w h x y ∧ idx = offset w x y.
Proof. unfold holes. by rewrite list_elem_of_filter, elem_of_pixel_indices. Qed.

Lemma NoDup_holes m w h : NoDup (holes m w h).
Proof. apply NoDup_filter, NoDup_pixel_indices. Qed.

Lemma holes_aligned m w h idx : idx ∈ holes m w h → 0 <= idx ∧ idx mod 4 = 0.
Proof.
  intros (_ & x & y & [Hx Hy] & ->)%elem_of_holes. unfold offset.
  split; [nia|]. apply Z.mod_mul. lia.
Qed.

Lemma init_fold m pc l d t :
  foldl (init_step m pc) (d, t) l =
    ((if pc then d else foldl clear d (filter (hole m) l)), t ++ filter (hole m) l).
Proof.
  revert d t. induction l as [|a l IH]; intros d t; simpl.
  - rewrite app_nil_r. by destruct pc.
  - destruct (decide (hole m a)) as [Ha|Ha].
    + rewrite (filter_cons_True _ _ _ Ha). unfold hole in Ha. rewrite Ha, IH.
      rewrite <- app_assoc. by destruct pc.
    + rewrite (filter_cons_False _ _ _ Ha). unfold hole in Ha.
      apply not_true_is_false in Ha. rewrite Ha. apply IH.
Qed.

(** Init lists the hole pixels and, under SpaceFill, clears their alpha. *)
Lemma init_eq d m w h pc :
  init d m w h pc =
    ((if pc then d else foldl clear d (holes m w h)), holes m w h).
Proof. unfold init. by rewrite init_fold. Qed.

Lemma length_cleared d l : length (foldl clear d l) = length d.
Proof.
  revert d. induction l as [|a l IH]; intros d; simpl; [done|].
  rewrite IH. apply length_wr.
Qed.

Lemma rd_cleared_other d l j :
  (∀ idx, idx ∈ l → j ≠ idx + 3) → rd (foldl clear d l) j = rd d j.
Proof.
  revert d. induction l as [|a l IH]; intros d Hj; simpl; [done|].
  rewrite IH.
  - unfold clear. apply rd_wr_ne. intros E. eapply (Hj a); [left | lia].
  - intros idx Hidx. apply Hj. by right.
Qed.

Lemma rd_cleared d l idx :
  idx ∈ l → is_Some (rd d (idx + 3)) → rd (foldl clear d l) (idx + 3) = Some 0.
Proof.
  revert d. induction l as [|a l IH]; intros d Hin Hs; [by apply elem_of_nil in Hin|].
  simpl. destruct (decide (idx ∈ l)) as [Hl|Hl].
  - apply IH; [done|]. unfold clear. by rewrite rd_wr_is_Some.
  - apply elem_of_cons in Hin as [->|Hin]; [|done].
    rewrite rd_cleared_other.
    + unfold clear. by rewrite rd_wr_eq.
    + intros idx Hidx E. assert (idx = a) by lia. by subst.
Qed.

Lemma cleared_bytes d l : Forall is_byte d → Forall is_byte (foldl clear d l).
Proof.
  revert d. induction l as [|a l IH]; intros d Hd; simpl; [done|].
  apply IH. by apply wr_bytes.
Qed.

End InitFacts.

(** ** One pass: scan and commit *)

Section PassFacts.
Implicit Types (d t : list Z) (w h idx j k : Z) (nf : list (Z * color)).

Lemma aligned_4 idx : aligned idx → ∃ p, 0 <= p ∧ idx = 4 * p.
Proof.
  intros [H0 Hm]. exists (idx / 4).
  pose proof (Z_div_mod_eq_full idx 4). lia.
Qed.

Lemma offset_aligned w h x y : in_grid w h x y → aligned (offset w x y).
Proof.
  unfold in_grid, offset, aligned. intros [Hx Hy].
  split; [nia | apply Z.mod_mul; lia].
Qed.

Lemma elem_of_map_set nf k v e :
  e ∈ map_set nf k v → e = (k, v) ∨ e ∈ nf.
Proof.
  induction nf as [|[k' v'] nf IH]; simpl.
  - intros ->%list_elem_of_singleton. by left.
  - destruct (Z.eqb_spec k' k) as [->|Hne].
    + intros [->|He]%elem_of_cons; [by left | right; by right].
    + intros [->|He]%elem_of_cons; [right; by left|].
      destruct (IH He) as [->|?]; [by left | right; by right].
Qed.

Lemma map_set_new nf k v : (k, v) ∈ map_set nf k v.
Proof.
  induction nf as [|[k' v'] nf IH]; simpl; [by left|].
  destruct (Z.eqb_spec k' k); [by left | by right].
Qed.

Lemma map_set_old nf k v e : e ∈ nf → e.1 ≠ k → e ∈ map_set nf k v.
Proof.
  induction nf as [|[k' v'] nf IH]; simpl; [by intros ?%elem_of_nil|].
  intros [->|He]%elem_of_cons Hne; simpl in *.
  - destruct (Z.eqb_spec k' k); [done | by left].
  - destruct (Z.eqb_spec k' k); right; [done | by apply IH].
Qed.

Lemma map_set_keys nf k v k' :
  k' ∈ (map_set nf k v).*1 ↔ k' = k ∨ k' ∈ nf.*1.
Proof.
  induction nf as [|[k0 v0] nf IH]; simpl.
  - rewrite list_elem_of_singleton. split; [by left | intros [?|?%elem_of_nil]; done].
  - destruct (Z.eqb_spec k0 k) as [->|Hne]; simpl.
    + rewrite !elem_of_cons. tauto.
    + rewrite !elem_of_cons, IH. tauto.
Qed.

Lemma map_set_NoDup nf k v : NoDup nf.*1 → NoDup (map_set nf k v).*1.
Proof.
  induction nf as [|[k0 v0] nf IH]; simpl.
  - intros _. apply NoDup_singleton.
  - intros [Hk0 Hnd]%NoDup_cons. destruct (Z.eqb_spec k0 k) as [->|Hne]; simpl.
    + by apply NoDup_cons.
    + apply NoDup_cons. split; [|by apply IH].
      rewrite map_set_keys. intros [?|?]; [congruence | done].
Qed.

Lemma length_map_set_new nf k v :
  k ∉ nf.*1 → length (map_set nf k v) = S (length nf).
Proof.
  induction nf as [|[k0 v0] nf IH]; simpl; [done|].
  intros Hk. apply not_elem_of_cons in Hk as [Hne Hk].
  destruct (Z.eqb_spec k0 k); [congruence|]. simpl. by rewrite IH.
Qed.

(** The scan over any prefix of the worklist, from any map. *)
Lemma scan_fold d w h l nf0 :
  NoDup nf0.*1 →
  let nf := foldl (scan_step d w h) nf0 l in
  NoDup nf.*1 ∧
  (∀ e, e ∈ nf → e ∈ nf0 ∨ (e.1 ∈ l ∧ e.1 ≠ -1 ∧ probe d w h e.1 = Some e.2)) ∧
  (∀ k c, k ∈ l → k ≠ -1 → probe d w h k = Some c → (k, c) ∈ nf) ∧
  (∀ e, e ∈ nf0 → e ∈ nf ∨ (e.1 ∈ l ∧ e.1 ≠ -1 ∧ is_Some (probe d w h e.1))).
Proof.
  revert nf0. induction l as [|a l IH]; intros nf0 Hnd; simpl.
  - split_and!; [done|by left| |by left]. intros k c Hk. by apply elem_of_nil in Hk.
  - unfold scan_step at 2 4 6 8. destruct (Z.eqb_spec a (-1)) as [->|Ha].
    + destruct (IH nf0 Hnd) as (H1 & H2 & H3 & H4). split_and!; [done| | |].
      * intros e He. destruct (H2 e He) as [?|(?&?&?)]; [by left|right].
        split_and!; [by right|done..].
      * intros k c [->|Hk]%elem_of_cons Hne Hp; [done|]. by apply H3.
      * intros e He. destruct (H4 e He) as [?|(?&?&?)]; [by left|right].
        split_and!; [by right|done..].
    + destruct (probe d w h a) as [c|] eqn:Hp.
      * destruct (IH (map_set nf0 a c) (map_set_NoDup _ _ _ Hnd)) as (H1 & H2 & H3 & H4).
        split_and!; [done| | |].
        -- intros e He. destruct (H2 e He) as [Hm|(?&?&?)].
           ++ apply elem_of_map_set in Hm as [->|?]; [right|by left].
              simpl. split_and!; [by left|done..].
           ++ right. split_and!; [by right|done..].
        -- intros k c' [->|Hk]%elem_of_cons Hne Hp'; [|by apply H3].
           assert (c' = c) as -> by congruence.
           destruct (H4 (a, c) (map_set_new _ _ _)) as [?|(Hin&_&_)]; [done|].
           simpl in Hin. by apply (H3 a c).
        -- intros e He. destruct (decide (e.1 = a)) as [Hea|Hea].
           ++ right. rewrite Hea, Hp. split_and!; [by left|done|by eexists].
           ++ destruct (H4 e (map_set_old _ _ _ _ He Hea)) as [?|(?&?&?)]; [by left|right].
              split_and!; [by right|done..].
      * destruct (IH nf0 Hnd) as (H1 & H2 & H3 & H4). split_and!; [done| | |].
        -- intros e He. destruct (H2 e He) as [?|(?&?&?)]; [by left|right].
           split_and!; [by right|done..].
        -- intros k c [->|Hk]%elem_of_cons Hne Hp'; [congruence|]. by apply H3.
        -- intros e He. destruct (H4 e He) as [?|(?&?&?)]; [by left|right].
           split_and!; [by right|done..].
Qed.

Lemma scan_NoDup d w h t : NoDup (scan d w h t).*1.
Proof. apply (scan_fold d w h t []). apply NoDup_nil_2. Qed.

(** What the scan records: the live worklist pixels with a valid neighbour. *)
Lemma elem_of_scan d w h t k c :
  (k, c) ∈ scan d w h t ↔ k ∈ t ∧ k ≠ -1 ∧ probe d w h k = Some c.
Proof.
  destruct (scan_fold d w h t [] (NoDup_nil_2)) as (_ & H2 & H3 & _). split.
  - intros He. destruct (H2 _ He) as [?%elem_of_nil|?]; done.
  - intros (?&?&?). by apply H3.
Qed.

Lemma scan_nil d w h t :
  scan d w h t = [] ↔ ∀ k, k ∈ t → k ≠ -1 → probe d w h k = None.
Proof.
  split.
  - intros Hs k Hk Hne. destruct (probe d w h k) as [c|] eqn:Hp; [|done].
    assert ((k, c) ∈ scan d w h t) as He by by apply elem_of_scan.
    rewrite Hs in He. by apply elem_of_nil in He.
  - intros Hn. destruct (scan d w h t) as [|[k c] l] eqn:Hs; [done|].
    assert ((k, c) ∈ scan d w h t) as He by (rewrite Hs; left).
    apply elem_of_scan in He as (Hk & Hne & Hp). rewrite (Hn k Hk Hne) in Hp. done.
Qed.

(** The three components of a commit. *)
Lemma commit_eq pc d t nf :
  commit pc d t nf =
    (fills d nf, (if pc then t else foldl kill t nf.*1), Z.of_nat (length nf)).
Proof.
  unfold commit, fills.
  assert (∀ n, foldl (commit_step pc) (d, t, n) nf =
    (foldl (λ d e, write_px d e.1 e.2) d nf,
     (if pc then t else foldl kill t nf.*1), n + Z.of_nat (length nf))) as H.
  { revert d t. induction nf as [|[k c] nf IH]; intros d t n; simpl.
    - destruct pc; f_equal; lia.
    - destruct pc; simpl; rewrite IH; f_equal; try lia; done. }
  rewrite H. f_equal.
Qed.

Lemma length_fills d nf : length (fills d nf) = length d.
Proof.
  unfold fills. revert d. induction nf as [|e nf IH]; intros d; simpl; [done|].
  by rewrite IH, length_write_px.
Qed.

Lemma fills_bytes d nf : Forall is_byte d → Forall is_byte (fills d nf).
Proof.
  unfold fills. revert d. induction nf as [|e nf IH]; intros d Hd; simpl; [done|].
  by apply IH, write_px_bytes.
Qed.

(** A commit stores only into the pixels it lists. *)
Lemma rd_fills_out d nf j :
  (∀ k, k ∈ nf.*1 → ¬ (k <= j <= k + 3)) → rd (fills d nf) j = rd d j.
Proof.
  unfold fills. revert d. induction nf as [|[k c] nf IH]; intros d Hj; simpl; [done|].
  rewrite IH.
  - apply rd_write_px_out, Hj. simpl. by left.
  - intros k' Hk'. apply Hj. simpl. by right.
Qed.

(** A listed pixel ends opaque when every recorded colour is opaque. *)
Lemma rd_fills_alpha d nf k :
  (∀ e, e ∈ nf → aligned e.1 ∧ e.2.2 = 255) →
  k ∈ nf.*1 → is_Some (rd d (k + 3)) → rd (fills d nf) (k + 3) = Some 255.
Proof.
  unfold fills. revert d. induction nf as [|[k0 c0] nf IH]; intros d Hall Hk Hs; simpl in *.
  - by apply elem_of_nil in Hk.
  - destruct (decide (k ∈ nf.*1)) as [Hin|Hin].
    + apply IH; [|done|by rewrite rd_write_px_is_Some].
      intros e He. apply Hall. by right.
    + apply elem_of_cons in Hk as [->|?]; [|done].
      destruct (Hall (k0, c0)) as [[Hk0 Hm0] Hc0]; [by left|]. simpl in *.
      fold (fills (write_px d k0 c0) nf). rewrite rd_fills_out.
      * rewrite rd_write_px_alpha by done. rewrite Hc0. done.
      * intros k' Hk'. apply list_elem_of_fmap in Hk' as (e & -> & He).
        destruct (Hall e) as [[Hk1 Hm1] _]; [by right|].
        assert (e.1 ≠ k0).
        { intros E. apply Hin. rewrite <- E. apply list_elem_of_fmap. by exists e. }
        intros Hr.
        destruct (aligned_4 e.1) as (p1 & ? & ?); [done|].
        destruct (aligned_4 k0) as (p0 & ? & ?); [done|]. lia.
Qed.

End PassFacts.

(** ** The worklist under SpaceFill *)

Section WorklistFacts.
Implicit Types (t ks : list Z) (i k a : Z).

Lemma kill_cons a t k :
  kill (a :: t) k = if a =? k then -1 :: t else a :: kill t k.
Proof.
  unfold kill. simpl. destruct (a =? k); simpl; [done|].
  destruct (indexOf t k); done.
Qed.

Lemma elem_of_live t i : i ∈ live t ↔ i ∈ t ∧ i ≠ -1.
Proof. unfold live. rewrite list_elem_of_filter. tauto. Qed.

Lemma live_cons a t : live (a :: t) = if decide (a = -1) then live t else a :: live t.
Proof.
  unfold live. destruct (decide (a = -1)) as [->|Ha].
  - by rewrite filter_cons_False by (intros ?; done).
  - by rewrite filter_cons_True by done.
Qed.

(** Committing a live pixel takes exactly that pixel off the worklist. *)
Lemma live_kill t k :
  NoDup (live t) → k ∈ live t →
  NoDup (live (kill t k)) ∧
  (∀ i, i ∈ live (kill t k) ↔ i ∈ live t ∧ i ≠ k) ∧
  S (length (live (kill t k))) = length (live t).
Proof.
  induction t as [|a t IH]; intros Hnd Hk.
  - by apply elem_of_nil in Hk.
  - rewrite kill_cons. destruct (Z.eqb_spec a k) as [->|Hne].
    + assert (k ≠ -1) as Hk1 by (apply elem_of_live in Hk; tauto).
      rewrite (live_cons k) in Hnd |- *. rewrite (live_cons (-1)).
      destruct (decide (k = -1)); [done|]. rewrite decide_True by done.
      apply NoDup_cons in Hnd as [Hnk Hnd]. split_and!; [done| |done].
      intros i. rewrite elem_of_cons. split; [|tauto].
      intros Hi. split; [by right | congruence].
    + rewrite !live_cons in *. destruct (decide (a = -1)) as [->|Ha].
      * by apply IH.
      * apply NoDup_cons in Hnd as [Hna Hnd].
        apply elem_of_cons in Hk as [->|Hk]; [done|].
        destruct (IH Hnd Hk) as (H1 & H2 & H3). split_and!.
        -- apply NoDup_cons. split; [|done]. rewrite H2. tauto.
        -- intros i. rewrite !elem_of_cons, H2.
           split; [intros [->|[? ?]]; split; auto | tauto].
        -- simpl. by rewrite H3.
Qed.

Lemma length_kill t k : length (kill t k) = length t.
Proof. unfold kill. destruct (indexOf t k); [apply length_insert | done]. Qed.

(** The worklist after a whole commit of distinct live pixels. *)
Lemma live_kills t ks :
  NoDup (live t) → NoDup ks → (∀ k, k ∈ ks → k ∈ live t) →
  NoDup (live (foldl kill t ks)) ∧
  (∀ i, i ∈ live (foldl kill t ks) ↔ i ∈ live t ∧ i ∉ ks) ∧
  (length (live (foldl kill t ks)) + length ks = length (live t))%nat.
Proof.
  revert t. induction ks as [|k ks IH]; intros t Hnd Hks Hin; simpl.
  - split_and!; [done| |lia]. intros i. split; [|tauto].
    intros Hi. split; [done|]. apply not_elem_of_nil.
  - apply NoDup_cons in Hks as [Hk Hks].
    destruct (live_kill t k Hnd) as (H1 & H2 & H3); [apply Hin; by left|].
    destruct (IH (kill t k) H1 Hks) as (G1 & G2 & G3).
    { intros k' Hk'. apply H2. split; [apply Hin; by right|]. intros ->. done. }
    split_and!; [done| |lia].
    intros i. rewrite G2, H2, not_elem_of_cons. tauto.
Qed.

End WorklistFacts.

(** ** The neighbour average *)

Section ProbeFacts.
Implicit Types (d : list Z) (w h idx x y : Z).

Lemma neighbor_step_count d w h s n :
  scount (neighbor_step d w h s n) =
    scount s + (if valid_nb d w h n then 1 else 0).
Proof.
  unfold neighbor_step, valid_nb, offset. destruct n as [nx ny]. simpl.
  destruct (in_bounds w h nx ny); simpl; [|lia].
  destruct (positive_at d _); simpl; lia.
Qed.

Lemma neighbor_fold_count d w h s l :
  scount s <= scount (foldl (neighbor_step d w h) s l) ∧
  (scount s < scount (foldl (neighbor_step d w h) s l) ↔
   ∃ n, n ∈ l ∧ valid_nb d w h n = true).
Proof.
  revert s. induction l as [|n l IH]; intros s; simpl.
  - split; [lia|]. split; [lia|]. intros (n & Hn & _). by apply elem_of_nil in Hn.
  - destruct (IH (neighbor_step d w h s n)) as [H1 H2].
    rewrite neighbor_step_count in H1, H2.
    destruct (valid_nb d w h n) eqn:Hv.
    + split; [lia|]. split; [|lia]. intros _. exists n. split; [by left|done].
    + split; [lia|]. rewrite Z.add_0_r in H2. rewrite H2.
      split; intros (n' & Hn' & Hv').
      * exists n'. split; [by right|done].
      * apply elem_of_cons in Hn' as [->|Hn']; [congruence|]. by exists n'.
Qed.

(** The coordinates the pass recovers from an offset of the grid. *)
Lemma offset_coords w h x y :
  in_grid w h x y →
  Z.rem (offset w x y / 4) w = x ∧ offset w x y / 4 / w = y.
Proof.
  unfold in_grid, offset. intros [Hx Hy].
  rewrite Z.div_mul by lia.
  rewrite Z.rem_mod_nonneg by nia.
  rewrite Z.add_comm, Z.mod_add, Z.div_add by lia.
  rewrite Z.mod_small, Z.div_small by lia. lia.
Qed.

(** A worklist pixel is filled in a pass exactly when a neighbour counts. *)
Lemma probe_is_Some d w h x y :
  in_grid w h x y →
  is_Some (probe d w h (offset w x y)) ↔
  ∃ n, n ∈ neighbors x y ∧ valid_nb d w h n = true.
Proof.
  intros Hg. unfold probe. destruct (offset_coords w h x y Hg) as [-> ->].
  destruct (neighbor_fold_count d w h (Sums 0 0 0 0) (neighbors x y)) as [_ H].
  change (scount (Sums 0 0 0 0)) with 0 in H.
  set (s := foldl (neighbor_step d w h) (Sums 0 0 0 0) (neighbors x y)) in *.
  rewrite <- H. destruct (Z.ltb_spec 0 (scount s)).
  - split; [done | by eexists].
  - split; [intros [? ?]; done | lia].
Qed.

(** Every colour of a pass is opaque. *)
Lemma probe_opaque d w h idx c : probe d w h idx = Some c → c.2 = 255.
Proof.
  unfold probe.
  generalize (foldl (neighbor_step d w h) (Sums 0 0 0 0)
                (neighbors (Z.rem (idx / 4) w) (idx / 4 / w))).
  intros s. destruct (0 <? scount s); [|done]. intros [= <-].
  unfold mk_color. cbn [snd]. reflexivity.
Qed.

End ProbeFacts.

(** ** The loop: what it never touches *)

Section FrameFacts.
Implicit Types (d m t : list Z) (w h idx j k : Z) (st : state).

Lemma body_eq w h pc st :
  body w h pc st =
    let nf := scan (data st) w h (todoPixels st) in
    let n := Z.of_nat (length nf) in
    if pc then
      (State (fills (data st) nf) (todoPixels st) (remaining st) (pass st + 1), true)
    else if n =? 0 then
      (State (fills (data st) nf) (foldl kill (todoPixels st) nf.*1)
             (remaining st - n) (pass st), false)
    else
      (State (fills (data st) nf) (foldl kill (todoPixels st) nf.*1)
             (remaining st - n) (pass st + 1), true).
Proof. unfold body. rewrite commit_eq. by destruct pc. Qed.

Lemma elem_of_kill t k i : i ∈ kill t k → i = -1 ∨ i ∈ t.
Proof.
  revert i. induction t as [|a t IH]; intros i.
  - unfold kill. simpl. by right.
  - rewrite kill_cons. destruct (a =? k).
    + intros [->|?]%elem_of_cons; [by left | right; by right].
    + intros [->|Hi]%elem_of_cons; [right; by left|].
      destruct (IH i Hi); [by left | right; by right].
Qed.

Lemma elem_of_kills t ks i : i ∈ foldl kill t ks → i = -1 ∨ i ∈ t.
Proof.
  revert t. induction ks as [|k ks IH]; intros t; simpl; [by right|].
  intros Hi. destruct (IH _ Hi) as [?|Hk]; [by left|]. by apply elem_of_kill in Hk.
Qed.

(** The worklist only ever loses pixels. *)
Lemma body_todo w h pc st i :
  i ∈ todoPixels (body w h pc st).1 → i = -1 ∨ i ∈ todoPixels st.
Proof.
  rewrite body_eq. simpl. destruct pc; simpl; [by right|].
  destruct (_ =? 0); simpl; apply elem_of_kills.
Qed.

(** One turn stores only into pixels of its worklist. *)
Lemma body_frame w h pc st j :
  (∀ k, k ∈ todoPixels st → k ≠ -1 → ¬ (k <= j <= k + 3)) →
  rd (data (body w h pc st).1) j = rd (data st) j.
Proof.
  intros Hj.
  assert (rd (fills (data st) (scan (data st) w h (todoPixels st))) j = rd (data st) j) as H.
  { apply rd_fills_out. intros k Hk. apply list_elem_of_fmap in Hk as ([k' c] & -> & He).
    apply elem_of_scan in He as (? & ? & _). by apply Hj. }
  rewrite body_eq. simpl. destruct pc; simpl; [done|]. by destruct (_ =? 0).
Qed.

Lemma body_length w h pc st :
  length (data (body w h pc st).1) = length (data st).
Proof.
  rewrite body_eq. simpl. destruct pc; simpl; [apply length_fills|].
  destruct (_ =? 0); apply length_fills.
Qed.

Lemma body_bytes w h pc st :
  Forall is_byte (data st) → Forall is_byte (data (body w h pc st).1).
Proof.
  intros Hb. rewrite body_eq. simpl. destruct pc; simpl; [by apply fills_bytes|].
  destruct (_ =? 0); by apply fills_bytes.
Qed.

(** The unfolding of [loop] in terms of [body]. *)
Lemma loop_S turns w h pc st :
  (loop (S turns) w h pc st).1 =
    if 0 <? remaining st then
      if (body w h pc st).2 then (loop turns w h pc (body w h pc st).1).1
      else (body w h pc st).1
    else st.
Proof.
  simpl. destruct (0 <? remaining st); [|done].
  destruct (body w h pc st) as [st' go]. simpl.
  destruct go; [|done]. by destruct (loop turns w h pc st').
Qed.

(** A property of the state that every turn keeps holds at the end. *)
Lemma loop_ind (P : state → Prop) w h pc :
  (∀ st, P st → P (body w h pc st).1) →
  ∀ turns st, P st → P (loop turns w h pc st).1.
Proof.
  intros Hb. induction turns as [|turns IH]; intros st Hst; [done|].
  rewrite loop_S. destruct (0 <? remaining st); [|done].
  destruct ((body w h pc st).2); [apply IH|]; by apply Hb.
Qed.

Lemma loop_frame turns w h pc st j :
  (∀ k, k ∈ todoPixels st → k ≠ -1 → ¬ (k <= j <= k + 3)) →
  rd (data (loop turns w h pc st).1) j = rd (data st) j.
Proof.
  intros Hj.
  apply (loop_ind (λ s, (∀ k, k ∈ todoPixels s → k ≠ -1 → ¬ (k <= j <= k + 3)) ∧
                        rd (data s) j = rd (data st) j) w h pc); [|done].
  intros s [Hs1 Hs2]. split.
  - intros k Hk Hne. destruct (body_todo _ _ _ _ _ Hk); [done | by apply Hs1].
  - by rewrite body_frame.
Qed.

Lemma loop_length turns w h pc st :
  length (data (loop turns w h pc st).1) = length (data st).
Proof.
  apply (loop_ind (λ s, length (data s) = length (data st)) w h pc); [|done].
  intros s Hs. by rewrite body_length.
Qed.

Lemma loop_bytes turns w h pc st :
  Forall is_byte (data st) → Forall is_byte (data (loop turns w h pc st).1).
Proof. apply (loop_ind (λ s, Forall is_byte (data s)) w h pc). apply body_bytes. Qed.

Lemma start_eq d m w h pc :
  start d m w h pc =
    State (if pc then d else foldl clear d (holes m w h)) (holes m w h)
          (Z.of_nat (length (holes m w h))) 0.
Proof. unfold start. by rewrite init_eq. Qed.

Lemma sharpDiffusion_eq d m w h n pc :
  sharpDiffusion d m w h n pc = data (after (Z.to_nat n) d m w h pc).
Proof.
  unfold sharpDiffusion, run, after, start.
  by destruct (init d m w h pc).
Qed.

Lemma hole_slot_iff m w h j :
  hole_slot m w h j ↔ ∃ idx, idx ∈ holes m w h ∧ idx <= j <= idx + 3.
Proof.
  unfold hole_slot. split.
  - intros (x & y & Hg & Hh & Hj). exists (offset w x y). split; [|done].
    apply elem_of_holes. eauto.
  - intros (idx & (Hh & x & y & Hg & ->)%elem_of_holes & Hj). eauto.
Qed.

(** The fill stores only into hole pixels, under either policy. *)
Lemma after_frame turns d m w h pc j :
  ¬ hole_slot m w h j → rd (data (after turns d m w h pc)) j = rd d j.
Proof.
  intros Hj. rewrite hole_slot_iff in Hj. unfold after. rewrite loop_frame.
  - rewrite start_eq. simpl. destruct pc; [done|].
    apply rd_cleared_other. intros idx Hidx ->. apply Hj. exists idx. split; [done|lia].
  - rewrite start_eq. simpl. intros k Hk _ Hr. apply Hj. eauto.
Qed.

Lemma after_length turns d m w h pc :
  length (data (after turns d m w h pc)) = length d.
Proof.
  unfold after. rewrite loop_length, start_eq. simpl.
  destruct pc; [done | apply length_cleared].
Qed.

Lemma sharpDiffusion_length d m w h n pc :
  length (sharpDiffusion d m w h n pc) = length d.
Proof. rewrite sharpDiffusion_eq. apply after_length. Qed.

Lemma sharpDiffusion_bytes d m w h n pc :
  Forall is_byte d → Forall is_byte (sharpDiffusion d m w h n pc).
Proof.
  intros Hd. rewrite sharpDiffusion_eq. unfold after. apply loop_bytes.
  rewrite start_eq. simpl. destruct pc; [done | by apply cleared_bytes].
Qed.

(** The slots of a keep pixel of the grid belong to no hole pixel. *)
Lemma keep_not_hole_slot m w h x y k :
  in_grid w h x y → ¬ hole m (offset w x y) → 0 <= k <= 3 →
  ¬ hole_slot m w h (offset w x y + k).
Proof.
  intros Hg Hk Hr (x' & y' & Hg' & Hh & Hj).
  destruct (aligned_4 _ (offset_aligned w h x y Hg)) as (p & ? & Hp).
  destruct (aligned_4 _ (offset_aligned w h x' y' Hg')) as (p' & ? & Hp').
  assert (offset w x' y' = offset w x y) as E by lia.
  rewrite E in Hh. done.
Qed.

End FrameFacts.

(** ** Canvas reads *)

Section CanvasFacts.
Implicit Types (c : Canvas) (d : list Z) (w h x y k : Z).

Lemma length_getImageData c w h :
  length (getImageData c w h) = Z.to_nat (w * h * 4).
Proof. unfold getImageData. by rewrite length_fmap, length_seqZ. Qed.

Lemma getImageData_sized c w h : 0 <= w → 0 <= h → sized w h (getImageData c w h).
Proof. intros Hw Hh. unfold sized. rewrite length_getImageData. nia. Qed.

Lemma getImageData_bytes c w h :
  Forall is_byte (cdata c) → Forall is_byte (getImageData c w h).
Proof.
  intros Hb. unfold getImageData. apply Forall_fmap, Forall_forall.
  intros j _. simpl. destruct (_ && _); [by apply rd0_byte | unfold is_byte; lia].
Qed.

Lemma offset_split w h x y k :
  in_grid w h x y → 0 <= k <= 3 →
  (offset w x y + k) / 4 = y * w + x ∧ (offset w x y + k) mod 4 = k ∧
  (y * w + x) mod w = x ∧ (y * w + x) / w = y ∧
  0 <= offset w x y + k < w * h * 4.
Proof.
  unfold in_grid, offset. intros [Hx Hy] Hk.
  assert ((y + 1) * w <= h * w) by (apply Z.mul_le_mono_nonneg_r; lia).
  assert (0 <= y * w) by (apply Z.mul_nonneg_nonneg; lia).
  split_and!.
  - rewrite Z.add_comm, Z.div_add by lia. rewrite Z.div_small by lia. lia.
  - rewrite Z.add_comm, Z.mod_add by lia. apply Z.mod_small. lia.
  - rewrite Z.add_comm, Z.mod_add by lia. apply Z.mod_small. lia.
  - rewrite Z.add_comm, Z.div_add by lia. rewrite Z.div_small by lia. lia.
  - lia.
  - lia.
Qed.

(** A pixel read from a canvas: the canvas pixel, or transparent black
    outside the canvas. *)
Lemma rd_getImageData c w h x y k :
  in_grid w h x y → 0 <= k <= 3 →
  rd (getImageData c w h) (offset w x y + k) =
    Some (if (x <? cw c) && (y <? ch c)
          then rd0 (cdata c) (offset (cw c) x y + k) else 0).
Proof.
  intros Hg Hk. destruct (offset_split w h x y k Hg Hk) as (E1 & E2 & E3 & E4 & Hr).
  unfold rd. destruct (Z.ltb_spec (offset w x y + k) 0); [lia|].
  unfold getImageData. rewrite list_lookup_fmap, lookup_seqZ_lt by lia. simpl.
  rewrite Z2Nat.id, Z.add_0_l by lia. rewrite E1, E2, E3, E4. done.
Qed.

Lemma grid_of_slot w h j :
  0 <= w → 0 <= h → 0 <= j < w * h * 4 →
  ∃ x y k, in_grid w h x y ∧ 0 <= k <= 3 ∧ j = offset w x y + k.
Proof.
  intros Hw Hh Hj. assert (0 < w) by nia. assert (0 < h) by nia.
  exists ((j / 4) mod w), (j / 4 / w), (j mod 4).
  pose proof (Z_div_mod_eq_full j 4). pose proof (Z.mod_pos_bound j 4).
  pose proof (Z_div_mod_eq_full (j / 4) w). pose proof (Z.mod_pos_bound (j / 4) w).
  assert (0 <= j / 4) by (apply Z.div_pos; lia).
  assert (0 <= j / 4 / w) by (apply Z.div_pos; lia).
  assert (j / 4 < w * h) by (apply Z.div_lt_upper_bound; lia).
  assert (j / 4 / w < h) by (apply Z.div_lt_upper_bound; lia).
  unfold in_grid, offset. split_and!; lia.
Qed.

(** Reading the whole of a well-sized canvas gives its bytes. *)
Lemma getImageData_id w h d :
  0 <= w → 0 <= h → sized w h d → getImageData (MkCanvas w h d) w h = d.
Proof.
  intros Hw Hh Hs. unfold sized in Hs. apply list_eq. intros i.
  destruct (decide (Z.of_nat i < w * h * 4)) as [Hi|Hi].
  - destruct (grid_of_slot w h (Z.of_nat i)) as (x & y & k & Hg & Hk & Hj); [lia..|].
    pose proof (rd_getImageData (MkCanvas w h d) w h x y k Hg Hk) as Hrd.
    rewrite <- Hj, rd_of_nat in Hrd. rewrite Hrd. simpl.
    destruct Hg as [Hx Hy].
    destruct (Z.ltb_spec x w); [|lia]. destruct (Z.ltb_spec y h); [|lia]. simpl.
    unfold rd0. rewrite <- Hj, rd_of_nat.
    destruct (lookup_lt_is_Some_2 d i) as [a Ha]; [lia|]. by rewrite Ha.
  - rewrite !lookup_ge_None_2; [done | lia |].
    rewrite length_getImageData. lia.
Qed.

Lemma crop_id w h d :
  0 <= w → 0 <= h → sized w h d →
  crop (MkCanvas w h d) w h = MkCanvas w h d.
Proof. intros. unfold crop. by rewrite getImageData_id. Qed.

End CanvasFacts.

(** ** The canvas store *)

Section StoreFacts.
Variable blend : Z → Z → Z.
Implicit Types (c : color) (d : list Z) (w h idx j k p : Z).

Local Abbreviation stored := (stored blend).
Local Abbreviation through := (through blend).

Lemma length_through d : length (through d) = length d.
Proof. unfold Canvas2D.through. rewrite length_fmap, length_seqZ. lia. Qed.

Lemma sized_through w h d : sized w h (through d) ↔ sized w h d.
Proof. unfold sized. by rewrite length_through. Qed.

Lemma rd_through d j :
  rd (through d) j = (const (chan (stored (pixel d (j / 4))) (j mod 4)) <$> rd d j).
Proof.
  unfold rd. destruct (Z.ltb_spec j 0); [done|].
  unfold Canvas2D.through. rewrite list_lookup_fmap.
  destruct (decide (j < Z.of_nat (length d))) as [Hj|Hj].
  - rewrite lookup_seqZ_lt by lia. simpl. rewrite Z2Nat.id, Z.add_0_l by lia.
    destruct (lookup_lt_is_Some_2 d (Z.to_nat j)) as [a ->]; [lia | done].
  - rewrite lookup_seqZ_ge by lia. rewrite lookup_ge_None_2 by lia. done.
Qed.

Lemma pixel_at d idx :
  aligned idx →
  pixel d (idx / 4) = (rd0 d idx, rd0 d (idx + 1), rd0 d (idx + 2), rd0 d (idx + 3)).
Proof.
  intros Ha. destruct (aligned_4 idx Ha) as (p & Hp & ->).
  rewrite (Z.mul_comm 4 p), Z.div_mul by lia. unfold pixel. by rewrite (Z.mul_comm 4 p).
Qed.

(** A byte of a pixel, written and read back. *)
Lemma rd_through_px d idx k :
  aligned idx → 0 <= k <= 3 →
  rd (through d) (idx + k) =
    (const (chan (stored (pixel d (idx / 4))) k) <$> rd d (idx + k)).
Proof.
  intros Ha Hk. rewrite rd_through.
  destruct (aligned_4 idx Ha) as (p & Hp & ->).
  assert ((4 * p + k) / 4 = p) as ->.
  { rewrite Z.add_comm, (Z.mul_comm 4 p), Z.div_add by lia.
    rewrite Z.div_small by lia. lia. }
  assert ((4 * p + k) mod 4 = k) as ->.
  { rewrite Z.add_comm, (Z.mul_comm 4 p), Z.mod_add by lia. apply Z.mod_small. lia. }
  by rewrite (Z.mul_comm 4 p), Z.div_mul by lia.
Qed.

Lemma stored_alpha c : chan (stored c) 3 = chan c 3.
Proof.
  destruct c as [ [ [r g] b] a]. unfold Canvas2D.stored. simpl.
  destruct (Z.eqb_spec a 0) as [->|]; [done|]. by destruct (a =? 255).
Qed.

Lemma stored_opaque r g b : stored (r, g, b, 255) = (r, g, b, 255).
Proof. done. Qed.

Lemma stored_clear r g b : stored (r, g, b, 0) = (0, 0, 0, 0).
Proof. done. Qed.

Lemma stored_bytes c k :
  (∀ o, 0 <= o <= 3 → is_byte (chan c o)) → 0 <= k <= 3 → is_byte (chan (stored c) k).
Proof.
  destruct c as [ [ [r g] b] a]. intros Hb Hk. unfold Canvas2D.stored.
  pose proof (Hb 0 ltac:(lia)) as H0. pose proof (Hb 1 ltac:(lia)) as H1.
  pose proof (Hb 2 ltac:(lia)) as H2. pose proof (Hb 3 ltac:(lia)) as H3.
  simpl in H0, H1, H2, H3.
  assert (k = 0 ∨ k = 1 ∨ k = 2 ∨ k = 3) as [-> | [-> | [-> | ->] ] ] by lia;
    destruct (a =? 0); [unfold is_byte; simpl; lia | |unfold is_byte; simpl; lia |
                        |unfold is_byte; simpl; lia | |unfold is_byte; simpl; lia |];
    destruct (a =? 255); simpl; try done; apply clamp8_byte.
Qed.

Lemma rd0_of d j a : rd d j = Some a → rd0 d j = a.
Proof. unfold rd0. by intros ->. Qed.

(** The alpha of a pixel is read back as it was written. *)
Lemma through_alpha d idx : aligned idx → rd (through d) (idx + 3) = rd d (idx + 3).
Proof.
  intros Ha. rewrite rd_through_px by (done || lia).
  rewrite stored_alpha, pixel_at by done.
  destruct (rd d (idx + 3)) as [a|] eqn:E; [|done]. simpl. by rewrite (rd0_of _ _ _ E).
Qed.

Lemma rd_before d j k : 0 <= j <= k → is_Some (rd d k) → is_Some (rd d j).
Proof. intros Hj Hk. apply rd_is_Some. apply rd_is_Some in Hk. lia. Qed.

(** An opaque pixel is read back as it was written. *)
Lemma through_opaque d idx k :
  aligned idx → rd d (idx + 3) = Some 255 → 0 <= k <= 3 →
  rd (through d) (idx + k) = rd d (idx + k).
Proof.
  intros Ha E Hk. rewrite rd_through_px by done.
  destruct (rd_before d (idx + k) (idx + 3)) as [v Hv];
    [destruct Ha; lia | by rewrite E |].
  rewrite pixel_at by done. rewrite (rd0_of _ _ _ E), stored_opaque, Hv.
  assert (k = 0 ∨ k = 1 ∨ k = 2 ∨ k = 3) as [-> | [-> | [-> | ->] ] ] by lia; simpl; f_equal.
  - rewrite Z.add_0_r in Hv. by apply rd0_of.
  - by apply rd0_of.
  - by apply rd0_of.
  - congruence.
Qed.

(** A pixel written with alpha 0 is read back as transparent black. *)
Lemma through_clear d idx k :
  aligned idx → rd d (idx + 3) = Some 0 → 0 <= k <= 3 →
  rd (through d) (idx + k) = Some 0.
Proof.
  intros Ha E Hk. rewrite rd_through_px by done.
  destruct (rd_before d (idx + k) (idx + 3)) as [v Hv];
    [destruct Ha; lia | by rewrite E |].
  rewrite pixel_at by done. rewrite (rd0_of _ _ _ E), stored_clear, Hv.
  by assert (k = 0 ∨ k = 1 ∨ k = 2 ∨ k = 3) as [-> | [-> | [-> | ->] ] ] by lia.
Qed.

(** The four bytes of a pixel of the buffer, written and read back. *)
Lemma pixel_through d idx :
  aligned idx → is_Some (rd d (idx + 3)) →
  pixel (through d) (idx / 4) = stored (pixel d (idx / 4)).
Proof.
  intros Ha Hs. rewrite (pixel_at (through d)) by done.
  assert (∀ k, 0 <= k <= 3 →
            rd0 (through d) (idx + k) = chan (stored (pixel d (idx / 4))) k) as H.
  { intros k Hk. apply rd0_of. rewrite rd_through_px by done.
    destruct (rd_before d (idx + k) (idx + 3)) as [v ->]; [destruct Ha; lia | done | done]. }
  pose proof (H 0 ltac:(lia)) as H0. rewrite Z.add_0_r in H0.
  rewrite H0, (H 1), (H 2), (H 3) by lia.
  by destruct (stored (pixel d (idx / 4))) as [ [ [r g] b] a].
Qed.

Lemma pixel_ext d1 d2 idx :
  aligned idx → (∀ k, 0 <= k <= 3 → rd d1 (idx + k) = rd d2 (idx + k)) →
  pixel d1 (idx / 4) = pixel d2 (idx / 4).
Proof.
  intros Ha H. rewrite !pixel_at by done. unfold rd0.
  pose proof (H 0 ltac:(lia)) as H0. rewrite Z.add_0_r in H0.
  by rewrite H0, (H 1), (H 2), (H 3) by lia.
Qed.

Lemma below128_through d idx :
  aligned idx → below128 (through d) (idx + 3) = below128 d (idx + 3).
Proof. intros Ha. unfold below128. by rewrite through_alpha. Qed.

Lemma hole_through d idx : aligned idx → hole (through d) idx ↔ hole d idx.
Proof. intros Ha. unfold hole. by rewrite below128_through. Qed.

Lemma through_bytes d : Forall is_byte d → Forall is_byte (through d).
Proof.
  intros Hb. apply Forall_forall. intros v Hv.
  apply list_elem_of_lookup in Hv as [i Hi].
  rewrite <- rd_of_nat, rd_through in Hi.
  destruct (rd d (Z.of_nat i)) as [a|] eqn:E; [|done].
  assert (v = chan (stored (pixel d (Z.of_nat i / 4))) (Z.of_nat i mod 4)) as ->
    by (symmetry; apply (inj Some); exact Hi).
  pose proof (Z.mod_pos_bound (Z.of_nat i) 4 ltac:(lia)).
  apply stored_bytes; [|lia].
  intros o Ho. unfold pixel.
  assert (o = 0 ∨ o = 1 ∨ o = 2 ∨ o = 3) as [-> | [-> | [-> | ->] ] ] by lia; simpl;
    by apply rd0_byte.
Qed.

(** The canvas after a draw at the origin. *)
Lemma rd_drawImage00 (src : Canvas) w h x y k :
  in_grid w h x y → 0 <= k <= 3 →
  rd (cdata (drawImage00 blend src w h)) (offset w x y + k) =
    Some (chan (stored (pixel (getImageData src w h) (offset w x y / 4))) k).
Proof.
  intros Hg Hk. simpl. rewrite rd_through_px by (done || by eapply offset_aligned).
  by rewrite rd_getImageData.
Qed.

Lemma getImageData_putData w h d :
  0 <= w → 0 <= h → sized w h d →
  getImageData (putData blend w h d) w h = through d.
Proof. intros. apply getImageData_id; [done..|]. by apply sized_through. Qed.

Lemma getImageData_drawImage00 (src : Canvas) w h :
  0 <= w → 0 <= h →
  getImageData (drawImage00 blend src w h) w h = through (getImageData src w h).
Proof.
  intros. apply getImageData_id; [done..|]. apply sized_through.
  by apply getImageData_sized.
Qed.

(** The store that rounds to the nearest byte, on the translucent pixel
    (5, 6, 7, 100). *)
Lemma nearest_faint :
  Canvas2D.stored nearest (5, 6, 7, 100) = (5, 5, 8, 100) ∧
  Canvas2D.stored nearest (5, 5, 8, 100) = (5, 5, 8, 100).
Proof. split; reflexivity. Qed.

End StoreFacts.

(** ** Texturizer arithmetic *)

Section RoundingFacts.

Lemma Qle_bool_spec a b : reflect (a <= b)%Q (Qle_bool a b).
Proof. apply iff_reflect. symmetry. apply Qle_bool_iff. Qed.

Lemma of_Qle a b : (inject_Z a <= inject_Z b)%Q → a <= b.
Proof. unfold Qle. simpl. lia. Qed.

Lemma to_Qle a b : a <= b → (inject_Z a <= inject_Z b)%Q.
Proof. unfold Qle. simpl. lia. Qed.

Lemma of_Qlt a b : (inject_Z a < inject_Z b)%Q → a < b.
Proof. unfold Qlt. simpl. lia. Qed.

Lemma floor_ge (a : Z) q : (inject_Z a <= q)%Q → a <= Qfloor q.
Proof. intros H. apply Qfloor_resp_le in H. by rewrite Qfloor_Z in H. Qed.

Lemma floor_lt (b : Z) q : (q < inject_Z b)%Q → Qfloor q < b.
Proof.
  intros H. pose proof (Qfloor_le q) as Hf.
  assert (inject_Z (Qfloor q) < inject_Z b)%Q as Hl by lra.
  apply of_Qlt. lra.
Qed.

Lemma to_uint8_clamp_bounds q (a b : Z) :
  0 <= a → b <= 255 → (inject_Z a <= q)%Q → (q <= inject_Z b)%Q →
  a <= to_uint8_clamp q <= b.
Proof.
  intros Ha Hb Haq Hqb. unfold to_uint8_clamp.
  assert (inject_Z a <= inject_Z b)%Q as Hab by lra. apply of_Qle in Hab.
  destruct (Qle_bool_spec q 0) as [H0|H0].
  { assert (inject_Z a <= inject_Z 0)%Q as H
      by (change (inject_Z 0) with 0%Q; lra).
    apply of_Qle in H. lia. }
  destruct (Qle_bool_spec 255 q) as [H1|H1].
  { assert (inject_Z 255 <= inject_Z b)%Q as H
      by (change (inject_Z 255) with 255%Q; lra).
    apply of_Qle in H. lia. }
  pose proof (floor_ge a q Haq) as Hf.
  pose proof (Qfloor_le q) as Hfq.
  assert (Qfloor q <= b) as Hfb.
  { apply of_Qle. lra. }
  destruct (Qcompare_spec (inject_Z (Qfloor q) + Qmake 1 2) q) as [He|Hl|Hg].
  - destruct (Z.even (Qfloor q)); [lia|].
    assert (Qfloor q < b); [|lia]. apply of_Qlt. lra.
  - assert (Qfloor q < b); [|lia]. apply of_Qlt. lra.
  - lia.
Qed.

Lemma qclamp_bounds (s : Z) (x : Q) :
  0 <= s <= 255 → (inject_Z s - 6 <= x)%Q → (x <= inject_Z s + 6)%Q →
  (inject_Z (Z.max 0 (s - 6)) <= qmax 0 (qmin 255 x))%Q ∧
  (qmax 0 (qmin 255 x) <= inject_Z (Z.min 255 (s + 6)))%Q.
Proof.
  intros Hs Hn1 Hn2. unfold qmax, qmin.
  pose proof (to_Qle 0 s ltac:(lia)) as Hs0.
  pose proof (to_Qle s 255 ltac:(lia)) as Hs1.
  pose proof (to_Qle 0 (Z.max 0 (s - 6)) ltac:(lia)) as HA0.
  pose proof (to_Qle (Z.min 255 (s + 6)) 255 ltac:(lia)) as HB0.
  assert (inject_Z (Z.max 0 (s - 6)) <= 0 ∨
          inject_Z (Z.max 0 (s - 6)) <= inject_Z s + -6)%Q as HA2.
  { destruct (Z.max_spec 0 (s - 6)) as [[_ ->]|[_ ->]].
    - right. unfold Z.sub. rewrite inject_Z_plus. apply Qle_refl.
    - left. apply Qle_refl. }
  assert (255 <= inject_Z (Z.min 255 (s + 6)) ∨
          inject_Z s + 6 <= inject_Z (Z.min 255 (s + 6)))%Q as HB2.
  { destruct (Z.min_spec 255 (s + 6)) as [[_ ->]|[_ ->]].
    - left. apply Qle_refl.
    - right. rewrite inject_Z_plus. apply Qle_refl. }
  change (inject_Z 0) with 0%Q in *. change (inject_Z 255) with 255%Q in *.
  destruct (Qle_bool_spec 255 x) as [Ha|Ha].
  - destruct (Qle_bool_spec 0 255) as [Hb|Hb]; [|lra].
    destruct HA2, HB2; split; lra.
  - destruct (Qle_bool_spec 0 x) as [Hb|Hb];
      destruct HA2, HB2; split; lra.
Qed.

Lemma floor_unique q (f : Z) :
  (inject_Z f <= q)%Q → (q < inject_Z f + 1)%Q → Qfloor q = f.
Proof.
  intros H1 H2. pose proof (floor_ge f q H1).
  assert (Qfloor q < f + 1); [|lia].
  apply floor_lt. rewrite inject_Z_plus. change (inject_Z 1) with 1%Q. lra.
Qed.


End RoundingFacts.

(** ** Rounding to a double *)

Section DoubleFacts.
Implicit Types (q f : Q) (N M e : Z).

Lemma rne_bounds q : Qfloor q <= rne q <= Qfloor q + 1.
Proof. unfold rne. destruct (_ ?= _)%Q; [destruct (Z.even _)|..]; lia. Qed.

Lemma rne_le q N : (q <= inject_Z N)%Q → rne q <= N.
Proof.
  intros H. pose proof (Qfloor_le q) as Hf. unfold rne.
  assert (Qfloor q <= N) as Hn by (apply of_Qle; lra).
  destruct (Z.eq_dec (Qfloor q) N) as [E|E];
    [|destruct (_ ?= _)%Q; [destruct (Z.even _)|..]; lia].
  destruct (Qcompare_spec (inject_Z (Qfloor q) + Qmake 1 2) q) as [He|Hl|Hg]; [| |lia].
  - rewrite E in He. lra.
  - rewrite E in Hl. lra.
Qed.

Lemma rne_ge q N : (inject_Z N <= q)%Q → N <= rne q.
Proof.
  intros H. pose proof (floor_ge N q H). pose proof (rne_bounds q). lia.
Qed.

Lemma pow2_pos e : (0 < 2 ^ e)%Q.
Proof. apply Qpower_0_lt. lra. Qed.

Lemma pow2_split a b : (2 ^ (a + b) == 2 ^ a * 2 ^ b)%Q.
Proof. apply Qpower_plus. lra. Qed.

Lemma pow2_Z n : 0 <= n → (inject_Z (2 ^ n) == 2 ^ n)%Q.
Proof. intros. by rewrite Zpower_Qpower. Qed.

Lemma pow2_le a b : a <= b → (2 ^ a <= 2 ^ b)%Q.
Proof. intros. apply Qpower_le_compat_l; [done | lra]. Qed.

(** The exponent of a number that is not 0. *)
Lemma binade_spec q :
  ¬ (q == 0)%Q → (2 ^ binade q <= Qabs q)%Q ∧ (Qabs q < 2 ^ (binade q + 1))%Q.
Proof.
  intros Hq. destruct q as [n d].
  assert (n ≠ 0) as Hn. { intros ->. apply Hq. reflexivity. }
  unfold binade. cbn [Qnum Qden].
  set (ln := Z.log2 (Z.abs n)). set (ld := Z.log2 (Z.pos d)).
  assert (0 < Z.abs n) as Hna by lia.
  destruct (Z.log2_spec (Z.abs n) Hna) as [Hn1 Hn2]. fold ln in Hn1, Hn2.
  destruct (Z.log2_spec (Z.pos d) ltac:(lia)) as [Hd1 Hd2]. fold ld in Hd1, Hd2.
  pose proof (Z.log2_nonneg (Z.abs n)) as Hln. fold ln in Hln.
  pose proof (Z.log2_nonneg (Z.pos d)) as Hld. fold ld in Hld.
  assert (Qabs (n # d) == inject_Z (Z.abs n) / inject_Z (Z.pos d))%Q as Ea.
  { unfold Qabs. rewrite Qmake_Qdiv. reflexivity. }
  set (A := inject_Z (Z.abs n)) in *. set (D := inject_Z (Z.pos d)) in *.
  assert (2 ^ ln <= A)%Q as HA1.
  { rewrite <- pow2_Z by done. by apply to_Qle. }
  assert (A < 2 ^ (ln + 1))%Q as HA2.
  { rewrite <- pow2_Z by lia. unfold A. rewrite <- Zlt_Qlt. done. }
  assert (2 ^ ld <= D)%Q as HD1.
  { rewrite <- pow2_Z by done. by apply to_Qle. }
  assert (D < 2 ^ (ld + 1))%Q as HD2.
  { rewrite <- pow2_Z by lia. unfold D. rewrite <- Zlt_Qlt. done. }
  pose proof (pow2_pos ld) as Hpd.
  assert (0 < D)%Q as HD0 by lra.
  assert (∀ x, (x * D <= A → x <= Qabs (n # d)))%Q as Hle.
  { intros x Hx. rewrite Ea. apply Qle_shift_div_l; done. }
  assert (∀ x, (A < x * D → Qabs (n # d) < x))%Q as Hlt.
  { intros x Hx. rewrite Ea. apply Qlt_shift_div_r; done. }
  destruct (Qle_bool (2 ^ (ln - ld)) (Qabs (n # d))) eqn:Et.
  - apply Qle_bool_iff in Et. split; [done|]. apply Hlt.
    pose proof (pow2_split (ln - ld + 1) ld) as E.
    replace (ln - ld + 1 + ld) with (ln + 1) in E by lia.
    pose proof (pow2_pos (ln - ld + 1)). nra.
  - assert (¬ (2 ^ (ln - ld) <= Qabs (n # d))%Q) as Hf.
    { intros H. apply Qle_bool_iff in H. congruence. }
    split.
    + apply Hle.
      pose proof (pow2_split (ln - ld - 1) (ld + 1)) as E.
      replace (ln - ld - 1 + (ld + 1)) with ln in E by lia.
      pose proof (pow2_pos (ln - ld - 1)). nra.
    + replace (ln - ld - 1 + 1) with (ln - ld) by lia. lra.
Qed.

Lemma ulp_pos q : (0 < ulp q)%Q.
Proof. apply pow2_pos. Qed.

Lemma b64_zero q : (q == 0)%Q → (b64 q == 0)%Q.
Proof.
  intros E. unfold b64.
  assert (rne (q / ulp q) = 0) as ->; [|change (inject_Z 0) with 0%Q; ring].
  pose proof (ulp_pos q) as Hu.
  assert (q / ulp q == 0)%Q as E0.
  { unfold Qdiv. rewrite (Qmult_comp _ _ E _ _ (Qeq_refl (/ ulp q))). ring. }
  pose proof (rne_le (q / ulp q) 0) as H1. pose proof (rne_ge (q / ulp q) 0) as H2.
  change (inject_Z 0) with 0%Q in *.
  assert (rne (q / ulp q) <= 0) by (apply H1; lra).
  assert (0 <= rne (q / ulp q)) by (apply H2; lra). lia.
Qed.

(** A double at an exponent that [ulp q] does not exceed is a whole
    number of [ulp q]. *)
Lemma double_grid q M e :
  Z.max (binade q) (-1022) - 52 <= e →
  ∃ N, (inject_Z M * 2 ^ e == inject_Z N * ulp q)%Q.
Proof.
  intros He. exists (M * 2 ^ (e - (Z.max (binade q) (-1022) - 52))).
  unfold ulp. rewrite inject_Z_mult, pow2_Z by lia.
  rewrite <- Qmult_assoc, <- pow2_split.
  by replace (e - (Z.max (binade q) (-1022) - 52) + (Z.max (binade q) (-1022) - 52))
    with e by lia.
Qed.

(** Any other double is smaller than [q] in magnitude, and [q] is in
    the normal range, where the least number of its exponent is a whole
    number of [ulp q]. *)
Lemma double_small q M e :
  ¬ (q == 0)%Q → Z.abs M < 2 ^ 53 → -1074 <= e →
  ¬ (Z.max (binade q) (-1022) - 52 <= e) →
  (Qabs (inject_Z M * 2 ^ e) < 2 ^ binade q)%Q ∧ (2 ^ binade q <= Qabs q)%Q ∧
  (2 ^ binade q == inject_Z (2 ^ 52) * ulp q)%Q.
Proof.
  intros Hq HM He Hn. destruct (binade_spec q Hq) as [Hb _].
  assert (Z.max (binade q) (-1022) = binade q) as Em by lia.
  split_and!; [|done|].
  - rewrite Qabs_Qmult, (Qabs_pos (2 ^ e)) by (apply Qlt_le_weak, pow2_pos).
    assert (Qabs (inject_Z M) <= inject_Z (2 ^ 53 - 1))%Q as HM'.
    { apply Qabs_Qle_condition. split; [rewrite <- inject_Z_opp|]; apply to_Qle; lia. }
    assert (inject_Z (2 ^ 53 - 1) < 2 ^ 53)%Q as H53.
    { rewrite <- pow2_Z by lia. rewrite <- Zlt_Qlt. lia. }
    pose proof (pow2_pos e) as Hpe.
    assert (2 ^ 53 * 2 ^ e <= 2 ^ binade q)%Q as Hle.
    { rewrite <- pow2_split. apply pow2_le. lia. }
    nra.
  - unfold ulp. rewrite Em, pow2_Z by lia. rewrite <- pow2_split.
    by replace (52 + (binade q - 52)) with (binade q) by lia.
Qed.

(** Rounding to a double does not pass a double. *)
Lemma b64_le q f : double f → (q <= f)%Q → (b64 q <= f)%Q.
Proof.
  intros (M & e & HM & He & Ef) Hqf.
  destruct (Qeq_dec q 0) as [E0|Hq]; [rewrite (b64_zero q E0); lra|].
  pose proof (ulp_pos q) as Hu.
  destruct (Z_le_dec (Z.max (binade q) (-1022) - 52) e) as [Hg|Hg].
  - destruct (double_grid q M e Hg) as [N EN].
    assert (rne (q / ulp q) <= N) as Hr.
    { apply rne_le. apply Qle_shift_div_r; [done|]. lra. }
    apply to_Qle in Hr. unfold b64. nra.
  - destruct (double_small q M e Hq HM He Hg) as (Hf & Hb & Eb).
    rewrite <- Ef in Hf.
    assert (q <= - 2 ^ binade q)%Q as Hneg.
    { destruct (Qlt_le_dec q 0) as [Hl|Hl].
      - rewrite Qabs_neg in Hb by lra. lra.
      - rewrite Qabs_pos in Hb by done. rewrite Qabs_pos in Hf by lra. lra. }
    assert (rne (q / ulp q) <= - 2 ^ 52) as Hr.
    { apply rne_le. apply Qle_shift_div_r; [done|]. rewrite inject_Z_opp. lra. }
    apply to_Qle in Hr. rewrite inject_Z_opp in Hr.
    assert (- 2 ^ binade q < f)%Q as Hfl.
    { destruct (Qlt_le_dec f 0) as [Hl|Hl].
      - rewrite Qabs_neg in Hf by lra. lra.
      - pose proof (pow2_pos (binade q)). lra. }
    unfold b64. nra.
Qed.

Lemma b64_ge q f : double f → (f <= q)%Q → (f <= b64 q)%Q.
Proof.
  intros (M & e & HM & He & Ef) Hqf.
  destruct (Qeq_dec q 0) as [E0|Hq]; [rewrite (b64_zero q E0); lra|].
  pose proof (ulp_pos q) as Hu.
  destruct (Z_le_dec (Z.max (binade q) (-1022) - 52) e) as [Hg|Hg].
  - destruct (double_grid q M e Hg) as [N EN].
    assert (N <= rne (q / ulp q)) as Hr.
    { apply rne_ge. apply Qle_shift_div_l; [done|]. lra. }
    apply to_Qle in Hr. unfold b64. nra.
  - destruct (double_small q M e Hq HM He Hg) as (Hf & Hb & Eb).
    rewrite <- Ef in Hf.
    assert (2 ^ binade q <= q)%Q as Hpos.
    { destruct (Qlt_le_dec q 0) as [Hl|Hl].
      - rewrite Qabs_neg in Hf by lra. rewrite Qabs_neg in Hb by lra. lra.
      - rewrite Qabs_pos in Hb by done. lra. }
    assert (2 ^ 52 <= rne (q / ulp q)) as Hr.
    { apply rne_ge. apply Qle_shift_div_l; [done|]. lra. }
    apply to_Qle in Hr.
    assert (f < 2 ^ binade q)%Q as Hfl.
    { destruct (Qlt_le_dec f 0) as [Hl|Hl].
      - pose proof (pow2_pos (binade q)). lra.
      - rewrite Qabs_pos in Hf by lra. lra. }
    unfold b64. nra.
Qed.

Lemma double_Z n : Z.abs n < 2 ^ 53 → double (inject_Z n).
Proof. intros H. exists n, 0. split_and!; [done | lia |]. simpl. lra. Qed.

Lemma double_half n : Z.abs n < 2 ^ 53 → double (inject_Z n * Qmake 1 2).
Proof. intros H. exists n, (-1). split_and!; [done | lia |]. reflexivity. Qed.

(** The noise is a double in [-6, 6]. *)
Lemma noise_range u : (0 <= u)%Q → (u < 1)%Q → (-6 <= noise_of u)%Q ∧ (noise_of u <= 6)%Q.
Proof.
  intros H0 H1. unfold noise_of.
  assert (- (1 # 2) <= b64 (u - (1 # 2)))%Q as Ha.
  { apply (b64_ge _ (inject_Z (-1) * (1 # 2))); [by apply double_half|].
    change (inject_Z (-1) * (1 # 2))%Q with (- (1 # 2))%Q. lra. }
  assert (b64 (u - (1 # 2)) <= 1 # 2)%Q as Hb.
  { apply (b64_le _ (inject_Z 1 * (1 # 2))); [by apply double_half|].
    change (inject_Z 1 * (1 # 2))%Q with (1 # 2)%Q. lra. }
  split.
  - apply (b64_ge _ (inject_Z (-6))); [by apply double_Z|].
    change (inject_Z (-6)) with (-6)%Q. lra.
  - apply (b64_le _ (inject_Z 6)); [by apply double_Z|].
    change (inject_Z 6) with 6%Q. lra.
Qed.

(** The sum of a byte and a number, rounded to a double, lies between
    the whole numbers around the exact sum. *)
Lemma sum_between (s a b : Z) (n : Q) :
  Z.abs a < 2 ^ 53 → Z.abs b < 2 ^ 53 →
  (inject_Z a <= inject_Z s + n)%Q → (inject_Z s + n <= inject_Z b)%Q →
  (inject_Z a <= b64 (inject_Z s + n))%Q ∧ (b64 (inject_Z s + n) <= inject_Z b)%Q.
Proof.
  intros Ha Hb H1 H2. split.
  - apply b64_ge; [by apply double_Z | done].
  - apply b64_le; [by apply double_Z | done].
Qed.


End DoubleFacts.



(** ** The texturizer loop *)

Section TextureFacts.
Variable random : nat → Q.
Implicit Types (smooth m fd l : list Z) (i j c : Z) (st : list Z * nat).

Lemma elem_of_strides4 len i :
  i ∈ strides4 len ↔ aligned i ∧ i < len.
Proof.
  unfold strides4. rewrite list_elem_of_fmap. split.
  - intros (k & -> & Hk). apply elem_of_seqZ in Hk.
    pose proof (Z_div_mod_eq_full (len + 3) 4). pose proof (Z.mod_pos_bound (len + 3) 4).
    unfold aligned. rewrite Z.mul_comm, Z.mod_mul by lia. lia.
  - intros [Ha Hl]. destruct (aligned_4 i Ha) as (k & Hk & ->). exists k. split; [done|].
    apply elem_of_seqZ.
    assert (k + 1 <= (len + 3) / 4); [|lia]. apply Z.div_le_lower_bound; lia.
Qed.

Lemma NoDup_strides4 len : NoDup (strides4 len).
Proof.
  unfold strides4. apply NoDup_fmap_2; [|apply NoDup_seqZ].
  intros a b. lia.
Qed.

Lemma texture_step_length smooth m st i :
  length (texture_step random smooth m st i).1 = length st.1.
Proof.
  destruct st as [fd k]. unfold texture_step. destruct (below128 m (i + 3)); [|done].
  simpl. by rewrite length_wr, !length_wr_byte.
Qed.

Lemma texture_step_out smooth m st i j :
  ¬ (i <= j <= i + 3) → rd (texture_step random smooth m st i).1 j = rd st.1 j.
Proof.
  intros Hj. destruct st as [fd k]. unfold texture_step.
  destruct (below128 m (i + 3)); [|done]. simpl.
  rewrite rd_wr_ne by lia. by rewrite !rd_wr_byte_ne by lia.
Qed.

Lemma texture_step_hole smooth m st i :
  below128 m (i + 3) = true → 0 <= i → is_Some (rd st.1 (i + 3)) →
  (∀ c, 0 <= c < 3 →
     rd (texture_step random smooth m st i).1 (i + c) =
       Some (textured smooth (i + c) (noise_of (random st.2)))) ∧
  rd (texture_step random smooth m st i).1 (i + 3) = Some 255.
Proof.
  intros Hh Hi Hs. destruct st as [fd k]. unfold texture_step. rewrite Hh. simpl in *.
  apply rd_is_Some in Hs.
  assert (∀ c, 0 <= c <= 3 → is_Some (rd fd (i + c))) as Hin.
  { intros c Hc. apply rd_is_Some. lia. }
  split.
  - intros c Hc. rewrite rd_wr_ne by lia.
    assert (c = 0 ∨ c = 1 ∨ c = 2) as [-> | [-> | ->] ] by lia.
    + rewrite Z.add_0_r. rewrite !rd_wr_byte_ne by lia.
      apply rd_wr_byte_eq. apply rd_is_Some. lia.
    + rewrite rd_wr_byte_ne by lia. apply rd_wr_byte_eq.
      rewrite rd_wr_byte_is_Some. apply Hin. lia.
    + apply rd_wr_byte_eq. rewrite !rd_wr_byte_is_Some. apply Hin. lia.
  - apply rd_wr_eq. rewrite !rd_wr_byte_is_Some. apply Hin. lia.
Qed.

(** The loop over any list of distinct pixel offsets, from any state. *)
Lemma texture_fold smooth m l st :
  NoDup l → Forall aligned l →
  let out := (foldl (texture_step random smooth m) st l).1 in
  length out = length st.1 ∧
  (∀ j, (∀ i, i ∈ l → below128 m (i + 3) = true → ¬ (i <= j <= i + 3)) →
        rd out j = rd st.1 j) ∧
  (∀ i, i ∈ l → below128 m (i + 3) = true → is_Some (rd st.1 (i + 3)) →
        ∃ k, (∀ c, 0 <= c < 3 →
                rd out (i + c) = Some (textured smooth (i + c) (noise_of (random k)))) ∧
             rd out (i + 3) = Some 255).
Proof.
  revert st. induction l as [|a l IH]; intros st Hnd Hal; simpl.
  - split_and!; [done..|]. intros i Hi. by apply elem_of_nil in Hi.
  - apply NoDup_cons in Hnd as [Ha Hnd]. apply Forall_cons in Hal as [Haa Hal].
    destruct (IH (texture_step random smooth m st a) Hnd Hal) as (H1 & H2 & H3).
    split_and!.
    + by rewrite H1, texture_step_length.
    + intros j Hj. rewrite H2 by (intros i Hi; apply Hj; by right).
      destruct (below128 m (a + 3)) eqn:Hh.
      * apply texture_step_out. apply Hj; [by left | done].
      * unfold texture_step. destruct st. by rewrite Hh.
    + intros i Hi Hh Hs. destruct (decide (i ∈ l)) as [Hil|Hil].
      * apply H3; [done..|]. apply rd_is_Some. rewrite texture_step_length.
        by apply rd_is_Some.
      * apply elem_of_cons in Hi as [->|?]; [|done].
        destruct (texture_step_hole smooth m st a Hh) as [G1 G2]; [apply Haa | done |].
        assert (∀ c, 0 <= c <= 3 →
                  ∀ i, i ∈ l → below128 m (i + 3) = true → ¬ (i <= a + c <= i + 3)) as Hd.
        { intros c Hc i Hi _ Hr. assert (i ≠ a) by (intros ->; done).
          rewrite Forall_forall in Hal.
          destruct (aligned_4 i (Hal i Hi)) as (p & ? & ?).
          destruct (aligned_4 a Haa) as (p' & ? & ?). lia. }
        exists st.2. split.
        -- intros c Hc. rewrite H2 by (apply Hd; lia). by apply G1.
        -- rewrite H2 by (apply Hd; lia). done.
Qed.

Lemma texturize_length fd smooth m :
  length (texturize random fd smooth m) = length fd.
Proof.
  unfold texturize.
  destruct (texture_fold smooth m (strides4 (Z.of_nat (length fd))) (fd, 0%nat))
    as (H & _); [apply NoDup_strides4 | | done].
  apply Forall_forall. by intros i [? _]%elem_of_strides4.
Qed.

(** The texturizer leaves every keep pixel alone. *)
Lemma texturize_keep fd smooth m i c :
  aligned i → below128 m (i + 3) = false → 0 <= c <= 3 →
  rd (texturize random fd smooth m) (i + c) = rd fd (i + c).
Proof.
  intros Hi Hk Hc. unfold texturize.
  destruct (texture_fold smooth m (strides4 (Z.of_nat (length fd))) (fd, 0%nat))
    as (_ & H & _); [apply NoDup_strides4 | |].
  { apply Forall_forall. by intros i' [? _]%elem_of_strides4. }
  apply H. intros i' [Hi' _]%elem_of_strides4 Hh Hr.
  destruct (aligned_4 i Hi) as (p & ? & ?). destruct (aligned_4 i' Hi') as (p' & ? & ?).
  assert (i' = i) by lia. congruence.
Qed.

(** A hole pixel takes one noise sample for its three channels. *)
Lemma texturize_hole fd smooth m i :
  aligned i → below128 m (i + 3) = true → is_Some (rd fd (i + 3)) →
  ∃ k, (∀ c, 0 <= c < 3 →
          rd (texturize random fd smooth m) (i + c) =
            Some (textured smooth (i + c) (noise_of (random k)))) ∧
       rd (texturize random fd smooth m) (i + 3) = Some 255.
Proof.
  intros Hi Hh Hs. unfold texturize.
  destruct (texture_fold smooth m (strides4 (Z.of_nat (length fd))) (fd, 0%nat))
    as (_ & _ & H); [apply NoDup_strides4 | |].
  { apply Forall_forall. by intros i' [? _]%elem_of_strides4. }
  apply H; [|done..]. apply elem_of_strides4. split; [done|].
  apply rd_is_Some in Hs. lia.
Qed.

Lemma strides4_split len i :
  aligned i → i < len → ∃ rest, strides4 len = strides4 i ++ i :: rest.
Proof.
  intros Ha Hl. destruct (aligned_4 i Ha) as (p & Hp & ->). unfold strides4.
  assert (p + 1 <= (len + 3) / 4) as Hq by (apply Z.div_le_lower_bound; lia).
  replace ((len + 3) / 4) with (p + ((len + 3) / 4 - p)) by lia.
  rewrite seqZ_app by lia. rewrite (seqZ_cons (0 + p)) by lia.
  rewrite fmap_app, fmap_cons. eexists.
  replace ((4 * p + 3) / 4) with p; [reflexivity|].
  apply Z.div_unique with 3; lia.
Qed.

Lemma strides4_aligned len : Forall aligned (strides4 len).
Proof. apply Forall_forall. intros i [Hi _]%elem_of_strides4. exact Hi. Qed.

Lemma texture_count smooth m l fd (k : nat) :
  (foldl (texture_step random smooth m) (fd, k) l).2 =
    (k + length (filter (hole m) l))%nat.
Proof.
  revert fd k. induction l as [|i l IH]; intros fd k; simpl; [lia|].
  destruct (decide (hole m i)) as [Hh|Hh].
  - rewrite (filter_cons_True _ _ _ Hh). unfold hole in Hh. rewrite Hh, IH. simpl. lia.
  - rewrite (filter_cons_False _ _ _ Hh). unfold hole in Hh.
    destruct (below128 m (i + 3)); [done | apply IH].
Qed.

(** A hole pixel takes the sample whose number is the count of the
    hole pixels before it. *)
Lemma texturize_hole_at fd smooth m i :
  aligned i → hole m i → is_Some (rd fd (i + 3)) →
  (∀ c, 0 <= c < 3 →
     rd (texturize random fd smooth m) (i + c) =
       Some (textured smooth (i + c) (noise_of (random (sample_at m i))))) ∧
  rd (texturize random fd smooth m) (i + 3) = Some 255.
Proof.
  intros Ha Hh Hs.
  assert (i < Z.of_nat (length fd)) as Hl by (apply rd_is_Some in Hs; lia).
  destruct (strides4_split _ _ Ha Hl) as [rest Er].
  pose proof (NoDup_strides4 (Z.of_nat (length fd))) as Hnd.
  pose proof (strides4_aligned (Z.of_nat (length fd))) as Hal.
  rewrite Er in Hnd, Hal.
  apply NoDup_app in Hnd as (Hn1 & Hd & Hn2). apply NoDup_cons in Hn2 as [Hni Hn2].
  apply Forall_app in Hal as [Hal1 Hal2]. apply Forall_cons in Hal2 as [_ Hal2].
  unfold texturize. rewrite Er, foldl_app. simpl foldl.
  set (st1 := foldl (texture_step random smooth m) (fd, 0%nat) (strides4 i)).
  assert (st1.2 = sample_at m i) as Ek.
  { subst st1. unfold sample_at. rewrite texture_count. lia. }
  destruct (texture_fold smooth m (strides4 i) (fd, 0%nat) Hn1 Hal1)
    as (Hlen1 & _ & _). fold st1 in Hlen1. simpl in Hlen1.
  assert (is_Some (rd st1.1 (i + 3))) as Hs1.
  { apply rd_is_Some. rewrite Hlen1. by apply rd_is_Some. }
  destruct (texture_step_hole smooth m st1 i Hh ltac:(destruct Ha; lia) Hs1)
    as [Hc Hal3].
  destruct (texture_fold smooth m rest (texture_step random smooth m st1 i) Hn2 Hal2)
    as (_ & Hfr & _).
  assert (∀ c, 0 <= c <= 3 →
            ∀ i', i' ∈ rest → below128 m (i' + 3) = true → ¬ (i' <= i + c <= i' + 3)) as Hd'.
  { intros c Hc3 i' Hi' _ Hr. assert (i' ≠ i) by (intros ->; done).
    rewrite Forall_forall in Hal2.
    destruct (aligned_4 i' (Hal2 i' Hi')) as (p & ? & ?).
    destruct (aligned_4 i Ha) as (p' & ? & ?). lia. }
  split.
  - intros c Hc3. rewrite Hfr by (apply Hd'; lia). rewrite Hc by done. by rewrite Ek.
  - rewrite Hfr by (apply Hd'; lia). done.
Qed.

(** The noise bound on one stored channel. *)
Lemma textured_bound smooth i s u :
  Forall is_byte smooth → rd smooth i = Some s → (0 <= u)%Q → (u < 1)%Q →
  Z.abs (textured smooth i (noise_of u) - s) <= 6 ∧
  is_byte (textured smooth i (noise_of u)).
Proof.
  intros Hb Hs Hu0 Hu1. unfold textured. rewrite Hs.
  pose proof (rd_byte _ _ _ Hb Hs) as Hr. unfold is_byte in *.
  destruct (noise_range u Hu0 Hu1) as [Hn1 Hn2].
  destruct (sum_between s (s - 6) (s + 6) (noise_of u)) as [Hx1 Hx2]; [lia | lia | | |].
  { unfold Z.sub. rewrite inject_Z_plus. change (inject_Z (- (6))) with (-6)%Q. lra. }
  { rewrite inject_Z_plus. change (inject_Z 6) with 6%Q. lra. }
  unfold Z.sub in Hx1. rewrite inject_Z_plus in Hx1, Hx2.
  change (inject_Z (- (6))) with (-6)%Q in Hx1. change (inject_Z 6) with 6%Q in Hx2.
  destruct (qclamp_bounds s (b64 (inject_Z s + noise_of u)) Hr) as [Hq1 Hq2]; [lra..|].
  pose proof (to_uint8_clamp_bounds _ (Z.max 0 (s - 6)) (Z.min 255 (s + 6))
                ltac:(lia) ltac:(lia) Hq1 Hq2).
  lia.
Qed.

End TextureFacts.

(** ** The SpaceFill invariant *)

Section FillFacts.
Implicit Types (d m t : list Z) (w h idx j k : Z) (st : state).

Lemma live_id t : Forall aligned t → live t = t.
Proof.
  intros Ht. unfold live. induction Ht as [|a t [Ha _] _ IH]; [done|].
  rewrite filter_cons_True by lia. by rewrite IH.
Qed.

Lemma holes_all_aligned m w h : Forall aligned (holes m w h).
Proof. apply Forall_forall. intros idx Hi. by apply holes_aligned in Hi. Qed.

(** Two aligned offsets share no slot unless they are equal. *)
Lemma aligned_disjoint idx k c :
  aligned idx → aligned k → idx ≠ k → 0 <= c <= 3 → ¬ (k <= idx + c <= k + 3).
Proof.
  intros Hi Hk Hne Hc Hr.
  destruct (aligned_4 idx Hi) as (p & ? & ?). destruct (aligned_4 k Hk) as (p' & ? & ?).
  lia.
Qed.

Lemma fill_inv_start d m w h : fill_inv d m w h (start d m w h false).
Proof.
  rewrite start_eq. pose proof (holes_all_aligned m w h) as Hal.
  constructor; simpl.
  - apply length_cleared.
  - intros i Hi. by right.
  - rewrite live_id by done. apply NoDup_holes.
  - by rewrite live_id.
  - intros idx Hi _. split.
    + destruct (rd d (idx + 3)) as [a|] eqn:E; simpl.
      * apply rd_cleared; [done | by rewrite E].
      * apply rd_None. rewrite length_cleared. by apply rd_None.
    + intros k Hk. apply rd_cleared_other. intros idx' Hi' E.
      rewrite Forall_forall in Hal.
      destruct (aligned_4 idx (Hal _ Hi)) as (p & ? & ?).
      destruct (aligned_4 idx' (Hal _ Hi')) as (p' & ? & ?). lia.
  - intros idx Hi Hn. done.
  - intros j Hj. apply rd_cleared_other. intros idx Hi ->.
    apply Hj, hole_slot_iff. exists idx. split; [done | lia].
Qed.

(** What a SpaceFill turn records, under the invariant. *)
Lemma scan_keys d0 m w h st :
  fill_inv d0 m w h st →
  ∀ k, k ∈ (scan (data st) w h (todoPixels st)).*1 →
       k ∈ live (todoPixels st) ∧ k ∈ holes m w h ∧ aligned k.
Proof.
  intros Hinv k Hk. apply list_elem_of_fmap in Hk as ([k' c] & -> & He). simpl.
  apply elem_of_scan in He as (Hin & Hne & _).
  destruct (inv_todo _ _ _ _ _ Hinv _ Hin) as [?|Hh]; [done|].
  split_and!; [by apply elem_of_live | done | by apply holes_aligned in Hh].
Qed.

Lemma body_fill_inv d0 m w h st :
  fill_inv d0 m w h st → fill_inv d0 m w h (body w h false st).1.
Proof.
  intros Hinv. pose proof (scan_keys d0 m w h st Hinv) as Hkeys.
  pose proof (scan_NoDup (data st) w h (todoPixels st)) as Hnd.
  set (nf := scan (data st) w h (todoPixels st)) in *.
  destruct (live_kills (todoPixels st) nf.*1 (inv_nodup _ _ _ _ _ Hinv) Hnd)
    as (L1 & L2 & L3); [intros k Hk; by apply Hkeys|].
  assert (data (body w h false st).1 = fills (data st) nf ∧
          todoPixels (body w h false st).1 = foldl kill (todoPixels st) nf.*1 ∧
          remaining (body w h false st).1 = remaining st - Z.of_nat (length nf))
    as (Ed & Et & Er).
  { rewrite body_eq. fold nf. simpl. by destruct (_ =? 0). }
  assert (∀ idx c, idx ∈ holes m w h → idx ∉ nf.*1 → 0 <= c <= 3 →
            rd (fills (data st) nf) (idx + c) = rd (data st) (idx + c)) as Hout.
  { intros idx c Hi Hn Hc. apply rd_fills_out. intros k Hk.
    apply aligned_disjoint; [by apply holes_aligned in Hi | by apply Hkeys | | done].
    intros ->. done. }
  constructor.
  - rewrite Ed, length_fills. apply Hinv.
  - intros i Hi. rewrite Et in Hi. apply elem_of_kills in Hi as [?|Hi]; [by left|].
    by apply (inv_todo _ _ _ _ _ Hinv).
  - by rewrite Et.
  - rewrite Er, Et, (inv_remaining _ _ _ _ _ Hinv).
    rewrite length_fmap in L3. lia.
  - intros idx Hi Hin. rewrite Et in Hin.
    assert (idx ∈ live (foldl kill (todoPixels st) nf.*1)) as Hl.
    { apply elem_of_live. split; [done|]. apply holes_aligned in Hi. lia. }
    apply L2 in Hl as [Hl Hn]. apply elem_of_live in Hl as [Hl _].
    destruct (inv_open _ _ _ _ _ Hinv idx Hi Hl) as [Ha Hc]. rewrite Ed. split.
    + by rewrite Hout by (done || lia).
    + intros k Hk. rewrite Hout by (done || lia). by apply Hc.
  - intros idx Hi Hn. rewrite Et in Hn. rewrite Ed.
    destruct (decide (idx ∈ nf.*1)) as [Hf|Hf].
    + destruct (rd d0 (idx + 3)) as [a|] eqn:E; simpl.
      * apply rd_fills_alpha; [|done|].
        -- intros [k c] He. split; [apply Hkeys, list_elem_of_fmap; by exists (k, c)|].
           apply elem_of_scan in He as (_ & _ & Hp). by apply probe_opaque in Hp.
        -- apply rd_is_Some. rewrite (inv_length _ _ _ _ _ Hinv).
           apply rd_is_Some. by rewrite E.
      * apply rd_None. rewrite length_fills, (inv_length _ _ _ _ _ Hinv).
        by apply rd_None.
    + rewrite Hout by (done || lia).
      apply (inv_done _ _ _ _ _ Hinv); [done|]. intros Hin. apply Hn.
      assert (idx ∈ live (foldl kill (todoPixels st) nf.*1)) as Hl; [|by apply elem_of_live in Hl as [? _]].
      apply L2. split; [|done]. apply elem_of_live. split; [done|].
      apply holes_aligned in Hi. lia.
  - intros j Hj. rewrite Ed, rd_fills_out; [by apply (inv_keep _ _ _ _ _ Hinv)|].
    intros k Hk Hr. apply Hj, hole_slot_iff. exists k. split; [by apply Hkeys | done].
Qed.

Lemma after_fill_inv turns d m w h : fill_inv d m w h (after turns d m w h false).
Proof.
  unfold after. apply (loop_ind (fill_inv d m w h) w h false).
  - apply body_fill_inv.
  - apply fill_inv_start.
Qed.

(** A turn that records nothing changes nothing. *)
Lemma body_idle w h st :
  scan (data st) w h (todoPixels st) = [] →
  body w h false st = (State (data st) (todoPixels st) (remaining st) (pass st), false).
Proof.
  intros Hs. rewrite body_eq, Hs. simpl. by rewrite Z.sub_0_r.
Qed.

Lemma body_go w h st :
  (body w h false st).2 = false ↔ scan (data st) w h (todoPixels st) = [].
Proof.
  rewrite body_eq. simpl.
  destruct (scan (data st) w h (todoPixels st)) as [|e l]; simpl; [done|].
  split; [|done]. destruct (Z.eqb_spec (Z.of_nat (S (length l))) 0); [lia | done].
Qed.

Lemma body_go_heal w h st : (body w h true st).2 = true.
Proof. by rewrite body_eq. Qed.

(** Running [a + b] passes is running [a] and then [b] more. *)
Lemma loop_add a b w h pc st :
  (loop (a + b) w h pc st).1 = (loop b w h pc (loop a w h pc st).1).1.
Proof.
  revert st. induction a as [|a IH]; intros st; [done|].
  change (S a + b)%nat with (S (a + b)). rewrite !loop_S.
  destruct (Z.ltb_spec 0 (remaining st)) as [Hr|Hr].
  - destruct ((body w h pc st).2) eqn:Hgo; [apply IH|].
    destruct pc; [by rewrite body_go_heal in Hgo|].
    apply body_go in Hgo. rewrite body_idle by done. simpl.
    destruct b as [|b]; [done|]. rewrite loop_S. simpl.
    destruct (Z.ltb_spec 0 (remaining st)); [|lia].
    rewrite body_idle by done. done.
  - destruct b as [|b]; [done|]. rewrite loop_S.
    destruct (Z.ltb_spec 0 (remaining st)); [lia | done].
Qed.

End FillFacts.

(** ** The loop under SeamHeal *)

Section HealFacts.
Implicit Types (w h : Z) (st : state).

Lemma loop_stop turns w h pc st :
  remaining st <= 0 → loop turns w h pc st = (st, []).
Proof.
  intros Hr. destruct turns as [|turns]; [done|]. simpl.
  destruct (Z.ltb_spec 0 (remaining st)); [lia | done].
Qed.

(** With work to do, SeamHeal runs every turn of its budget over the
    same worklist. *)
Lemma loop_heal turns w h st :
  0 < remaining st →
  todoPixels (loop turns w h true st).1 = todoPixels st ∧
  remaining (loop turns w h true st).1 = remaining st ∧
  pass (loop turns w h true st).1 = pass st + Z.of_nat turns ∧
  (loop turns w h true st).2 = replicate turns (todoPixels st).
Proof.
  revert st. induction turns as [|turns IH]; intros st Hr.
  - simpl. split_and!; [done..|lia|done].
  - simpl loop. destruct (Z.ltb_spec 0 (remaining st)); [|lia].
    rewrite body_eq. simpl.
    set (st' := State _ _ _ _).
    destruct (IH st' Hr) as (H1 & H2 & H3 & H4).
    destruct (loop turns w h true st') as [fin tr]. simpl in *.
    split_and!; [done..| lia | by rewrite H4].
Qed.

End HealFacts.

(** ** How the fill spreads *)

Section SpreadFacts.
Implicit Types (d m : list Z) (w h x y kx ky : Z) (st : state).

Ltac in_list :=
  repeat first [apply list_elem_of_here | apply list_elem_of_further].

(** A pixel other than [(kx, ky)] has a neighbour in the grid that is
    one step nearer to it in the Chebyshev distance. *)
Lemma step_towards w h x y kx ky :
  in_grid w h x y → in_grid w h kx ky → (x, y) ≠ (kx, ky) →
  ∃ n, n ∈ neighbors x y ∧ in_grid w h n.1 n.2 ∧
       Z.max (Z.abs (n.1 - kx)) (Z.abs (n.2 - ky)) =
         Z.max (Z.abs (x - kx)) (Z.abs (y - ky)) - 1.
Proof.
  unfold in_grid, neighbors. intros [Hx Hy] [Hkx Hky] Hne.
  destruct (Z.lt_trichotomy x kx) as [?|[?|?]];
    destruct (Z.lt_trichotomy y ky) as [?|[?|?]].
  - exists (x + 1, y + 1). simpl. split; [in_list | lia].
  - exists (x + 1, y). simpl. split; [in_list | lia].
  - exists (x + 1, y - 1). simpl. split; [in_list | lia].
  - exists (x, y + 1). simpl. split; [in_list | lia].
  - subst. done.
  - exists (x, y - 1). simpl. split; [in_list | lia].
  - exists (x - 1, y + 1). simpl. split; [in_list | lia].
  - exists (x - 1, y). simpl. split; [in_list | lia].
  - exists (x - 1, y - 1). simpl. split; [in_list | lia].
Qed.

Lemma in_bounds_grid w h x y : in_bounds w h x y = true ↔ in_grid w h x y.
Proof.
  unfold in_bounds, in_grid. rewrite !andb_true_iff.
  rewrite !Z.leb_le, !Z.ltb_lt. tauto.
Qed.

Lemma valid_nb_iff d w h n :
  valid_nb d w h n = true ↔
  in_grid w h n.1 n.2 ∧ positive_at d (offset w n.1 n.2 + 3) = true.
Proof. unfold valid_nb. by rewrite andb_true_iff, in_bounds_grid. Qed.

Lemma positive_at_rd d1 d2 j :
  rd d1 j = rd d2 j → positive_at d1 j = positive_at d2 j.
Proof. unfold positive_at. by intros ->. Qed.

(** Under the invariant, a pixel with alpha above 0 keeps its alpha. *)
Lemma body_valid_mono d0 m w h st x y :
  fill_inv d0 m w h st → in_grid w h x y →
  positive_at (data st) (offset w x y + 3) = true →
  rd (data (body w h false st).1) (offset w x y + 3) = rd (data st) (offset w x y + 3).
Proof.
  intros Hinv Hg Hv. pose proof (body_fill_inv _ _ _ _ _ Hinv) as Hinv'.
  destruct (decide (hole m (offset w x y))) as [Hh|Hh].
  - assert (offset w x y ∈ holes m w h) as Hin by (apply elem_of_holes; eauto).
    destruct (decide (offset w x y ∈ todoPixels st)) as [Ht|Ht].
    + destruct (inv_open _ _ _ _ _ Hinv _ Hin Ht) as [Ha _].
      unfold positive_at in Hv. rewrite Ha in Hv.
      by destruct (rd d0 (offset w x y + 3)).
    + apply body_frame. intros k Hk Hne.
      destruct (inv_todo _ _ _ _ _ Hinv _ Hk) as [?|Hkh]; [done|].
      apply aligned_disjoint; [by apply holes_aligned in Hin | by apply holes_aligned in Hkh | | lia].
      intros E. by rewrite E in Ht.
  - rewrite (inv_keep _ _ _ _ _ Hinv'), (inv_keep _ _ _ _ _ Hinv); [done|..];
      by apply keep_not_hole_slot.
Qed.

(** A pixel next to a pixel with alpha above 0 has alpha above 0 after
    the turn, be it a keep pixel that counts or a hole. *)
Lemma body_spread d0 m w h st x y n :
  fill_inv d0 m w h st → in_grid w h x y →
  (¬ hole m (offset w x y) → positive_at (data st) (offset w x y + 3) = true) →
  is_Some (rd d0 (offset w x y + 3)) →
  n ∈ neighbors x y → valid_nb (data st) w h n = true →
  positive_at (data (body w h false st).1) (offset w x y + 3) = true.
Proof.
  intros Hinv Hg Hkeep Hs Hn Hv. pose proof (body_fill_inv _ _ _ _ _ Hinv) as Hinv'.
  destruct (positive_at (data st) (offset w x y + 3)) eqn:Hp.
  { rewrite <- Hp. apply positive_at_rd. by eapply body_valid_mono. }
  destruct (decide (hole m (offset w x y))) as [Hh|Hh];
    [|specialize (Hkeep Hh); congruence].
  assert (offset w x y ∈ holes m w h) as Hin by (apply elem_of_holes; eauto).
  destruct Hs as [a Ha].
  assert (rd (data (body w h false st).1) (offset w x y + 3) = Some 255) as E;
    [|unfold positive_at; by rewrite E].
  destruct (decide (offset w x y ∈ todoPixels (body w h false st).1)) as [Ht|Ht];
    [|by rewrite (inv_done _ _ _ _ _ Hinv' _ Hin Ht), Ha].
  exfalso.
  assert (is_Some (probe (data st) w h (offset w x y))) as [c Hc].
  { apply probe_is_Some; [done|]. by exists n. }
  assert (offset w x y ∈ todoPixels st) as Hts.
  { destruct (body_todo _ _ _ _ _ Ht) as [E|?]; [|done].
    apply holes_aligned in Hin. lia. }
  assert ((offset w x y, c) ∈ scan (data st) w h (todoPixels st)) as He.
  { apply elem_of_scan. split_and!; [done| |done]. apply holes_aligned in Hin. lia. }
  pose proof (scan_keys _ _ _ _ _ Hinv) as Hkeys.
  pose proof (scan_NoDup (data st) w h (todoPixels st)) as Hnd.
  destruct (live_kills (todoPixels st) _ (inv_nodup _ _ _ _ _ Hinv) Hnd)
    as (_ & L2 & _); [intros k Hk; by apply Hkeys|].
  assert (todoPixels (body w h false st).1 =
          foldl kill (todoPixels st) (scan (data st) w h (todoPixels st)).*1) as Et.
  { rewrite body_eq. simpl. by destruct (_ =? 0). }
  rewrite Et in Ht.
  assert (offset w x y ∈ live (foldl kill (todoPixels st)
             (scan (data st) w h (todoPixels st)).*1)) as Hl.
  { apply elem_of_live. split; [done|]. apply holes_aligned in Hin. lia. }
  apply L2 in Hl as [_ Hnot]. apply Hnot.
  apply list_elem_of_fmap. by exists (offset w x y, c).
Qed.

End SpreadFacts.

Section ReachFacts.
Variables (d0 m : list Z) (w h kx ky : Z).
Hypothesis Hsized : sized w h d0.
Hypothesis Hkeeps : keeps_count d0 m w h.
Hypothesis HK : in_grid w h kx ky.
Hypothesis HKkeep : ¬ hole m (offset w kx ky).

Implicit Types (st : state) (x y r : Z).

Lemma sized_alpha x y : in_grid w h x y → is_Some (rd d0 (offset w x y + 3)).
Proof.
  intros Hg. apply rd_is_Some. unfold sized in Hsized. rewrite Hsized.
  apply (offset_split w h x y 3 Hg). lia.
Qed.

Lemma keep_valid st x y :
  fill_inv d0 m w h st → in_grid w h x y → ¬ hole m (offset w x y) →
  positive_at (data st) (offset w x y + 3) = true.
Proof.
  intros Hinv Hg Hh. rewrite <- (Hkeeps x y Hg Hh). apply positive_at_rd.
  apply (inv_keep _ _ _ _ _ Hinv). apply keep_not_hole_slot; [done..|lia].
Qed.

(** One turn carries the fill one step further from the keep pixel. *)
Lemma reach_step st r :
  fill_inv d0 m w h st →
  (∀ x y, in_grid w h x y → cheb x y kx ky <= r →
          positive_at (data st) (offset w x y + 3) = true) →
  ∀ x y, in_grid w h x y → cheb x y kx ky <= r + 1 →
         positive_at (data (body w h false st).1) (offset w x y + 3) = true.
Proof.
  intros Hinv Hr x y Hg Hc.
  destruct (decide ((x, y) = (kx, ky))) as [[= -> ->]|Hne].
  - rewrite <- (keep_valid st kx ky Hinv HK HKkeep). apply positive_at_rd.
    eapply body_valid_mono; [done..|]. by apply keep_valid.
  - destruct (step_towards w h x y kx ky Hg HK Hne) as ([nx ny] & Hn & Hgn & Hd).
    simpl in *. eapply body_spread; [done..| |by apply sized_alpha|done|].
    + intros Hh. by apply keep_valid.
    + apply valid_nb_iff. simpl. split; [done|]. apply Hr; [done|].
      unfold cheb in *. lia.
Qed.

Lemma cheb_nonneg x y : 0 <= cheb x y kx ky.
Proof. unfold cheb. lia. Qed.

(** When a turn records nothing, every pixel already has alpha above 0. *)
Lemma idle_all_valid st :
  fill_inv d0 m w h st → scan (data st) w h (todoPixels st) = [] →
  ∀ x y, in_grid w h x y → positive_at (data st) (offset w x y + 3) = true.
Proof.
  intros Hinv Hs.
  assert (∀ n : nat, ∀ x y, in_grid w h x y → cheb x y kx ky <= Z.of_nat n →
            positive_at (data st) (offset w x y + 3) = true) as H.
  { induction n as [|n IH]; intros x y Hg Hc.
    - pose proof (cheb_nonneg x y). unfold cheb in *.
      assert (x = kx ∧ y = ky) as [-> ->] by lia. by apply keep_valid.
    - pose proof (reach_step st (Z.of_nat n) Hinv IH x y Hg) as Hr.
      rewrite body_idle in Hr by done. apply Hr. lia. }
  intros x y Hg. apply (H (Z.to_nat (cheb x y kx ky))); [done|].
  pose proof (cheb_nonneg x y). lia.
Qed.

(** With an empty worklist every pixel has alpha above 0. *)
Lemma done_all_valid st :
  fill_inv d0 m w h st → remaining st <= 0 →
  ∀ x y, in_grid w h x y → positive_at (data st) (offset w x y + 3) = true.
Proof.
  intros Hinv Hr x y Hg.
  destruct (decide (hole m (offset w x y))) as [Hh|Hh]; [|by apply keep_valid].
  assert (offset w x y ∈ holes m w h) as Hin by (apply elem_of_holes; eauto).
  assert (offset w x y ∉ todoPixels st) as Hn.
  { intros Ht. assert (offset w x y ∈ live (todoPixels st)) as Hl.
    { apply elem_of_live. split; [done|]. apply holes_aligned in Hin. lia. }
    rewrite (inv_remaining _ _ _ _ _ Hinv) in Hr.
    destruct (live (todoPixels st)); [by apply elem_of_nil in Hl | simpl in Hr; lia]. }
  unfold positive_at. rewrite (inv_done _ _ _ _ _ Hinv _ Hin Hn).
  by destruct (sized_alpha x y Hg) as [a ->].
Qed.

(** After [turns] turns every pixel within [turns] steps of the keep
    pixel has alpha above 0. *)
Lemma loop_reach turns st r :
  0 <= r → fill_inv d0 m w h st →
  (∀ x y, in_grid w h x y → cheb x y kx ky <= r →
          positive_at (data st) (offset w x y + 3) = true) →
  ∀ x y, in_grid w h x y → cheb x y kx ky <= r + Z.of_nat turns →
         positive_at (data (loop turns w h false st).1) (offset w x y + 3) = true.
Proof.
  revert st r. induction turns as [|turns IH]; intros st r Hr0 Hinv Hr x y Hg Hc.
  - apply Hr; [done | lia].
  - rewrite loop_S. destruct (Z.ltb_spec 0 (remaining st)) as [Hrem|Hrem];
      [|by apply done_all_valid].
    destruct ((body w h false st).2) eqn:Hgo.
    + apply (IH _ (r + 1)); [lia | by apply body_fill_inv | by apply reach_step | done | lia].
    + apply body_go in Hgo. rewrite body_idle by done. simpl.
      by apply idle_all_valid.
Qed.

End ReachFacts.

(** ** Two runs on images that differ inside the hole *)

Section MaskedFacts.
Implicit Types (d m : list Z) (w h idx j k p : Z) (st : state).

Lemma masked_alpha d1 d2 p :
  masked_eq d1 d2 → 0 <= p → rd d1 (4 * p + 3) = rd d2 (4 * p + 3).
Proof.
  intros [_ H] Hp. destruct (H (4 * p + 3)) as [?|(p' & c & ? & ? & ? & _)]; [done | lia].
Qed.

Lemma masked_rgb d1 d2 p c :
  masked_eq d1 d2 → 0 <= p → positive_at d1 (4 * p + 3) = true → 0 <= c < 3 →
  rd d1 (4 * p + c) = rd d2 (4 * p + c).
Proof.
  intros [_ H] Hp Hv Hc.
  destruct (H (4 * p + c)) as [?|(p' & c' & ? & ? & ? & Hn & _)]; [done|].
  assert (p' = p) as -> by lia. congruence.
Qed.

Lemma masked_neighbor_step d1 d2 w h s n :
  masked_eq d1 d2 → neighbor_step d1 w h s n = neighbor_step d2 w h s n.
Proof.
  intros Hm. unfold neighbor_step. destruct n as [nx ny].
  destruct (in_bounds w h nx ny) eqn:Hb; [|done].
  apply in_bounds_grid in Hb. destruct Hb as [Hx Hy].
  assert (0 <= ny * w + nx) as Hp by nia.
  replace ((ny * w + nx) * 4) with (4 * (ny * w + nx)) by lia.
  unfold positive_at at 1 2. rewrite (masked_alpha d1 d2 _ Hm Hp).
  destruct (rd d2 (4 * (ny * w + nx) + 3)) as [a|] eqn:Ea; [|done].
  destruct (Z.ltb_spec 0 a) as [Ha|Ha]; [|done].
  assert (positive_at d1 (4 * (ny * w + nx) + 3) = true) as Hv.
  { unfold positive_at. rewrite (masked_alpha d1 d2 _ Hm Hp), Ea. by apply Z.ltb_lt. }
  unfold rd0.
  pose proof (masked_rgb d1 d2 _ 0 Hm Hp Hv ltac:(lia)) as E0.
  pose proof (masked_rgb d1 d2 _ 1 Hm Hp Hv ltac:(lia)) as E1.
  pose proof (masked_rgb d1 d2 _ 2 Hm Hp Hv ltac:(lia)) as E2.
  rewrite Z.add_0_r in E0. by rewrite E0, E1, E2.
Qed.

Lemma masked_probe d1 d2 w h idx :
  masked_eq d1 d2 → probe d1 w h idx = probe d2 w h idx.
Proof.
  intros Hm. unfold probe.
  generalize (neighbors (Z.rem (idx / 4) w) (idx / 4 / w)). intros l.
  assert (∀ s, foldl (neighbor_step d1 w h) s l = foldl (neighbor_step d2 w h) s l) as ->;
    [|done].
  induction l as [|n l IH]; intros s; simpl; [done|].
  by rewrite IH, (masked_neighbor_step d1 d2).
Qed.

Lemma masked_scan d1 d2 w h t :
  masked_eq d1 d2 → scan d1 w h t = scan d2 w h t.
Proof.
  intros Hm. unfold scan. generalize (@nil (Z * color)).
  induction t as [|a t IH]; intros nf; simpl; [done|].
  rewrite IH. unfold scan_step. by rewrite (masked_probe d1 d2).
Qed.

(** Buffers of one length are defined at the same slots. *)
Lemma same_range d1 d2 j (v : Z) :
  length d1 = length d2 → (const v <$> rd d1 j) = (const v <$> rd d2 j).
Proof.
  intros Hl. destruct (rd d1 j) as [a|] eqn:E1, (rd d2 j) as [b|] eqn:E2; simpl; try done.
  - apply rd_None in E2. assert (is_Some (rd d1 j)) as Hs by by rewrite E1.
    apply rd_is_Some in Hs. lia.
  - apply rd_None in E1. assert (is_Some (rd d2 j)) as Hs by by rewrite E2.
    apply rd_is_Some in Hs. lia.
Qed.

Lemma rd_wr_same d i v : rd (wr d i v) i = (const (clamp8 v) <$> rd d i).
Proof.
  destruct (rd d i) as [a|] eqn:E; simpl.
  - apply rd_wr_eq. by rewrite E.
  - apply rd_None. rewrite length_wr. by apply rd_None.
Qed.

(** The byte a pixel store leaves at each slot of the pixel. *)
Lemma rd_write_px_in d k c o :
  0 <= o <= 3 →
  rd (write_px d k c) (k + o) = (const (clamp8 (chan c o)) <$> rd d (k + o)).
Proof.
  intros Ho. destruct c as [[[c0 c1] c2] c3]. unfold write_px, chan.
  assert (o = 0 ∨ o = 1 ∨ o = 2 ∨ o = 3) as [-> | [-> | [-> | ->] ] ] by lia; simpl.
  - rewrite Z.add_0_r. rewrite 3!rd_wr_ne by lia. apply rd_wr_same.
  - rewrite 2!rd_wr_ne by lia. rewrite rd_wr_same. by rewrite rd_wr_ne by lia.
  - rewrite rd_wr_ne by lia. rewrite rd_wr_same. by rewrite 2!rd_wr_ne by lia.
  - rewrite rd_wr_same. by rewrite 3!rd_wr_ne by lia.
Qed.

Lemma masked_write_px d1 d2 k c :
  masked_eq d1 d2 → aligned k → masked_eq (write_px d1 k c) (write_px d2 k c).
Proof.
  intros [Hl H] Hk. split; [by rewrite !length_write_px|].
  intros j. destruct (aligned_4 k Hk) as (q & Hq & ->).
  destruct (decide (4 * q <= j <= 4 * q + 3)) as [Hin|Hout].
  - left. replace j with (4 * q + (j - 4 * q)) by lia.
    rewrite !rd_write_px_in by lia. by apply same_range.
  - rewrite !rd_write_px_out by done.
    destruct (H j) as [?|(p & c' & Hp & Hc' & -> & Hn1 & Hn2)]; [by left|].
    right. exists p, c'.
    assert (∀ d, positive_at (write_px d (4 * q) c) (4 * p + 3) = positive_at d (4 * p + 3))
      as Hw by (intros d; apply positive_at_rd, rd_write_px_out; lia).
    rewrite !Hw. split_and!; (done || lia).
Qed.

Lemma masked_fills d1 d2 nf :
  masked_eq d1 d2 → (∀ k, k ∈ nf.*1 → aligned k) →
  masked_eq (fills d1 nf) (fills d2 nf).
Proof.
  unfold fills. revert d1 d2. induction nf as [|[k c] nf IH]; intros d1 d2 Hm Hk; simpl; [done|].
  apply IH.
  - apply masked_write_px; [done|]. apply Hk. simpl. by left.
  - intros k' Hk'. apply Hk. simpl. by right.
Qed.

Lemma body_in_step d0 m w h s1 s2 :
  fill_inv d0 m w h s1 → in_step s1 s2 →
  in_step (body w h false s1).1 (body w h false s2).1 ∧
  (body w h false s1).2 = (body w h false s2).2.
Proof.
  intros Hinv (Hm & Ht & Hr & Hp). rewrite !body_eq. simpl.
  rewrite <- Ht, <- Hr, <- Hp, <- (masked_scan _ _ w h _ Hm).
  assert (masked_eq (fills (data s1) (scan (data s1) w h (todoPixels s1)))
                    (fills (data s2) (scan (data s1) w h (todoPixels s1)))) as Hf.
  { apply masked_fills; [done|]. intros k Hk. by apply (scan_keys _ _ _ _ _ Hinv). }
  destruct (_ =? 0); simpl; done.
Qed.

Lemma loop_in_step turns d0 m w h s1 s2 :
  fill_inv d0 m w h s1 → in_step s1 s2 →
  in_step (loop turns w h false s1).1 (loop turns w h false s2).1.
Proof.
  revert s1 s2. induction turns as [|turns IH]; intros s1 s2 Hinv Hs; [done|].
  rewrite !loop_S. destruct Hs as (Hm & Ht & Hr & Hp). rewrite <- Hr.
  destruct (0 <? remaining s1); [|done].
  destruct (body_in_step d0 m w h s1 s2 Hinv) as [Hb Hgo]; [done|].
  rewrite <- Hgo. destruct ((body w h false s1).2); [|done].
  apply (IH _ _ (body_fill_inv _ _ _ _ _ Hinv) Hb).
Qed.

Lemma start_in_step d1 d2 m w h :
  length d1 = length d2 →
  (∀ j, ¬ hole_slot m w h j → rd d1 j = rd d2 j) →
  in_step (start d1 m w h false) (start d2 m w h false).
Proof.
  intros Hl Hd. rewrite !start_eq. split_and!; [|done..]. simpl.
  split; [by rewrite !length_cleared|]. intros j.
  assert (hole_slot m w h j ∨ ¬ hole_slot m w h j) as [Hh|Hh].
  { rewrite hole_slot_iff.
    destruct (decide (Exists (λ idx, idx <= j <= idx + 3) (holes m w h))) as [He|He];
      rewrite Exists_exists in He; [by left | by right]. }
  - apply hole_slot_iff in Hh as (idx & Hin & Hr).
    destruct (aligned_4 idx (holes_aligned _ _ _ _ Hin)) as (p & Hp & ->).
    assert (∀ d, rd (foldl clear d (holes m w h)) (4 * p + 3) =
                 (const 0 <$> rd d (4 * p + 3))) as Hc.
    { intros d. destruct (rd d (4 * p + 3)) as [a|] eqn:E; simpl.
      - apply rd_cleared; [done | by rewrite E].
      - apply rd_None. rewrite length_cleared. by apply rd_None. }
    assert (∀ d, positive_at (foldl clear d (holes m w h)) (4 * p + 3) = false) as Hn.
    { intros d. unfold positive_at. rewrite Hc. by destruct (rd d (4 * p + 3)). }
    destruct (decide (j = 4 * p + 3)) as [->|Hj].
    + left. rewrite !Hc.
      by apply same_range.
    + right. exists p, (j - 4 * p). rewrite !Hn. split_and!; (done || lia).
  - left. rewrite !rd_cleared_other; [by apply Hd | |];
      intros idx Hin ->; apply Hh, hole_slot_iff; exists idx; (split; [done | lia]).
Qed.

End MaskedFacts.

(** ** The pyramid and the service *)

Section EngineFacts.
Variable blend : Z → Z → Z.
Variable drawScaled : bool → Canvas → Z → Z → list Z.
Variable context_ok : canvas_id → Z → Z → bool.
Variable random : nat → Q.

Implicit Types (ctx maskCtx img mask out last : Canvas) (w h x y k : Z).

Lemma inject_guess_bytes g cur m :
  Forall is_byte cur → Forall is_byte (inject_guess g cur m).
Proof.
  unfold inject_guess. generalize (strides4 (Z.of_nat (length g))). intros l.
  revert cur. induction l as [|i l IH]; intros cur Hc; simpl; [done|].
  apply IH. unfold inject_step. destruct (below128 m (i + 3)); [|done].
  by repeat apply wr_bytes.
Qed.

(** A level leaves [lastCanvas] as it is, or throws, or puts the
    diffused buffer of some canvas of the level's size. *)
Lemma level_inr ctx maskCtx w h lastCanvas index scale r :
  level blend drawScaled context_ok ctx maskCtx w h lastCanvas index scale = inr r →
  let sw := Qceiling (inject_Z w * scale) in
  let sh := Qceiling (inject_Z h * scale) in
  r = lastCanvas ∨
  (empty_raster (cw ctx) (ch ctx) = false ∧
   context_ok (LevelCanvas index) sw sh = true ∧
   context_ok (LevelMask index) sw sh = true ∧
   ∃ sData passes pc,
     (sData = drawScaled false ctx sw sh ∨
      ∃ g cur m, sData = through blend (inject_guess g cur m) ∧
                 cur = getImageData (MkCanvas sw sh (drawScaled false ctx sw sh)) sw sh) ∧
     r = Some (putData blend sw sh
                 (sharpDiffusion (getImageData (MkCanvas sw sh sData) sw sh)
                    (getImageData (MkCanvas sw sh (drawScaled false maskCtx sw sh)) sw sh)
                    sw sh passes pc))).
Proof.
  unfold level. cbv zeta.
  destruct (context_ok (LevelCanvas index) _ _) eqn:H1; simpl; [|intros [= <-]; by left].
  destruct (empty_raster _ _) eqn:He; [done|].
  destruct (context_ok (LevelMask index) _ _) eqn:H2; simpl; [|intros [= <-]; by left].
  destruct lastCanvas as [lc|].
  - destruct (context_ok (GuessCanvas index) _ _); simpl; [|intros [= <-]; by left].
    intros [= <-]. right. split_and!; [done..|].
    eexists _, _, _. split; [|reflexivity]. right. eexists _, _, _. split; reflexivity.
  - intros [= <-]. right. split_and!; [done..|].
    eexists _, _, _. split; [|reflexivity]. by left.
Qed.

Section Bytes.
Hypothesis draw_bytes : ∀ q c sw sh, Forall is_byte (drawScaled q c sw sh).

Lemma level_bytes ctx maskCtx w h lastCanvas index scale r :
  (∀ lc, lastCanvas = Some lc → Forall is_byte (cdata lc)) →
  level blend drawScaled context_ok ctx maskCtx w h lastCanvas index scale = inr (Some r) →
  Forall is_byte (cdata r).
Proof.
  intros Hl Hr. apply level_inr in Hr as [E|(_ & _ & _ & sData & passes & pc & Hs & E)].
  - by apply Hl.
  - injection E as ->. simpl.
    apply through_bytes, sharpDiffusion_bytes, getImageData_bytes. simpl.
    destruct Hs as [->|(g & cur & m & -> & ->)]; [apply draw_bytes|].
    apply through_bytes, inject_guess_bytes, getImageData_bytes. simpl. apply draw_bytes.
Qed.

Lemma levels_bytes ctx maskCtx w h ss lastCanvas index r :
  (∀ lc, lastCanvas = Some lc → Forall is_byte (cdata lc)) →
  levels blend drawScaled context_ok ctx maskCtx w h lastCanvas index ss = inr (Some r) →
  Forall is_byte (cdata r).
Proof.
  revert lastCanvas index. induction ss as [|scale ss IH]; intros lastCanvas index Hl; simpl.
  - intros [= ->]. by apply Hl.
  - destruct (level _ _ _ _ _ _ _ _ _ _) as [e|lc'] eqn:El; [done|].
    apply IH. intros lc ->. by eapply level_bytes.
Qed.

(** The pre-texture raster is a raster of bytes. *)
Lemma pyramid_bytes ctx maskCtx w h r :
  pyramid blend drawScaled context_ok ctx maskCtx w h = inr (Some r) →
  Forall is_byte (cdata r).
Proof. unfold pyramid. apply levels_bytes. intros lc. done. Qed.

End Bytes.

Lemma Qceiling_unit w : Qceiling (inject_Z w * Qmake 1 1) = w.
Proof. rewrite Qmult_1_r. apply Qceiling_Z. Qed.

(** Once a level has left a canvas, the pyramid ends with a canvas. *)
Lemma levels_some ctx maskCtx w h ss lc index r :
  levels blend drawScaled context_ok ctx maskCtx w h (Some lc) index ss = inr r → is_Some r.
Proof.
  revert lc index. induction ss as [|scale ss IH]; intros lc index; simpl.
  - intros [= <-]. by eexists.
  - destruct (level _ _ _ _ _ _ _ _ _ _) as [e|lc'] eqn:El; [done|].
    apply level_inr in El as [->|(_ & _ & _ & sData & passes & pc & _ & ->)]; apply IH.
Qed.

(** The two ways [hierarchicalInpaint] returns a canvas. *)
Lemma hierarchicalInpaint_inr ctx maskCtx w h out :
  hierarchicalInpaint blend drawScaled context_ok random ctx maskCtx w h = inr out →
  (pyramid blend drawScaled context_ok ctx maskCtx w h = inr None ∧ out = ctx) ∨
  (∃ last, pyramid blend drawScaled context_ok ctx maskCtx w h = inr (Some last) ∧
           0 < w ∧ 0 < h ∧
           out = putData blend w h
                   (texturize random (getImageData ctx w h) (getImageData last w h)
                              (getImageData maskCtx w h))).
Proof.
  unfold hierarchicalInpaint.
  destruct (pyramid _ _ _ _ _ _ _) as [e|[last|]]; [done| |intros [= <-]; by left].
  unfold empty_raster.
  destruct (Z.leb_spec w 0); [done|]. destruct (Z.leb_spec h 0); [done|]. simpl.
  intros [= <-]. right. by exists last.
Qed.

Lemma crop_wf c : wf_raster c → crop c (cw c) (ch c) = c.
Proof.
  intros (Hw & Hh & Hs). destruct c as [w h d]. simpl in *. by apply crop_id.
Qed.

Lemma getImageData_wf c : wf_raster c → getImageData c (cw c) (ch c) = cdata c.
Proof.
  intros (Hw & Hh & Hs). destruct c as [w h d]. simpl in *. by apply getImageData_id.
Qed.

Lemma crop_is_wf c w h : 0 <= w → 0 <= h → wf_raster (crop c w h).
Proof.
  intros Hw Hh. unfold wf_raster, crop. simpl.
  split_and!; [done..|]. by apply getImageData_sized.
Qed.

Lemma drawImage00_is_wf c w h : 0 <= w → 0 <= h → wf_raster (drawImage00 blend c w h).
Proof.
  intros Hw Hh. unfold wf_raster, drawImage00. simpl.
  split_and!; [done..|]. by apply sized_through, getImageData_sized.
Qed.

(** Drawing a raster and drawing the raster fitted to the canvas leave
    the same canvas. *)
Lemma drawImage00_crop c w h :
  0 <= w → 0 <= h → drawImage00 blend (crop c w h) w h = drawImage00 blend c w h.
Proof.
  intros Hw Hh. unfold drawImage00. f_equal. f_equal.
  apply (getImageData_wf (crop c w h)). by apply crop_is_wf.
Qed.

(** The canvas [performInpainting] returns, by mode. *)
Lemma performInpainting_inr img mask mode out :
  0 <= cw img → 0 <= ch img →
  performInpainting blend drawScaled context_ok random (Some img) (Some mask) mode = inr out →
  let w := cw img in
  let h := ch img in
  let ctx := drawImage00 blend img w h in
  let maskCtx := drawImage00 blend mask w h in
  context_ok ImageCanvas w h = true ∧ context_ok MaskCanvas w h = true ∧
  match mode with
  | Chart =>
      0 < w ∧ 0 < h ∧
      out = putData blend w h
              (sharpDiffusion (cdata ctx) (cdata maskCtx) w h (Z.max w h) false)
  | Photo =>
      hierarchicalInpaint blend drawScaled context_ok random ctx maskCtx w h = inr out
  end.
Proof.
  intros Hw Hh. unfold performInpainting.
  destruct (context_ok ImageCanvas _ _); [|done].
  destruct (context_ok MaskCanvas _ _); [|done]. simpl. intros Hp.
  split_and!; [done..|]. revert Hp. destruct mode; [|done].
  unfold empty_raster.
  destruct (Z.leb_spec (cw img) 0); [done|]. destruct (Z.leb_spec (ch img) 0); [done|].
  simpl. rewrite !getImageData_drawImage00 by done. intros [= <-]. done.
Qed.

End EngineFacts.

(** ** The fill as a whole *)

Section ChartFacts.
Implicit Types (d m : list Z) (w h x y idx : Z) (st : state).

Lemma keep_not_hole m idx : keep m idx → ¬ hole m idx.
Proof.
  intros (a & Ha & Hge). unfold hole, below128. rewrite Ha.
  intros H%Z.ltb_lt. lia.
Qed.


Lemma sized_slot w h d x y k :
  sized w h d → in_grid w h x y → 0 <= k <= 3 → is_Some (rd d (offset w x y + k)).
Proof.
  intros Hs Hg Hk. apply rd_is_Some. unfold sized in Hs. rewrite Hs.
  by apply (offset_split w h x y k Hg).
Qed.

(** With a keep pixel in the grid and every keep pixel counting, a
    budget of [max w h - 1] passes or more fills every hole pixel. *)
Lemma spacefill_complete d m w h kx ky turns x y :
  sized w h d → keeps_count d m w h →
  in_grid w h kx ky → ¬ hole m (offset w kx ky) →
  Z.max w h <= Z.of_nat turns + 1 →
  in_grid w h x y → hole m (offset w x y) →
  rd (data (after turns d m w h false)) (offset w x y + 3) = Some 255.
Proof.
  intros Hs Hkeeps HK HKk Ht Hg Hh.
  pose proof (after_fill_inv turns d m w h) as Hinv.
  assert (positive_at (data (after turns d m w h false)) (offset w x y + 3) = true) as Hv.
  { unfold after.
    apply (loop_reach d m w h kx ky Hs Hkeeps HK HKk turns _ 0);
      [lia | apply fill_inv_start | | done |].
    - intros x' y' Hg' Hc. unfold cheb in Hc.
      assert (x' = kx ∧ y' = ky) as [-> ->] by lia.
      apply (keep_valid d m w h Hkeeps); [apply fill_inv_start | done..].
    - unfold cheb, in_grid in *. lia. }
  assert (offset w x y ∈ holes m w h) as Hin by (apply elem_of_holes; eauto).
  destruct (sized_slot w h d x y 3 Hs Hg ltac:(lia)) as [a Ha].
  destruct (decide (offset w x y ∈ todoPixels (after turns d m w h false))) as [Hto|Hto].
  - destruct (inv_open _ _ _ _ _ Hinv _ Hin Hto) as [E _].
    unfold positive_at in Hv. rewrite E, Ha in Hv. done.
  - by rewrite (inv_done _ _ _ _ _ Hinv _ Hin Hto), Ha.
Qed.

(** No pixel is filled when no pixel of the grid has alpha above 0. *)
Lemma probe_None d w h idx :
  (∀ x y, in_grid w h x y → positive_at d (offset w x y + 3) = false) →
  probe d w h idx = None.
Proof.
  intros Hn. unfold probe.
  destruct (neighbor_fold_count d w h (Sums 0 0 0 0)
              (neighbors (Z.rem (idx / 4) w) (idx / 4 / w))) as [_ H].
  change (scount (Sums 0 0 0 0)) with 0 in H.
  set (s := foldl _ _ _) in *. destruct (Z.ltb_spec 0 (scount s)) as [Hl|Hl]; [|done].
  apply H in Hl as (n & _ & Hv). apply valid_nb_iff in Hv as [Hg Hp].
  by rewrite (Hn _ _ Hg) in Hp.
Qed.

Lemma loop_idle turns w h st :
  scan (data st) w h (todoPixels st) = [] →
  data (loop turns w h false st).1 = data st ∧
  (length (loop turns w h false st).2 <= 1)%nat.
Proof.
  intros Hs. destruct turns as [|turns]; simpl; [split; [done | lia]|].
  destruct (0 <? remaining st); [|split; [done | simpl; lia]].
  rewrite body_idle by done. split; [done | simpl; lia].
Qed.

(** When the whole grid is a hole, Init clears it and the first turn
    finds nothing to fill. *)
Lemma all_hole_start d m w h :
  sized w h d → (∀ x y, in_grid w h x y → hole m (offset w x y)) →
  scan (data (start d m w h false)) w h (todoPixels (start d m w h false)) = [] ∧
  ∀ x y, in_grid w h x y →
         rd (data (start d m w h false)) (offset w x y + 3) = Some 0.
Proof.
  intros Hs Hall. pose proof (fill_inv_start d m w h) as Hinv.
  assert (∀ x y, in_grid w h x y →
            rd (data (start d m w h false)) (offset w x y + 3) = Some 0) as H0.
  { intros x y Hg.
    assert (offset w x y ∈ holes m w h) as Hin
      by (apply elem_of_holes; split; [by apply Hall | eauto]).
    destruct (inv_open _ _ _ _ _ Hinv _ Hin) as [E _].
    - rewrite start_eq. done.
    - rewrite E. by destruct (sized_slot w h d x y 3 Hs Hg ltac:(lia)) as [a ->]. }
  split; [|done]. apply scan_nil. intros k _ _. apply probe_None.
  intros x y Hg. unfold positive_at. by rewrite (H0 x y Hg).
Qed.

End ChartFacts.

(** * The filler *)

Section FillerFacts.
Implicit Types (d m : list Z) (w h x y idx : Z) (st : state).

Lemma run_eq d m w h n pc :
  run d m w h n pc = loop (Z.to_nat n) w h pc (start d m w h pc).
Proof. unfold run, start. by destruct (init d m w h pc). Qed.

Lemma loop_todo turns w h pc st i :
  i ∈ todoPixels (loop turns w h pc st).1 → i = -1 ∨ i ∈ todoPixels st.
Proof.
  revert i.
  apply (loop_ind (λ s, ∀ i, i ∈ todoPixels s → i = -1 ∨ i ∈ todoPixels st) w h pc);
    [|by right].
  intros s Hs i Hi. destruct (body_todo _ _ _ _ _ Hi) as [?|?]; [by left | by apply Hs].
Qed.

Lemma masked_after d1 d2 m w h turns :
  length d1 = length d2 →
  (∀ j, ¬ hole_slot m w h j → rd d1 j = rd d2 j) →
  masked_eq (data (after turns d1 m w h false)) (data (after turns d2 m w h false)).
Proof.
  intros Hl Hd. unfold after.
  by destruct (loop_in_step turns d1 m w h _ _ (fill_inv_start d1 m w h)
                 (start_in_step d1 d2 m w h Hl Hd)) as [? _].
Qed.

End FillerFacts.

(** ** One pass, pixel by pixel *)

Section PixelFacts.
Implicit Types (d m : list Z) (w h o : Z) (st : state) (nf : list (Z * color)).

Lemma rd_fills_in d nf k c o :
  NoDup nf.*1 → (∀ k', k' ∈ nf.*1 → aligned k') → (k, c) ∈ nf → 0 <= o <= 3 →
  rd (fills d nf) (k + o) = (const (clamp8 (chan c o)) <$> rd d (k + o)).
Proof.
  intros Hnd Hal Hin Ho. revert d Hnd Hal Hin.
  induction nf as [|[k' c'] nf IH]; intros d Hnd Hal Hin; [by apply elem_of_nil in Hin|].
  rewrite fmap_cons in Hnd. apply NoDup_cons in Hnd as [Hk' Hnd].
  assert (aligned k') as Ak' by (apply Hal; rewrite fmap_cons; left).
  assert (∀ k0, k0 ∈ nf.*1 → aligned k0) as Hal'
    by (intros k0 H0; apply Hal; rewrite fmap_cons; by right).
  unfold fills. simpl. fold (fills (write_px d k' c') nf).
  apply elem_of_cons in Hin as [E|Hin].
  - injection E as -> ->. rewrite rd_fills_out.
    + apply rd_write_px_in, Ho.
    + intros k0 H0. apply aligned_disjoint; [exact Ak' | by apply Hal' | | exact Ho].
      intros ->. done.
  - assert (k ∈ nf.*1) as Hk by (apply list_elem_of_fmap; by exists (k, c)).
    rewrite (IH _ Hnd Hal' Hin). f_equal. apply rd_write_px_out.
    apply aligned_disjoint; [by apply Hal' | exact Ak' | | exact Ho].
    intros ->. done.
Qed.

Lemma probe_chan d w h idx c o : probe d w h idx = Some c → is_byte (chan c o).
Proof.
  unfold probe. cbv zeta.
  generalize (foldl (neighbor_step d w h) (Sums 0 0 0 0)
                    (neighbors (Z.rem (idx / 4) w) (idx / 4 / w))).
  intros s. destruct (0 <? scount s); [|discriminate].
  intros [= <-]. unfold mk_color, chan.
  repeat case_match; apply clamp8_byte.
Qed.

Lemma scan_aligned d w h t :
  todo_ok t → ∀ k, k ∈ (scan d w h t).*1 → aligned k.
Proof.
  intros Ht k ([k' c] & -> & Hin)%list_elem_of_fmap.
  apply elem_of_scan in Hin as (Hin & Hne & _). simpl.
  destruct (Ht _ Hin); done.
Qed.

(** What one pass stores: a worklist pixel whose neighbours count
    receives the colour computed from the buffer as it was when the
    pass began; every other byte stays. *)
Lemma body_pixel w h pc st k o :
  todo_ok (todoPixels st) → k ∈ todoPixels st → k ≠ -1 → 0 <= o <= 3 →
  rd (data (body w h pc st).1) (k + o) =
    match probe (data st) w h k with
    | Some c => const (chan c o) <$> rd (data st) (k + o)
    | None => rd (data st) (k + o)
    end.
Proof.
  intros Ht Hin Hne Ho.
  assert (data (body w h pc st).1 = fills (data st) (scan (data st) w h (todoPixels st))) as ->.
  { rewrite body_eq. cbv zeta. destruct pc; [done|]. by destruct (_ =? 0). }
  destruct (probe (data st) w h k) as [c|] eqn:Hp.
  - rewrite (rd_fills_in _ _ k c); [| apply scan_NoDup | by apply scan_aligned
                                    | by apply elem_of_scan | exact Ho].
    rewrite (clamp8_id (chan c o)); [done|]. eapply probe_chan, Hp.
  - apply rd_fills_out. intros k' Hk'.
    pose proof (scan_aligned _ _ _ _ Ht _ Hk') as Ak'.
    apply list_elem_of_fmap in Hk' as ([k0 c0] & -> & Hk'). simpl in *.
    apply elem_of_scan in Hk' as (_ & _ & Hp').
    apply aligned_disjoint; [| exact Ak' | | exact Ho].
    + destruct (Ht _ Hin); done.
    + intros ->. congruence.
Qed.

End PixelFacts.




(** C6.  If the whole grid is a hole, the SpaceFill fill stops after at
    most one turn of its loop, whatever the pass budget, and every pixel
    is left with alpha 0. *)
Theorem C6_all_hole_terminates (data mData : list Z) (w h maxPasses : Z) :
  sized w h data →
  (∀ x y, in_grid w h x y → hole mData (offset w x y)) →
  (length (run data mData w h maxPasses false).2 <= 1)%nat ∧
  ∀ x y, in_grid w h x y →
    rd (sharpDiffusion data mData w h maxPasses false) (offset w x y + 3) = Some 0.
Proof.
  intros Hs Hall. destruct (all_hole_start data mData w h Hs Hall) as [Hscan H0].
  destruct (loop_idle (Z.to_nat maxPasses) w h _ Hscan) as [Hd Hl].
  split.
  - by rewrite run_eq.
  - intros x y Hg. rewrite sharpDiffusion_eq. unfold after. rewrite Hd. by apply H0.
Qed.

Lemma C6_witness :
  (length (run (cdata Sample.one_px) (cdata Sample.hole_px) 1 1 50 false).2 <= 1)%nat ∧
  rd (sharpDiffusion (cdata Sample.one_px) (cdata Sample.hole_px) 1 1 50 false)
     (offset 1 0 0 + 3) = Some 0.
Proof.
  destruct (C6_all_hole_terminates (cdata Sample.one_px) (cdata Sample.hole_px) 1 1 50)
    as [H1 H2].
  - reflexivity.
  - intros x y [Hx Hy]. assert (x = 0) as -> by lia. assert (y = 0) as -> by lia.
    reflexivity.
  - split; [exact H1|]. apply H2. unfold in_grid; lia.
Defined.

(** C7, as amended.  Under SeamHeal no entry of the worklist is ever
    removed or marked, and every pass reprocesses every hole pixel: the
    pass that follows [t] passes stores, at each hole pixel that has a
    neighbour with alpha above 0, the mean of those neighbours in the
    buffer as [t] passes left it (and leaves the other hole pixels as
    they are).  The loop runs exactly [maxPasses] turns when the mask
    has a hole pixel; with no hole pixel it runs no turn at all (the
    guard [remaining > 0] fails at once). *)
Theorem C7_seamheal_budget (data mData : list Z) (w h maxPasses : Z) :
  let r := run data mData w h maxPasses true in
  let turns := if decide (holes mData w h = []) then 0%nat else Z.to_nat maxPasses in
  todoPixels r.1 = holes mData w h ∧
  ((-1) ∉ holes mData w h) ∧
  r.2 = replicate turns (holes mData w h) ∧
  pass r.1 = Z.of_nat (length r.2) ∧
  r.1 = after turns data mData w h true ∧
  ∀ t, (t < turns)%nat →
    ∀ x y o, in_grid w h x y → hole mData (offset w x y) → 0 <= o <= 3 →
      let before := Diffusion.data (after t data mData w h true) in
      rd (Diffusion.data (after (S t) data mData w h true)) (offset w x y + o) =
        match probe before w h (offset w x y) with
        | Some c => const (chan c o) <$> rd before (offset w x y + o)
        | None => rd before (offset w x y + o)
        end.
Proof.
  cbv zeta. rewrite run_eq.
  assert ((-1) ∉ holes mData w h) as Hm.
  { intros Hin. apply holes_aligned in Hin. lia. }
  set (st0 := start data mData w h true).
  assert (todoPixels st0 = holes mData w h ∧
          remaining st0 = Z.of_nat (length (holes mData w h)) ∧ pass st0 = 0)
    as (E1 & E2 & E3) by (unfold st0; by rewrite start_eq).
  destruct (decide (holes mData w h = [])) as [E|E].
  - rewrite loop_stop by (rewrite E2, E; simpl; lia).
    simpl. split_and!; [done..|by rewrite E3| |intros t Ht; lia].
    unfold after. done.
  - assert (0 < remaining st0) as Hr.
    { rewrite E2. destruct (holes mData w h); [done | simpl; lia]. }
    destruct (loop_heal (Z.to_nat maxPasses) w h _ Hr) as (H1 & _ & H3 & H4).
    rewrite H4, length_replicate, H1, H3, E1, E3. split_and!; [done..|].
    intros t Ht x y o Hg Hh Ho.
    destruct (loop_heal t w h _ Hr) as (T1 & T2 & _).
    assert (after t data mData w h true = (loop t w h true st0).1) as Ea by reflexivity.
    rewrite <- Ea, E1 in T1. rewrite <- Ea in T2.
    assert (after (S t) data mData w h true =
            (body w h true (after t data mData w h true)).1) as ->.
    { rewrite Ea. unfold after. fold st0. replace (S t) with (t + 1)%nat by lia.
      rewrite loop_add, loop_S. rewrite <- Ea, T2.
      destruct (Z.ltb_spec 0 (remaining st0)) as [_|Hn]; [|lia].
      by rewrite body_go_heal. }
    assert (offset w x y ∈ holes mData w h) as Hin by (apply elem_of_holes; eauto).
    apply body_pixel; [| by rewrite T1 | intros Em; rewrite Em in Hin; done | done].
    rewrite T1. intros k Hk. right. by apply holes_aligned in Hk.
Qed.

(** C7, as it is written, fails on a mask without a hole pixel: the loop
    runs no turn, not [maxPasses]. *)
Lemma C7_counterexample : ¬ Stated.heal_runs_all_passes.
Proof.
  intros H.
  destruct (H (cdata Sample.one_px) (cdata Sample.keep_px) 1 1 15 eq_refl eq_refl ltac:(lia))
    as [_ E].
  vm_compute in E. discriminate.
Qed.

(** On a 2 x 1 image whose right pixel is erased, two passes of
    SeamHeal run, and each stores the colour of the left pixel in the
    right one. *)
Lemma C7_witness :
  (run Sample.two_px Sample.erase_right 2 1 2 true).2 = [[4]; [4]] ∧
  rd (Diffusion.data (after 2 Sample.two_px Sample.erase_right 2 1 true)) (offset 2 1 0 + 1)
    = Some 60.
Proof.
  destruct (C7_seamheal_budget Sample.two_px Sample.erase_right 2 1 2)
    as (_ & _ & H3 & _ & _ & H6).
  split; [exact H3|].
  rewrite (H6 1%nat ltac:(simpl; lia) 1 0 1 ltac:(unfold in_grid; lia) eq_refl ltac:(lia)).
  reflexivity.
Defined.

(** C5, as amended.  Under SpaceFill, for two images of one length that
    agree outside the hole pixels, the two outputs have the same alpha at
    every pixel and the same colour at every pixel whose output alpha is
    above 0; they agree on every slot outside the hole, and they are
    identical when every hole pixel gets filled.  (The colour bytes of a
    hole pixel that is never filled stay as they were in each image,
    under alpha 0.) *)
Theorem C5_spacefill_ignores_hole_content (d1 d2 m : list Z) (w h maxPasses : Z) :
  length d1 = length d2 →
  (∀ j, ¬ hole_slot m w h j → rd d1 j = rd d2 j) →
  let o1 := sharpDiffusion d1 m w h maxPasses false in
  let o2 := sharpDiffusion d2 m w h maxPasses false in
  (∀ x y, in_grid w h x y →
     rd o1 (offset w x y + 3) = rd o2 (offset w x y + 3) ∧
     (positive_at o1 (offset w x y + 3) = true →
      ∀ k, 0 <= k <= 3 → rd o1 (offset w x y + k) = rd o2 (offset w x y + k))) ∧
  (∀ j, ¬ hole_slot m w h j → rd o1 j = rd o2 j) ∧
  ((∀ x y, in_grid w h x y → hole m (offset w x y) →
           positive_at o1 (offset w x y + 3) = true) →
   o1 = o2).
Proof.
  intros Hl Hd o1 o2. subst o1 o2. rewrite !sharpDiffusion_eq.
  pose proof (masked_after d1 d2 m w h (Z.to_nat maxPasses) Hl Hd) as Hm.
  set (o1 := data (after (Z.to_nat maxPasses) d1 m w h false)) in *.
  set (o2 := data (after (Z.to_nat maxPasses) d2 m w h false)) in *.
  assert (∀ j, ¬ hole_slot m w h j → rd o1 j = rd o2 j) as Hout.
  { intros j Hj. subst o1 o2. rewrite !after_frame by done. by apply Hd. }
  assert (∀ x y, in_grid w h x y →
     rd o1 (offset w x y + 3) = rd o2 (offset w x y + 3) ∧
     (positive_at o1 (offset w x y + 3) = true →
      ∀ k, 0 <= k <= 3 → rd o1 (offset w x y + k) = rd o2 (offset w x y + k))) as Hpx.
  { intros x y Hg.
    destruct (aligned_4 _ (offset_aligned w h x y Hg)) as (p & Hp & ->).
    pose proof (masked_alpha o1 o2 p Hm Hp) as Ha. split; [done|].
    intros Hv k Hk. destruct (decide (k = 3)) as [->|Hk3]; [done|].
    apply masked_rgb; [done..|lia]. }
  split_and!; [done..|].
  intros Hfull. apply list_eq. intros i. rewrite <- !rd_of_nat.
  destruct Hm as [_ Hm]. destruct (Hm (Z.of_nat i)) as [?|(p & c & Hp & Hc & Hi & Hn & _)]; [done|].
  assert (hole_slot m w h (Z.of_nat i) ∨ ¬ hole_slot m w h (Z.of_nat i)) as [Hh|Hh].
  { rewrite hole_slot_iff.
    destruct (decide (Exists (λ idx, idx <= Z.of_nat i <= idx + 3) (holes m w h))) as [He|He];
      rewrite Exists_exists in He; [by left | by right]. }
  - destruct Hh as (x & y & Hg & Hh & Hr).
    destruct (aligned_4 _ (offset_aligned w h x y Hg)) as (p' & Hp' & E).
    pose proof (Hfull x y Hg Hh) as Hv. rewrite E in Hv, Hr.
    assert (p' = p) as -> by lia. congruence.
  - by apply Hout.
Qed.

(** C5, as it is written, fails when a hole pixel is never filled: on a
    1 x 1 image that is all hole the colour bytes of each image survive. *)
Lemma C5_counterexample : ¬ Stated.hole_content_ignored.
Proof.
  intros H.
  specialize (H (cdata Sample.one_px) (cdata Sample.other_px) (cdata Sample.hole_px)
                1 1 1 eq_refl eq_refl eq_refl).
  assert (sharpDiffusion (cdata Sample.one_px) (cdata Sample.hole_px) 1 1 1 false =
          sharpDiffusion (cdata Sample.other_px) (cdata Sample.hole_px) 1 1 1 false) as E;
    [|vm_compute in E; discriminate].
  apply H. intros j Hj. destruct (decide (0 <= j <= 3)) as [Hr|Hr].
  - exfalso. apply Hj. exists 0, 0. unfold in_grid, offset. split_and!; try lia.
    reflexivity.
  - unfold rd. destruct (Z.ltb_spec j 0); [done|].
    rewrite !lookup_ge_None_2; [done | simpl; lia..].
Qed.

Lemma C5_witness :
  sharpDiffusion Sample.two_px Sample.erase_right 2 1 2 false =
  sharpDiffusion Sample.two_px_alt Sample.erase_right 2 1 2 false.
Proof.
  destruct (C5_spacefill_ignores_hole_content
              Sample.two_px Sample.two_px_alt Sample.erase_right 2 1 2) as (_ & _ & H).
  - reflexivity.
  - intros j Hj. destruct (decide (4 <= j <= 7)) as [Hr|Hr].
    + exfalso. apply Hj. exists 1, 0. unfold in_grid, offset. split_and!; try lia.
      reflexivity.
    + destruct (decide (0 <= j <= 3)) as [Hr'|Hr'].
      * assert (j = 0 ∨ j = 1 ∨ j = 2 ∨ j = 3) as [-> | [-> | [-> | ->] ] ] by lia;
          reflexivity.
      * unfold rd. destruct (Z.ltb_spec j 0); [done|].
        rewrite !lookup_ge_None_2; [done | simpl; lia..].
  - apply H. intros x y [Hx Hy] _. assert (y = 0) as -> by lia.
    assert (x = 0 ∨ x = 1) as [->| ->] by lia; reflexivity.
Defined.

(** C9.  Under SpaceFill a hole pixel is written at most once.  With a
    budget of [a] passes a hole pixel is in one of two conditions: still
    on the worklist, with alpha 0 and the colour bytes of the input; or
    off the worklist with alpha 255, and then the [b] further passes that
    a larger budget adds leave its four bytes as they are and never put
    it back on the worklist.  (The run with budget [a + b] is the run
    with budget [a] followed by [b] more turns of the same loop.) *)
Theorem C9_spacefill_fills_once (data mData : list Z) (w h : Z) (a b : nat) (x y : Z) :
  sized w h data → in_grid w h x y → hole mData (offset w x y) →
  let idx := offset w x y in
  let s := after a data mData w h false in
  let s' := after (a + b) data mData w h false in
  s' = (loop b w h false s).1 ∧
  ((idx ∈ todoPixels s ∧ rd (Diffusion.data s) (idx + 3) = Some 0 ∧
    ∀ k, 0 <= k < 3 → rd (Diffusion.data s) (idx + k) = rd data (idx + k)) ∨
   ((idx ∉ todoPixels s) ∧ rd (Diffusion.data s) (idx + 3) = Some 255 ∧
    (idx ∉ todoPixels s') ∧
    ∀ k, 0 <= k <= 3 → rd (Diffusion.data s') (idx + k) = rd (Diffusion.data s) (idx + k))).
Proof.
  intros Hs Hg Hh idx s s'.
  assert (s' = (loop b w h false s).1) as Es by apply loop_add.
  split; [done|].
  pose proof (after_fill_inv a data mData w h) as Hinv. fold s in Hinv.
  assert (idx ∈ holes mData w h) as Hin by (apply elem_of_holes; eauto).
  pose proof (holes_aligned _ _ _ _ Hin) as Hal.
  destruct (sized_slot w h data x y 3 Hs Hg ltac:(lia)) as [v Hv]. fold idx in Hv.
  destruct (decide (idx ∈ todoPixels s)) as [Ht|Ht].
  - left. destruct (inv_open _ _ _ _ _ Hinv _ Hin Ht) as [E1 E2].
    rewrite Hv in E1. done.
  - right. pose proof (inv_done _ _ _ _ _ Hinv _ Hin Ht) as E. rewrite Hv in E.
    split_and!; [done..| |].
    + rewrite Es. intros Hin'. apply loop_todo in Hin' as [?|?]; [lia | done].
    + intros k Hk. rewrite Es. apply loop_frame. intros i Hi Hne.
      destruct (inv_todo _ _ _ _ _ Hinv _ Hi) as [?|Hih]; [done|].
      apply aligned_disjoint; [done | by apply holes_aligned in Hih | | done].
      intros ->. done.
Qed.

Lemma C9_witness :
  let s := after 1 Sample.two_px Sample.erase_right 2 1 false in
  let s' := after (1 + 3) Sample.two_px Sample.erase_right 2 1 false in
  rd (Diffusion.data s) (offset 2 1 0 + 3) = Some 255 ∧
  rd (Diffusion.data s') (offset 2 1 0) = rd (Diffusion.data s) (offset 2 1 0).
Proof.
  destruct (C9_spacefill_fills_once Sample.two_px Sample.erase_right 2 1 1 3 1 0)
    as [_ [(_ & E & _)|(_ & E & _ & H)] ].
  - reflexivity.
  - unfold in_grid; lia.
  - reflexivity.
  - vm_compute in E. discriminate.
  - split; [exact E|]. apply (H 0). lia.
Defined.

(** * The service *)

Section ServiceFacts.
Variable blend : Z → Z → Z.
Variable drawScaled : bool → Canvas → Z → Z → list Z.
Variable context_ok : canvas_id → Z → Z → bool.
Variable random : nat → Q.

Implicit Types (img mask out last : Canvas) (w h x y k : Z) (d : list Z).

Local Abbreviation perform := (performInpainting blend drawScaled context_ok random).
Local Abbreviation hier := (hierarchicalInpaint blend drawScaled context_ok random).
Local Abbreviation pyramid := (pyramid blend drawScaled context_ok).
Local Abbreviation stored := (stored blend).
Local Abbreviation through := (through blend).


Lemma rd_pixel d idx k :
  aligned idx → is_Some (rd d (idx + 3)) → 0 <= k <= 3 →
  rd d (idx + k) = Some (chan (pixel d (idx / 4)) k).
Proof.
  intros Ha Hs Hk. rewrite pixel_at by done.
  destruct (rd_before d (idx + k) (idx + 3)) as [v Hv]; [destruct Ha; lia | done |].
  rewrite Hv. f_equal. symmetry.
  assert (k = 0 ∨ k = 1 ∨ k = 2 ∨ k = 3) as [-> | [-> | [-> | ->] ] ] by lia; simpl.
  - rewrite Z.add_0_r in Hv. by apply rd0_of.
  - by apply rd0_of.
  - by apply rd0_of.
  - by apply rd0_of.
Qed.

Lemma stored_opaque_px (c : color) : chan c 3 = 255 → stored c = c.
Proof. destruct c as [ [ [r g] b] a]. simpl. by intros ->. Qed.

Lemma stored_clear_px (c : color) : chan c 3 = 0 → stored c = (0, 0, 0, 0).
Proof. destruct c as [ [ [r g] b] a]. simpl. by intros ->. Qed.

(** The buffer behind the canvas that [performInpainting] returns:
    the canvas as drawn, when no level of the pyramid ran; otherwise a
    buffer [d] that was put on the canvas, and that agrees with the
    canvas as drawn at every pixel the mask keeps. *)
Lemma perform_shape img mask mode out :
  wf_raster img → perform (Some img) (Some mask) mode = inr out →
  let w := cw img in
  let h := ch img in
  let ctx := drawImage00 blend img w h in
  let maskCtx := drawImage00 blend mask w h in
  cdata ctx = through (cdata img) ∧
  ((mode = Photo ∧ pyramid ctx maskCtx w h = inr None ∧ out = ctx) ∨
   (0 < w ∧ 0 < h ∧
    ∃ d, out = putData blend w h d ∧ length d = length (cdata img) ∧
      (∀ x y k, in_grid w h x y → ¬ hole (cdata maskCtx) (offset w x y) → 0 <= k <= 3 →
         rd d (offset w x y + k) = rd (cdata ctx) (offset w x y + k)) ∧
      match mode with
      | Chart => d = sharpDiffusion (cdata ctx) (cdata maskCtx) w h (Z.max w h) false
      | Photo => ∃ last, pyramid ctx maskCtx w h = inr (Some last) ∧
                         d = texturize random (cdata ctx) (getImageData last w h)
                                       (cdata maskCtx)
      end)).
Proof.
  intros Hwf Hp w h ctx maskCtx. pose proof Hwf as (Hw & Hh & Hs).
  assert (cdata ctx = through (cdata img)) as Ec.
  { unfold ctx, drawImage00, w, h. simpl. by rewrite (getImageData_wf img Hwf). }
  split; [done|].
  apply performInpainting_inr in Hp as (_ & _ & Hp); [|done..].
  fold w h ctx maskCtx in Hp. destruct mode.
  - destruct Hp as (Hw0 & Hh0 & ->). right. split_and!; [done..|].
    eexists. split_and!; [reflexivity | | |reflexivity].
    + by rewrite sharpDiffusion_length, Ec, length_through.
    + intros x y k Hg Hk Hr. rewrite sharpDiffusion_eq.
      apply after_frame. by apply keep_not_hole_slot.
  - apply hierarchicalInpaint_inr in Hp as [[Hn ->]|(last & Hl & Hw0 & Hh0 & ->)];
      [by left|].
    right. split_and!; [done..|].
    unfold ctx at 1, maskCtx at 1. rewrite !getImageData_drawImage00 by done.
    change (through (getImageData img w h)) with (cdata ctx).
    change (through (getImageData mask w h)) with (cdata maskCtx).
    eexists. split_and!; [reflexivity | | |by exists last].
    + by rewrite texturize_length, Ec, length_through.
    + intros x y k Hg Hk Hr. apply texturize_keep; [by eapply offset_aligned | | done].
      unfold hole in Hk. by destruct (below128 _ _).
Qed.

(** The returned canvas has the size of the image, whatever the mask. *)
Lemma perform_size img mask mode out :
  wf_raster img → perform (Some img) (Some mask) mode = inr out →
  cw out = cw img ∧ ch out = ch img ∧ sized (cw img) (ch img) (cdata out).
Proof.
  intros Hwf Hp. pose proof Hwf as (Hw & Hh & Hs).
  destruct (perform_shape img mask mode out Hwf Hp)
    as (Ec & [(_ & _ & ->)|(_ & _ & d & -> & Hl & _)]).
  - simpl. split_and!; [done..|]. by apply sized_through, getImageData_sized.
  - simpl. split_and!; [done..|]. apply sized_through. unfold sized in *. by rewrite Hl.
Qed.

Lemma hole_fitted mask w h x y :
  in_grid w h x y →
  hole (cdata (drawImage00 blend mask w h)) (offset w x y) ↔
  hole (cdata (crop mask w h)) (offset w x y).
Proof. intros Hg. simpl. apply hole_through. by eapply offset_aligned. Qed.

(** A pixel that the mask, as fitted to the image, keeps comes out as
    the store holds the pixel of the image: stored once when no level of
    the pyramid ran, and else stored, read, put back and stored again. *)
Lemma perform_keep img mask mode out x y :
  wf_raster img → perform (Some img) (Some mask) mode = inr out →
  in_grid (cw img) (ch img) x y →
  ¬ hole (cdata (crop mask (cw img) (ch img))) (offset (cw img) x y) →
  let p := offset (cw img) x y / 4 in
  pixel (cdata out) p = stored (pixel (cdata img) p) ∨
  pixel (cdata out) p = stored (stored (pixel (cdata img) p)).
Proof.
  intros Hwf Hp Hg Hk p. pose proof Hwf as (Hw & Hh & Hs).
  pose proof (offset_aligned _ _ _ _ Hg) as Ha.
  pose proof (sized_slot _ _ _ x y 3 Hs Hg ltac:(lia)) as Hi.
  destruct (perform_shape img mask mode out Hwf Hp)
    as (Ec & [(_ & _ & ->)|(_ & _ & d & -> & Hl & Hd & _)]).
  - left. rewrite Ec. by apply pixel_through.
  - right. unfold p. change (cdata (putData blend (cw img) (ch img) d)) with (through d).
    rewrite pixel_through; [|done|].
    + f_equal. rewrite <- (pixel_through blend (cdata img)) by done. rewrite <- Ec.
      apply pixel_ext; [done|]. intros k Hr. apply Hd; [done | | done].
      by rewrite hole_fitted.
    + apply rd_is_Some. rewrite Hl. by apply rd_is_Some.
Qed.

(** The same, byte by byte: the alpha of a kept pixel is the alpha of
    the image, and an opaque kept pixel is the pixel of the image. *)
Lemma perform_keep_rd img mask mode out x y :
  wf_raster img → perform (Some img) (Some mask) mode = inr out →
  in_grid (cw img) (ch img) x y →
  ¬ hole (cdata (crop mask (cw img) (ch img))) (offset (cw img) x y) →
  let o := offset (cw img) x y in
  rd (cdata out) (o + 3) = rd (cdata img) (o + 3) ∧
  (rd (cdata img) (o + 3) = Some 255 →
   ∀ k, 0 <= k <= 3 → rd (cdata out) (o + k) = rd (cdata img) (o + k)).
Proof.
  intros Hwf Hp Hg Hk o. subst o. pose proof Hwf as (Hw & Hh & Hs).
  pose proof (offset_aligned _ _ _ _ Hg) as Ha.
  pose proof (sized_slot _ _ _ x y 3 Hs Hg ltac:(lia)) as Hi.
  destruct (perform_size img mask mode out Hwf Hp) as (_ & _ & Hso).
  pose proof (sized_slot _ _ _ x y 3 Hso Hg ltac:(lia)) as Ho.
  pose proof (perform_keep img mask mode out x y Hwf Hp Hg Hk) as Hpx. cbv zeta in Hpx.
  split.
  - rewrite (rd_pixel (cdata out)), (rd_pixel (cdata img)) by (done || lia).
    f_equal. destruct Hpx as [-> | ->]; by rewrite !stored_alpha.
  - intros E k Hr.
    assert (chan (pixel (cdata img) (offset (cw img) x y / 4)) 3 = 255) as E'.
    { apply (inj Some). by rewrite <- (rd_pixel (cdata img)) by (done || lia). }
    rewrite (rd_pixel (cdata out)), (rd_pixel (cdata img)) by (done || lia).
    f_equal. f_equal.
    destruct Hpx as [-> | ->]; by rewrite !(stored_opaque_px _ E').
Qed.

(** In chart mode a hole pixel comes out opaque when every kept pixel
    of the image has alpha above 0 and there is one. *)
Lemma perform_chart_hole img mask out x y :
  wf_raster img → perform (Some img) (Some mask) Chart = inr out →
  let w := cw img in
  let h := ch img in
  let m := cdata (crop mask w h) in
  keeps_count (cdata img) m w h →
  (∃ kx ky, in_grid w h kx ky ∧ ¬ hole m (offset w kx ky)) →
  in_grid w h x y → hole m (offset w x y) →
  rd (cdata out) (offset w x y + 3) = Some 255.
Proof.
  cbv zeta. intros Hwf Hp Hkeeps (kx & ky & HK & HKk) Hg Hhole.
  pose proof Hwf as (Hw & Hh & Hs).
  pose proof (perform_shape img mask Chart out Hwf Hp) as Hsh. cbv zeta in Hsh.
  destruct Hsh as (Ec & [(? & _)|(_ & _ & d & -> & Hl & _ & ->)]); [done|].
  unfold putData. cbn [cdata]. rewrite through_alpha by (by eapply offset_aligned).
  rewrite sharpDiffusion_eq.
  apply (spacefill_complete _ _ _ _ kx ky); [| |done| |lia|done|].
  - rewrite Ec. by apply sized_through.
  - intros x' y' Hg' Hk'. rewrite Ec. unfold positive_at.
    rewrite through_alpha by (by eapply offset_aligned).
    apply (Hkeeps x' y'); [done|]. by rewrite <- hole_fitted.
  - by rewrite hole_fitted.
  - by rewrite hole_fitted.
Qed.

(** In photo mode, once the pyramid has a result, a hole pixel comes
    out opaque, with one noise sample added to the three channels of the
    pyramid's result. *)
Lemma perform_photo_hole img mask out last x y :
  wf_raster img → perform (Some img) (Some mask) Photo = inr out →
  let w := cw img in
  let h := ch img in
  let maskCtx := drawImage00 blend mask w h in
  pyramid (drawImage00 blend img w h) maskCtx w h = inr (Some last) →
  in_grid w h x y → hole (cdata (crop mask w h)) (offset w x y) →
  (∀ c, 0 <= c < 3 →
     rd (cdata out) (offset w x y + c) =
       Some (textured (getImageData last w h) (offset w x y + c)
               (noise_of (random (sample_at (cdata maskCtx) (offset w x y)))))) ∧
  rd (cdata out) (offset w x y + 3) = Some 255.
Proof.
  cbv zeta. intros Hwf Hp Hpy Hg Hhole. pose proof Hwf as (Hw & Hh & Hs).
  pose proof (offset_aligned _ _ _ _ Hg) as Ha.
  pose proof (perform_shape img mask Photo out Hwf Hp) as Hsh. cbv zeta in Hsh.
  destruct Hsh as (Ec & [(_ & Hn & _)|(_ & _ & d & -> & Hl & _ & last' & Hl' & ->)]);
    [congruence|].
  assert (last' = last) as -> by congruence.
  destruct (texturize_hole_at random (cdata (drawImage00 blend img (cw img) (ch img)))
              (getImageData last (cw img) (ch img))
              (cdata (drawImage00 blend mask (cw img) (ch img)))
              (offset (cw img) x y)) as [Hc H3].
  - done.
  - by apply hole_fitted.
  - apply rd_is_Some. rewrite Ec, length_through. apply rd_is_Some.
    by apply (sized_slot (cw img) (ch img)).
  - unfold putData. cbn [cdata]. split; [|by rewrite through_opaque by (done || lia)].
    intros c Hr. rewrite through_opaque by (done || lia). by apply Hc.
Qed.

End ServiceFacts.

(** C1, as amended.  The fill never writes outside the hole: under
    either policy [sharpDiffusion] leaves the four bytes of every keep
    pixel (mask alpha at least 128) as they were, and so does the final
    loop of [hierarchicalInpaint].  From the image to the buffer that
    [performInpainting] returns, in chart mode and in photo mode, a keep
    pixel keeps its alpha; it keeps its colour when it is opaque; in
    general it comes out as the canvas holds it, written and read once
    or twice. *)
Theorem C1_keep_pixels_untouched :
  (∀ (data mData : list Z) (w h maxPasses : Z) (preserveContent : bool) (x y k : Z),
     in_grid w h x y → keep mData (offset w x y) → 0 <= k <= 3 →
     rd (sharpDiffusion data mData w h maxPasses preserveContent) (offset w x y + k) =
     rd data (offset w x y + k)) ∧
  (∀ (random : nat → Q) (finalData smoothData mData : list Z) (i k : Z),
     aligned i → keep mData i → 0 <= k <= 3 →
     rd (texturize random finalData smoothData mData) (i + k) = rd finalData (i + k)) ∧
  (∀ blend drawScaled context_ok random (img mask : Canvas) (mode : InpaintMode)
     (out : Canvas) (x y : Z),
     wf_raster img → wf_raster mask → cw mask = cw img → ch mask = ch img →
     performInpainting blend drawScaled context_ok random (Some img) (Some mask) mode
       = inr out →
     in_grid (cw img) (ch img) x y → keep (cdata mask) (offset (cw img) x y) →
     let o := offset (cw img) x y in
     rd (cdata out) (o + 3) = rd (cdata img) (o + 3) ∧
     (rd (cdata img) (o + 3) = Some 255 →
      ∀ k, 0 <= k <= 3 → rd (cdata out) (o + k) = rd (cdata img) (o + k)) ∧
     (pixel (cdata out) (o / 4) = stored blend (pixel (cdata img) (o / 4)) ∨
      pixel (cdata out) (o / 4) = stored blend (stored blend (pixel (cdata img) (o / 4))))).
Proof.
  split_and!.
  - intros data mData w h maxPasses pc x y k Hg Hk Hr.
    rewrite sharpDiffusion_eq. apply after_frame.
    apply keep_not_hole_slot; [done | by apply keep_not_hole | done].
  - intros random finalData smoothData mData i k Ha Hk Hr.
    apply texturize_keep; [done | | done].
    apply keep_not_hole in Hk. unfold hole in Hk. by destruct (below128 _ _).
  - intros blend drawScaled context_ok random img mask mode out x y
           Hwi Hwm Ew Eh Hp Hg Hk o.
    assert (¬ hole (cdata (crop mask (cw img) (ch img))) (offset (cw img) x y)) as Hn.
    { rewrite <- Ew, <- Eh, (crop_wf mask Hwm), Ew. by apply keep_not_hole. }
    destruct (perform_keep_rd _ _ _ _ img mask mode out x y Hwi Hp Hg Hn) as [H1 H2].
    split_and!; [exact H1 | exact H2 |].
    exact (perform_keep blend drawScaled context_ok random img mask mode out x y
             Hwi Hp Hg Hn).
Qed.

(** C1, as it is written, fails on a translucent keep pixel: the
    canvas that rounds to the nearest byte returns the pixel
    (5, 6, 7, 100) as (5, 5, 8, 100). *)
Lemma C1_counterexample : ¬ Stated.keep_untouched.
Proof.
  intros H.
  specialize (H nearest Sample.flat_draw Sample.granted Sample.random58
                Sample.faint_px Sample.keep_px Chart (MkCanvas 1 1 [5; 5; 8; 100]) 0 0 1).
  assert (rd [5; 5; 8; 100] (offset 1 0 0 + 1) = rd [5; 6; 7; 100] (offset 1 0 0 + 1)) as E;
    [|vm_compute in E; discriminate].
  apply H.
  - unfold wf_raster, sized; simpl; lia.
  - unfold wf_raster, sized; simpl; lia.
  - reflexivity.
  - reflexivity.
  - vm_compute. reflexivity.
  - unfold in_grid; simpl; lia.
  - exists 255. split; [reflexivity | lia].
  - lia.
Qed.

Lemma C1_witness :
  rd (sharpDiffusion Sample.two_px Sample.erase_right 2 1 2 true) (offset 2 0 0 + 1) =
    rd Sample.two_px (offset 2 0 0 + 1) ∧
  performInpainting nearest Sample.flat_draw Sample.granted Sample.random58
    (Some (MkCanvas 2 1 Sample.two_px)) (Some (MkCanvas 2 1 Sample.erase_right)) Photo
    = inr (MkCanvas 2 1 [50; 60; 70; 255; 12; 12; 14; 255]) ∧
  rd [50; 60; 70; 255; 12; 12; 14; 255] (offset 2 0 0 + 2) =
    rd Sample.two_px (offset 2 0 0 + 2).
Proof.
  destruct C1_keep_pixels_untouched as (Hfill & _ & Hservice). split_and!.
  - apply (Hfill Sample.two_px Sample.erase_right 2 1 2 true 0 0 1).
    + unfold in_grid; lia.
    + exists 255. split; [reflexivity | lia].
    + lia.
  - vm_compute; reflexivity.
  - destruct (Hservice nearest Sample.flat_draw Sample.granted Sample.random58
                (MkCanvas 2 1 Sample.two_px) (MkCanvas 2 1 Sample.erase_right) Photo
                (MkCanvas 2 1 [50; 60; 70; 255; 12; 12; 14; 255]) 0 0)
      as (_ & H & _).
    + unfold wf_raster, sized; simpl; lia.
    + unfold wf_raster, sized; simpl; lia.
    + reflexivity.
    + reflexivity.
    + vm_compute; reflexivity.
    + unfold in_grid; simpl; lia.
    + exists 255. split; [reflexivity | lia].
    + apply H; [reflexivity | lia].
Defined.

(** C3, as amended.  A buffer that [performInpainting] returns has the
    dimensions of the input image, and a pixel that the mask, as fitted
    to the image, keeps has the alpha of the input.  The buffer has
    alpha 255 at every pixel when every kept pixel of the input has
    alpha 255 and, in chart mode, the mask keeps at least one pixel, in
    photo mode, a level of the pyramid has run.  In photo mode with no
    level run, every pixel has the alpha of the input. *)
Theorem C3_output_size_and_opacity blend drawScaled context_ok random
    (img mask : Canvas) (mode : InpaintMode) (out : Canvas) :
  wf_raster img →
  performInpainting blend drawScaled context_ok random (Some img) (Some mask) mode = inr out →
  let w := cw img in
  let h := ch img in
  let m := cdata (crop mask w h) in
  cw out = w ∧ ch out = h ∧ sized w h (cdata out) ∧
  (∀ x y, in_grid w h x y → ¬ hole m (offset w x y) →
     rd (cdata out) (offset w x y + 3) = rd (cdata img) (offset w x y + 3)) ∧
  ((∀ x y, in_grid w h x y → ¬ hole m (offset w x y) →
           rd (cdata img) (offset w x y + 3) = Some 255) →
   match mode with
   | Chart => ∃ x y, in_grid w h x y ∧ ¬ hole m (offset w x y)
   | Photo => pyramid blend drawScaled context_ok (drawImage00 blend img w h)
                      (drawImage00 blend mask w h) w h ≠ inr None
   end →
   ∀ x y, in_grid w h x y → rd (cdata out) (offset w x y + 3) = Some 255) ∧
  (mode = Photo →
   pyramid blend drawScaled context_ok (drawImage00 blend img w h)
           (drawImage00 blend mask w h) w h = inr None →
   ∀ x y, in_grid w h x y →
     rd (cdata out) (offset w x y + 3) = rd (cdata img) (offset w x y + 3)).
Proof.
  cbv zeta. intros Hwf Hp.
  destruct (perform_size _ _ _ _ img mask mode out Hwf Hp) as (H1 & H2 & H3).
  assert (mode = Photo →
          pyramid blend drawScaled context_ok (drawImage00 blend img (cw img) (ch img))
                  (drawImage00 blend mask (cw img) (ch img)) (cw img) (ch img) = inr None →
          ∀ x y, in_grid (cw img) (ch img) x y →
            rd (cdata out) (offset (cw img) x y + 3) =
            rd (cdata img) (offset (cw img) x y + 3)) as Hnone.
  { intros -> Hpy x y Hg.
    pose proof (perform_shape blend drawScaled context_ok random img mask Photo out Hwf Hp)
      as Hsh. cbv zeta in Hsh.
    destruct Hsh as (Ec & [(_ & _ & ->)|(_ & _ & d & _ & _ & _ & last & Hl & _)]);
      [|congruence].
    rewrite Ec. apply through_alpha. by eapply offset_aligned. }
  assert (∀ x y, in_grid (cw img) (ch img) x y →
            ¬ hole (cdata (crop mask (cw img) (ch img))) (offset (cw img) x y) →
            rd (cdata out) (offset (cw img) x y + 3) =
            rd (cdata img) (offset (cw img) x y + 3)) as Hkeep.
  { intros x y Hg Hk.
    by destruct (perform_keep_rd _ _ _ _ img mask mode out x y Hwf Hp Hg Hk). }
  split_and!; [done..| |exact Hnone]. intros Hop Hmode x y Hg.
  destruct (decide (hole (cdata (crop mask (cw img) (ch img))) (offset (cw img) x y)))
    as [Hhole|Hk]; [|rewrite Hkeep by done; by apply Hop].
  destruct mode.
  - apply (perform_chart_hole _ _ _ _ img mask out x y Hwf Hp); [|done..].
    intros x' y' Hg' Hk'. unfold positive_at. by rewrite (Hop x' y' Hg' Hk').
  - destruct (pyramid blend drawScaled context_ok
                (drawImage00 blend img (cw img) (ch img))
                (drawImage00 blend mask (cw img) (ch img)) (cw img) (ch img))
      as [e|[last|] ] eqn:Hpy; [| |done].
    + apply performInpainting_inr in Hp as (_ & _ & Hp); [|by destruct Hwf as (? & ? & _)..].
      unfold hierarchicalInpaint in Hp. by rewrite Hpy in Hp.
    + by destruct (perform_photo_hole _ _ _ _ img mask out last x y Hwf Hp Hpy Hg Hhole).
Qed.

(** C3, as it is written, fails on an image with a translucent keep
    pixel: the pixel comes out with the alpha it had. *)
Lemma C3_counterexample : ¬ Stated.opaque_output.
Proof.
  intros H.
  destruct (H nearest Sample.flat_draw Sample.granted Sample.random58
              Sample.faint_px Sample.keep_px Chart (MkCanvas 1 1 [5; 5; 8; 100]))
    as (_ & _ & E).
  - unfold wf_raster, sized; simpl; lia.
  - unfold wf_raster, sized; simpl; lia.
  - vm_compute. reflexivity.
  - specialize (E 0 0). simpl in E. unfold in_grid in E.
    assert (rd [5; 5; 8; 100] (offset 1 0 0 + 3) = Some 255) as E' by (apply E; lia).
    vm_compute in E'. discriminate.
Qed.

Lemma C3_witness :
  ∃ out,
    performInpainting nearest Sample.flat_draw Sample.granted Sample.random58
      (Some (MkCanvas 2 1 Sample.two_px)) (Some (MkCanvas 2 1 Sample.erase_right)) Chart
      = inr out ∧
    cw out = 2 ∧ ch out = 1 ∧ rd (cdata out) (offset 2 1 0 + 3) = Some 255.
Proof.
  eexists. split; [vm_compute; reflexivity|].
  destruct (C3_output_size_and_opacity nearest Sample.flat_draw Sample.granted
              Sample.random58
              (MkCanvas 2 1 Sample.two_px) (MkCanvas 2 1 Sample.erase_right) Chart _
              ltac:(unfold wf_raster, sized; simpl; lia) eq_refl)
    as (H1 & H2 & _ & _ & H & _).
  split_and!; [exact H1 | exact H2 |].
  apply H.
  - intros x y [Hx Hy] _. simpl in *. assert (y = 0) as -> by lia.
    assert (x = 0 ∨ x = 1) as [->| ->] by lia; reflexivity.
  - exists 0, 0. split; [unfold in_grid; simpl; lia|]. vm_compute. discriminate.
  - unfold in_grid; simpl; lia.
Defined.

(** C4, as amended.  [performInpainting] has no check of the mask's
    dimensions and no failure for a mismatch.  The mask is drawn at its
    own size at the origin of a canvas of the image's size: the result is
    the result for that fitted mask, in which a mask pixel outside the
    image is dropped and an image pixel outside the mask is transparent
    black, hence a hole. *)
Theorem C4_mask_fitted_not_rejected blend drawScaled context_ok random
    (img mask : Canvas) (mode : InpaintMode) :
  0 <= cw img → 0 <= ch img →
  let fitted := crop mask (cw img) (ch img) in
  performInpainting blend drawScaled context_ok random (Some img) (Some mask) mode =
    performInpainting blend drawScaled context_ok random (Some img) (Some fitted) mode ∧
  cw fitted = cw img ∧ ch fitted = ch img ∧
  ∀ x y k, in_grid (cw img) (ch img) x y → 0 <= k <= 3 →
    rd (cdata fitted) (offset (cw img) x y + k) =
      Some (if (x <? cw mask) && (y <? ch mask)
            then rd0 (cdata mask) (offset (cw mask) x y + k) else 0).
Proof.
  intros Hw Hh fitted. split_and!; [|done..|].
  - unfold performInpainting. unfold fitted. by rewrite drawImage00_crop.
  - intros x y k Hg Hk. by apply rd_getImageData.
Qed.

(** C4, as it is written, fails: a 2 x 1 mask on a 1 x 1 image is not
    rejected, a buffer is returned. *)
Lemma C4_counterexample : ¬ Stated.mismatch_rejected.
Proof.
  intros H.
  destruct (H nearest Sample.flat_draw Sample.granted Sample.random58
              Sample.one_px Sample.keep_2x1 Chart) as [e He].
  - unfold wf_raster, sized; simpl; lia.
  - unfold wf_raster, sized; simpl; lia.
  - simpl. intros [= ?].
  - vm_compute in He. discriminate.
Qed.

Lemma C4_witness :
  performInpainting nearest Sample.flat_draw Sample.granted Sample.random58
    (Some Sample.one_px) (Some Sample.keep_2x1) Chart =
  performInpainting nearest Sample.flat_draw Sample.granted Sample.random58
    (Some Sample.one_px) (Some Sample.keep_px) Chart.
Proof.
  destruct (C4_mask_fitted_not_rejected nearest Sample.flat_draw Sample.granted
              Sample.random58 Sample.one_px Sample.keep_2x1 Chart) as (H & _);
    [simpl; lia..|].
  exact H.
Defined.

(** * The texturizer *)

Section TexturizerFacts.
Variable blend : Z → Z → Z.
Variable drawScaled : bool → Canvas → Z → Z → list Z.
Variable context_ok : canvas_id → Z → Z → bool.
Variable random : nat → Q.


End TexturizerFacts.

Lemma flat_draw_bytes q c sw sh : Forall is_byte (Sample.flat_draw q c sw sh).
Proof.
  unfold Sample.flat_draw. induction (Z.to_nat (sw * sh)) as [|n IH]; simpl; [done|].
  repeat (apply Forall_cons; split; [unfold is_byte; lia|]). done.
Qed.

(** C8, as amended.  In photo mode, for every stream of [Math.random()]
    values in [0, 1) (and a browser whose scaled draw yields bytes),
    when [performInpainting] returns a buffer: a pixel that the mask, as
    fitted, keeps has the alpha of the input and, when it is opaque, the
    four bytes of the input; and either no level of the pyramid has run
    and the buffer is the canvas as the image was drawn on it, or the
    pyramid has a result and at every hole pixel the output alpha is 255
    and each of R, G, B differs from the byte of the pyramid's result by
    at most 6. *)
Theorem C8_bounded_noise blend drawScaled context_ok random
    (img mask out : Canvas) :
  (∀ q c sw sh, Forall is_byte (drawScaled q c sw sh)) →
  (∀ k, (0 <= random k)%Q ∧ (random k < 1)%Q) →
  wf_raster img →
  performInpainting blend drawScaled context_ok random (Some img) (Some mask) Photo = inr out →
  let w := cw img in
  let h := ch img in
  let ctx := drawImage00 blend img w h in
  let maskCtx := drawImage00 blend mask w h in
  let m := cdata (crop mask w h) in
  (∀ x y, in_grid w h x y → ¬ hole m (offset w x y) →
     rd (cdata out) (offset w x y + 3) = rd (cdata img) (offset w x y + 3) ∧
     (rd (cdata img) (offset w x y + 3) = Some 255 →
      ∀ k, 0 <= k <= 3 →
        rd (cdata out) (offset w x y + k) = rd (cdata img) (offset w x y + k))) ∧
  ((pyramid blend drawScaled context_ok ctx maskCtx w h = inr None ∧ out = ctx) ∨
   ∃ last,
     pyramid blend drawScaled context_ok ctx maskCtx w h = inr (Some last) ∧
     ∀ x y, in_grid w h x y → hole m (offset w x y) →
       rd (cdata out) (offset w x y + 3) = Some 255 ∧
       ∀ c, 0 <= c < 3 →
         ∃ v s, rd (cdata out) (offset w x y + c) = Some v ∧
                rd (getImageData last w h) (offset w x y + c) = Some s ∧
                Z.abs (v - s) <= 6).
Proof.
  cbv zeta. intros Hbytes Hrand Hwf Hp. pose proof Hwf as (Hw & Hh & _).
  split.
  { intros x y Hg Hk.
    exact (perform_keep_rd blend drawScaled context_ok random img mask Photo out x y
             Hwf Hp Hg Hk). }
  pose proof (perform_shape blend drawScaled context_ok random img mask Photo out Hwf Hp)
    as Hsh. cbv zeta in Hsh.
  destruct Hsh as (_ & [(_ & Hn & Ho)|(_ & _ & d & _ & _ & _ & last & Hpy & _)]);
    [by left|].
  right. exists last. split; [done|]. intros x y Hg Hhole.
  destruct (perform_photo_hole _ _ _ _ img mask out last x y Hwf Hp Hpy Hg Hhole)
    as [Hc H3].
  split; [done|]. intros c Hr.
  pose proof (rd_getImageData last (cw img) (ch img) x y c Hg ltac:(lia)) as Hs.
  eexists _, _. split_and!; [by apply Hc | exact Hs |].
  destruct (Hrand (sample_at (cdata (drawImage00 blend mask (cw img) (ch img)))
                             (offset (cw img) x y))) as [H0 H1].
  eapply textured_bound; [|exact Hs|done..].
  apply getImageData_bytes. by eapply pyramid_bytes.
Qed.

(** C8, as it is written, fails on a translucent pixel outside the
    hole: the canvas that rounds to the nearest byte returns the pixel
    (5, 6, 7, 100) as (5, 5, 8, 100). *)
Lemma C8_counterexample : ¬ Stated.bounded_noise.
Proof.
  intros H.
  destruct (H nearest Sample.flat_draw Sample.granted Sample.random58
              Sample.faint_px Sample.keep_px (MkCanvas 1 1 [5; 5; 8; 100]))
    as (last & _ & E).
  - apply flat_draw_bytes.
  - intros k. split; vm_compute; first [reflexivity | discriminate].
  - unfold wf_raster, sized; simpl; lia.
  - unfold wf_raster, sized; simpl; lia.
  - reflexivity.
  - reflexivity.
  - vm_compute. reflexivity.
  - destruct (E 0 0 ltac:(unfold in_grid; simpl; lia)) as [_ Hk].
    assert (rd [5; 5; 8; 100] (offset 1 0 0 + 1) = rd [5; 6; 7; 100] (offset 1 0 0 + 1)) as E';
      [|vm_compute in E'; discriminate].
    apply Hk; [vm_compute; discriminate | lia].
Qed.

Lemma C8_witness :
  performInpainting nearest Sample.flat_draw Sample.granted Sample.random14
    (Some Sample.one_px) (Some Sample.hole_px) Photo
    = inr (MkCanvas 1 1 [7; 8; 9; 255]) ∧
  ∃ last,
    pyramid nearest Sample.flat_draw Sample.granted (drawImage00 nearest Sample.one_px 1 1)
      (drawImage00 nearest Sample.hole_px 1 1) 1 1 = inr (Some last) ∧
    rd [7; 8; 9; 255] (offset 1 0 0 + 3) = Some 255.
Proof.
  split; [vm_compute; reflexivity|].
  destruct (C8_bounded_noise nearest Sample.flat_draw Sample.granted Sample.random14
              Sample.one_px Sample.hole_px (MkCanvas 1 1 [7; 8; 9; 255])
              flat_draw_bytes
              ltac:(intros k; split; vm_compute; first [reflexivity | discriminate])
              ltac:(unfold wf_raster, sized; simpl; lia)
              ltac:(vm_compute; reflexivity)) as (_ & [(Hn & _)|(last & Hpy & H)]).
  - vm_compute in Hn. discriminate.
  - exists last. split; [exact Hpy|].
    destruct (H 0 0 ltac:(unfold in_grid; simpl; lia)) as [Ha _]; [reflexivity|].
    exact Ha.
Defined.




(** * The filler, further *)

Section IdleFacts.
Implicit Types (d m : list Z) (w h : Z) (st : state).

Lemma list_eq_rd d1 d2 : (∀ j, rd d1 j = rd d2 j) → d1 = d2.
Proof. intros H. apply list_eq. intros n. rewrite <- !rd_of_nat. apply H. Qed.

Lemma holes_nil m w h :
  (∀ x y, in_grid w h x y → ¬ hole m (offset w x y)) → holes m w h = [].
Proof.
  intros Hn. apply elem_of_nil_inv. intros idx (Hh & x & y & Hg & ->)%elem_of_holes.
  exact (Hn x y Hg Hh).
Qed.

Lemma loop_pass turns w h pc st :
  pass st <= pass (loop turns w h pc st).1 <= pass st + Z.of_nat turns.
Proof.
  revert st. induction turns as [|t IH]; intros st; [simpl; lia|].
  rewrite loop_S. destruct (0 <? remaining st); [|lia].
  assert (pass st <= pass (body w h pc st).1 <= pass st + 1) as Hb.
  { rewrite body_eq. cbv zeta. destruct pc; [simpl; lia|].
    destruct (_ =? 0); simpl; lia. }
  destruct (body w h pc st).2; [|lia].
  specialize (IH (body w h pc st).1). lia.
Qed.

Lemma length_kills t ks : length (foldl kill t ks) = length t.
Proof.
  revert t. induction ks as [|k ks IH]; intros t; simpl; [done|].
  rewrite IH. apply length_kill.
Qed.

Lemma loop_todo_length turns w h pc st :
  length (todoPixels (loop turns w h pc st).1) = length (todoPixels st).
Proof.
  apply (loop_ind (λ s, length (todoPixels s) = length (todoPixels st))); [|done].
  intros s Hs. rewrite body_eq. cbv zeta. destruct pc; [exact Hs|].
  destruct (_ =? 0); simpl; rewrite length_kills; exact Hs.
Qed.

End IdleFacts.

(** X1.  A mask without a hole pixel in the grid: Init finds nothing,
    the loop does not run a single turn (its guard [remaining > 0]
    fails at once) and the buffer is returned as it was given, under
    either policy and for any budget. *)
Theorem sharpDiffusion_no_hole (data mData : list Z) (w h maxPasses : Z)
    (preserveContent : bool) :
  (∀ x y, in_grid w h x y → ¬ hole mData (offset w x y)) →
  run data mData w h maxPasses preserveContent = (State data [] 0 0, []) ∧
  sharpDiffusion data mData w h maxPasses preserveContent = data.
Proof.
  intros Hn.
  assert (run data mData w h maxPasses preserveContent = (State data [] 0 0, [])) as E.
  { rewrite run_eq, start_eq, (holes_nil _ _ _ Hn). simpl.
    replace (if preserveContent then data else data) with data by (by destruct preserveContent).
    apply loop_stop. simpl. lia. }
  split; [exact E|]. unfold sharpDiffusion. rewrite E. reflexivity.
Qed.

Lemma sharpDiffusion_no_hole_witness :
  sharpDiffusion Sample.two_px (cdata Sample.keep_2x1) 2 1 50 true = Sample.two_px.
Proof.
  apply (sharpDiffusion_no_hole Sample.two_px (cdata Sample.keep_2x1) 2 1 50 true).
  intros x y [Hx Hy].
  assert (y = 0) as -> by lia.
  assert (x = 0 ∨ x = 1) as [-> | ->] by lia; vm_compute; discriminate.
Defined.

Section CountFacts.
Implicit Types (d m : list Z) (w h : Z) (st : state).

Lemma live_unfilled d0 m w h st :
  sized w h d0 → fill_inv d0 m w h st →
  live (todoPixels st) ≡ₚ
    filter (λ idx, rd (data st) (idx + 3) = Some 0) (holes m w h).
Proof.
  intros Hs Hi. apply NoDup_Permutation.
  - apply Hi.
  - apply NoDup_filter, NoDup_holes.
  - intros idx. rewrite elem_of_live, list_elem_of_filter. split.
    + intros [Hin Hne]. destruct (inv_todo _ _ _ _ _ Hi idx Hin) as [?|Hh]; [done|].
      split; [|exact Hh]. destruct (inv_open _ _ _ _ _ Hi idx Hh Hin) as [E _].
      rewrite E. apply elem_of_holes in Hh as (_ & x & y & Hg & ->).
      destruct (sized_slot w h d0 x y 3 Hs Hg ltac:(lia)) as [a ->]. reflexivity.
    + intros [E Hh]. destruct (decide (idx ∈ todoPixels st)) as [Hin|Hout].
      * split; [exact Hin|]. apply holes_aligned in Hh. lia.
      * rewrite (inv_done _ _ _ _ _ Hi idx Hh Hout) in E.
        destruct (rd d0 (idx + 3)); discriminate.
Qed.

End CountFacts.

(** X2.  The bookkeeping of SpaceFill.  When the call returns, the
    counter [remaining] is the number of hole pixels that are still
    unfilled (alpha 0); the worklist is as long as after Init, since a
    filled entry is overwritten with -1 and never removed; and [pass]
    has not gone beyond the budget. *)
Theorem spacefill_bookkeeping (data mData : list Z) (w h maxPasses : Z) :
  sized w h data →
  let fin := (run data mData w h maxPasses false).1 in
  remaining fin =
    Z.of_nat (length (filter (λ idx, rd (Diffusion.data fin) (idx + 3) = Some 0)
                             (holes mData w h))) ∧
  length (todoPixels fin) = length (holes mData w h) ∧
  0 <= pass fin <= Z.max 0 maxPasses.
Proof.
  intros Hs fin. subst fin. rewrite run_eq.
  pose proof (after_fill_inv (Z.to_nat maxPasses) data mData w h) as Hi.
  unfold after in Hi.
  pose proof (loop_pass (Z.to_nat maxPasses) w h false (start data mData w h false)) as Hp.
  rewrite start_eq in Hp at 1 4. simpl in Hp.
  split; [|split; [|lia]].
  - rewrite (inv_remaining _ _ _ _ _ Hi). f_equal.
    apply Permutation_length, (live_unfilled data), Hi. exact Hs.
  - rewrite loop_todo_length, start_eq. reflexivity.
Qed.

Lemma spacefill_bookkeeping_witness :
  remaining (run (cdata Sample.one_px) (cdata Sample.hole_px) 1 1 50 false).1 = 1 ∧
  remaining (run Sample.two_px Sample.erase_right 2 1 2 false).1 = 0.
Proof.
  pose proof (spacefill_bookkeeping (cdata Sample.one_px) (cdata Sample.hole_px) 1 1 50
                ltac:(unfold sized; simpl; lia)) as (E1 & _).
  pose proof (spacefill_bookkeeping Sample.two_px Sample.erase_right 2 1 2
                ltac:(unfold sized; simpl; lia)) as (E2 & _).
  split; [rewrite E1 | rewrite E2]; vm_compute; reflexivity.
Defined.

(** ** No new extremes *)

Section RangeFacts.
Variables (w h o lo hi : Z).
Hypothesis Ho : 0 <= o < 3.
Hypothesis Hlo : 0 <= lo.
Hypothesis Hhi : hi <= 255.
Implicit Types (d m : list Z) (st : state) (s : sums).

Local Abbreviation ranged s := (lo * scount s <= ssum s o <= hi * scount s).

Lemma neighbor_step_range d s n :
  within d w h o lo hi → ranged s → ranged (neighbor_step d w h s n).
Proof.
  intros Hw Hs. unfold neighbor_step. destruct n as [nx ny].
  destruct (in_bounds w h nx ny) eqn:Hb; [|done].
  change ((ny * w + nx) * 4) with (offset w nx ny).
  destruct (positive_at d (offset w nx ny + 3)) eqn:Hp; [|done].
  apply in_bounds_grid in Hb. pose proof (Hw nx ny Hb Hp) as Hr.
  unfold ssum in *. simpl.
  destruct (Z.eqb_spec o 0) as [->|N0]; [rewrite Z.add_0_r in Hr; lia|].
  destruct (Z.eqb_spec o 1) as [->|N1]; [lia|].
  assert (o = 2) as -> by lia. lia.
Qed.

Lemma neighbor_fold_range d s l :
  within d w h o lo hi → ranged s → ranged (foldl (neighbor_step d w h) s l).
Proof.
  intros Hw. revert s. induction l as [|n l IH]; intros s Hs; [exact Hs|].
  simpl. apply IH, neighbor_step_range; done.
Qed.

Lemma round_div_range sum count :
  0 < count → lo * count <= sum <= hi * count → lo <= round_div sum count <= hi.
Proof.
  intros Hc Hs. unfold round_div. split.
  - apply Z.div_le_lower_bound; lia.
  - apply Z.lt_succ_r, Z.div_lt_upper_bound; lia.
Qed.

Lemma probe_range d idx c :
  within d w h o lo hi → probe d w h idx = Some c → lo <= chan c o <= hi.
Proof.
  intros Hw. unfold probe. cbv zeta.
  pose proof (neighbor_fold_range d (Sums 0 0 0 0)
                (neighbors (Z.rem (idx / 4) w) (idx / 4 / w)) Hw) as Hr.
  revert Hr.
  generalize (foldl (neighbor_step d w h) (Sums 0 0 0 0)
                    (neighbors (Z.rem (idx / 4) w) (idx / 4 / w))).
  intros s Hr. destruct (Z.ltb_spec 0 (scount s)) as [Hc|]; [|discriminate].
  intros [= <-].
  assert (ranged s) as Hs by (apply Hr; unfold ssum; simpl; repeat case_match; lia).
  pose proof (round_div_range _ _ Hc Hs) as Hd. unfold ssum in Hd.
  unfold mk_color, chan.
  destruct (Z.eqb_spec o 0) as [->|N0]; [simpl in Hd; rewrite clamp8_id; [lia | unfold is_byte; lia]|].
  destruct (Z.eqb_spec o 1) as [->|N1]; [simpl in Hd; rewrite clamp8_id; [lia | unfold is_byte; lia]|].
  destruct (Z.eqb_spec o 2) as [->|N2]; [|lia].
  simpl in Hd. rewrite clamp8_id; [lia | unfold is_byte; lia].
Qed.

Lemma body_within pc st :
  todo_ok (todoPixels st) → within (data st) w h o lo hi →
  within (data (body w h pc st).1) w h o lo hi.
Proof.
  intros Ht Hw x y Hg Hp.
  pose proof (offset_aligned _ _ _ _ Hg) as Ha.
  destruct (decide (offset w x y ∈ todoPixels st)) as [Hin|Hout].
  - assert (offset w x y ≠ -1) as Hne by (destruct Ha; lia).
    pose proof (body_pixel w h pc st _ o Ht Hin Hne ltac:(lia)) as Eo.
    pose proof (body_pixel w h pc st _ 3 Ht Hin Hne ltac:(lia)) as E3.
    destruct (probe (data st) w h (offset w x y)) as [c|] eqn:Hc.
    + assert (is_Some (rd (data st) (offset w x y + o))) as [v Hv].
      { apply rd_is_Some. unfold positive_at in Hp.
        destruct (rd (data (body w h pc st).1) (offset w x y + 3)) eqn:E; [|discriminate].
        assert (is_Some (rd (data (body w h pc st).1) (offset w x y + 3))) as Hs by (by eexists).
        apply rd_is_Some in Hs. rewrite body_length in Hs. destruct Ha. lia. }
      unfold rd0. rewrite Eo, Hv. simpl. eapply probe_range; done.
    + unfold rd0. rewrite Eo. apply Hw; [exact Hg|].
      unfold positive_at in *. by rewrite <- E3.
  - assert (∀ c, 0 <= c <= 3 →
              rd (data (body w h pc st).1) (offset w x y + c) = rd (data st) (offset w x y + c)) as E.
    { intros c Hc. apply body_frame. intros k Hk Hne.
      apply aligned_disjoint; [exact Ha | | | exact Hc].
      - destruct (Ht _ Hk); done.
      - intros <-. done. }
    unfold rd0. rewrite E by lia. apply Hw; [exact Hg|].
    unfold positive_at in *. by rewrite <- E by lia.
Qed.

Lemma body_todo_ok pc st : todo_ok (todoPixels st) → todo_ok (todoPixels (body w h pc st).1).
Proof. intros Ht k Hk. apply body_todo in Hk as [->|Hk]; [by left | by apply Ht]. Qed.

Lemma loop_within turns pc st :
  todo_ok (todoPixels st) → within (data st) w h o lo hi →
  within (data (loop turns w h pc st).1) w h o lo hi.
Proof.
  intros Ht Hw.
  apply (loop_ind (λ st', todo_ok (todoPixels st') ∧ within (data st') w h o lo hi) w h pc);
    [|done].
  intros st' [Hs1 Hs2]. split; [by apply body_todo_ok | by apply body_within].
Qed.

Lemma start_within d m pc :
  (∀ x y, in_grid w h x y → pc = true ∨ ¬ hole m (offset w x y) →
          positive_at d (offset w x y + 3) = true →
          lo <= rd0 d (offset w x y + o) <= hi) →
  todo_ok (todoPixels (start d m w h pc)) ∧
  within (data (start d m w h pc)) w h o lo hi.
Proof.
  intros H. rewrite start_eq. simpl. split.
  - intros k Hk. right. apply holes_aligned in Hk. exact Hk.
  - destruct pc; [intros x y Hg Hp; apply H; auto|].
    intros x y Hg Hp.
    pose proof (offset_aligned _ _ _ _ Hg) as Ha.
    assert (¬ hole m (offset w x y)) as Hk.
    { intros Hh. unfold positive_at in Hp.
      destruct (rd (foldl clear d (holes m w h)) (offset w x y + 3)) as [a|] eqn:E; [|discriminate].
      rewrite rd_cleared in E.
      - injection E as <-. discriminate.
      - apply elem_of_holes. split; [exact Hh|]. by exists x, y.
      - assert (is_Some (rd (foldl clear d (holes m w h)) (offset w x y + 3))) as Hs by (by eexists).
        apply rd_is_Some in Hs. rewrite length_cleared in Hs. by apply rd_is_Some. }
    assert (∀ c, 0 <= c <= 3 →
              rd (foldl clear d (holes m w h)) (offset w x y + c) = rd d (offset w x y + c)) as E.
    { intros c Hc. apply rd_cleared_other. intros idx Hidx E.
      pose proof (holes_aligned _ _ _ _ Hidx) as Hi.
      destruct (aligned_4 _ Ha) as (p & _ & Ep), (aligned_4 idx Hi) as (q & _ & Eq).
      assert (idx = offset w x y) as -> by lia.
      apply elem_of_holes in Hidx as [Hh _]. done. }
    unfold rd0. rewrite E by lia. apply H; [exact Hg | by right |].
    unfold positive_at in *. by rewrite <- E by lia.
Qed.

End RangeFacts.

(** X3.  The filler creates no new extremes.  If byte [o] (R, G or B)
    of every pixel that counts at the start lies between [lo] and [hi]
    (under SpaceFill: every keep pixel with alpha above 0; under
    SeamHeal: every pixel with alpha above 0), then after the call byte
    [o] of every pixel with alpha above 0 lies between [lo] and [hi], for
    any budget.  With [lo = hi] a hole in a flat background is filled
    with exactly the background colour. *)
Theorem filler_range_preserved (data mData : list Z) (w h maxPasses : Z)
    (preserveContent : bool) (o lo hi : Z) :
  0 <= o < 3 → 0 <= lo → hi <= 255 →
  (∀ x y, in_grid w h x y →
          preserveContent = true ∨ ¬ hole mData (offset w x y) →
          positive_at data (offset w x y + 3) = true →
          lo <= rd0 data (offset w x y + o) <= hi) →
  ∀ x y, in_grid w h x y →
    positive_at (sharpDiffusion data mData w h maxPasses preserveContent)
                (offset w x y + 3) = true →
    lo <= rd0 (sharpDiffusion data mData w h maxPasses preserveContent)
              (offset w x y + o) <= hi.
Proof.
  intros Ho Hlo Hhi H. rewrite sharpDiffusion_eq. unfold after.
  assert (todo_ok (todoPixels (start data mData w h preserveContent)) ∧
          within (Diffusion.data (start data mData w h preserveContent)) w h o lo hi)
    as [Ht Hw] by (apply start_within; assumption).
  apply loop_within; assumption.
Qed.

Lemma filler_range_preserved_witness :
  50 <= rd0 (sharpDiffusion Sample.two_px Sample.erase_right 2 1 2 false) (offset 2 1 0 + 0) <= 50.
Proof.
  apply (filler_range_preserved Sample.two_px Sample.erase_right 2 1 2 false 0 50 50);
    [lia | lia | lia | | unfold in_grid; lia | vm_compute; reflexivity].
  intros x y [Hx Hy] Hk _.
  assert (y = 0) as -> by lia.
  assert (x = 0 ∨ x = 1) as [-> | ->] by lia.
  - vm_compute. split; discriminate.
  - destruct Hk as [?|Hk]; [discriminate|]. exfalso. apply Hk. vm_compute. reflexivity.
Defined.

(** ** A pass reads the snapshot *)

Section OrderFacts.
Implicit Types (d : list Z) (w h : Z) (nf : list (Z * color)).

Lemma fills_ext d nf1 nf2 :
  NoDup nf1.*1 → NoDup nf2.*1 → (∀ k, k ∈ nf1.*1 → aligned k) →
  (∀ e, e ∈ nf1 ↔ e ∈ nf2) → fills d nf1 = fills d nf2.
Proof.
  intros N1 N2 Ha He. apply list_eq_rd. intros j.
  assert (∀ k, k ∈ nf2.*1 → aligned k) as Ha2.
  { intros k ([k' c] & -> & Hin)%list_elem_of_fmap. apply Ha, list_elem_of_fmap.
    exists (k', c). split; [done | by apply He]. }
  destruct (decide (Exists (λ e, e.1 <= j <= e.1 + 3) nf1)) as [Hex|Hno].
  - apply Exists_exists in Hex as ([k c] & Hin & Hr). simpl in Hr.
    replace j with (k + (j - k)) by lia.
    rewrite (rd_fills_in d nf1 k c), (rd_fills_in d nf2 k c);
      [done | done | done | by apply He | lia | done | done | done | lia].
  - rewrite !rd_fills_out; [done|..].
    + intros k ([k' c] & -> & Hin)%list_elem_of_fmap Hr. apply Hno, Exists_exists.
      exists (k', c). split; [by apply He | done].
    + intros k ([k' c] & -> & Hin)%list_elem_of_fmap Hr. apply Hno, Exists_exists.
      exists (k', c). split; [done | done].
Qed.

Lemma scan_perm d w h t1 t2 e :
  t1 ≡ₚ t2 → e ∈ scan d w h t1 ↔ e ∈ scan d w h t2.
Proof.
  intros Hp. destruct e as [k c]. rewrite !elem_of_scan.
  split; intros (Hin & ?); (split; [|done]); [by rewrite <- Hp | by rewrite Hp].
Qed.

Lemma scan_perm_length d w h t1 t2 :
  t1 ≡ₚ t2 → length (scan d w h t1) = length (scan d w h t2).
Proof.
  intros Hp. apply Permutation_length, NoDup_Permutation.
  - eapply NoDup_fmap_1, scan_NoDup.
  - eapply NoDup_fmap_1, scan_NoDup.
  - intros e. by apply scan_perm.
Qed.

End OrderFacts.

(** X4.  One pass is a Jacobi step: the scan computes every colour
    from the buffer as it is when the pass begins and the stores happen
    afterwards, so the outcome of a pass does not depend on the order
    of the worklist.  Two worklists that hold the same entries in
    another order give the same buffer, the same counters and the same
    decision to go on, under either policy. *)
Theorem pass_order_independent (w h : Z) (preserveContent : bool)
    (d t1 t2 : list Z) (r p : Z) :
  t1 ≡ₚ t2 → todo_ok t1 →
  let b1 := body w h preserveContent (State d t1 r p) in
  let b2 := body w h preserveContent (State d t2 r p) in
  data b1.1 = data b2.1 ∧ remaining b1.1 = remaining b2.1 ∧
  pass b1.1 = pass b2.1 ∧ b1.2 = b2.2.
Proof.
  intros Hp Ht b1 b2. subst b1 b2. rewrite !body_eq. cbv zeta. simpl.
  assert (fills d (scan d w h t1) = fills d (scan d w h t2)) as Ef.
  { apply fills_ext; [apply scan_NoDup | apply scan_NoDup | by apply scan_aligned |].
    intros e. by apply scan_perm. }
  rewrite (scan_perm_length d w h t1 t2 Hp).
  destruct preserveContent; [simpl; by rewrite Ef|].
  destruct (_ =? 0); simpl; by rewrite Ef.
Qed.

Lemma pass_order_independent_witness :
  data (body 4 4 false (State (foldl clear Sample.white4 [20; 24; 36; 40])
                              [20; 24; 36; 40] 4 0)).1 =
  data (body 4 4 false (State (foldl clear Sample.white4 [20; 24; 36; 40])
                              [40; 24; 20; 36] 4 0)).1.
Proof.
  apply (pass_order_independent 4 4 false _ [20; 24; 36; 40] [40; 24; 20; 36] 4 0).
  - apply NoDup_Permutation; [by apply (bool_decide_unpack _).. |].
    intros x. rewrite !elem_of_cons, !elem_of_nil. tauto.
  - intros k Hk. right. repeat (apply elem_of_cons in Hk as [->|Hk]; [split; [lia | reflexivity]|]).
    by apply elem_of_nil in Hk.
Defined.

(** ** The budget that is always enough *)

Section ProgressFacts.
Implicit Types (d m : list Z) (w h : Z) (st : state).

Lemma body_remaining w h st :
  (body w h false st).2 = true → remaining (body w h false st).1 < remaining st.
Proof.
  rewrite body_eq. cbv zeta.
  destruct (Z.eqb_spec (Z.of_nat (length (scan (data st) w h (todoPixels st)))) 0);
    simpl; [done | lia].
Qed.

Lemma loop_progress turns w h st :
  let fin := (loop turns w h false st).1 in
  remaining fin <= 0 ∨ scan (data fin) w h (todoPixels fin) = [] ∨
  remaining fin + Z.of_nat turns <= remaining st.
Proof.
  revert st. induction turns as [|t IH]; intros st; cbv zeta.
  - right. right. simpl. lia.
  - rewrite loop_S. destruct (Z.ltb_spec 0 (remaining st)) as [Hr|Hr]; [|by left].
    destruct ((body w h false st).2) eqn:Hgo.
    + pose proof (body_remaining w h st Hgo) as Hlt.
      destruct (IH (body w h false st).1) as [H|[H|H]]; [by left | by right; left |].
      right. right. lia.
    + apply body_go in Hgo. rewrite body_idle by done. right. left. exact Hgo.
Qed.

Lemma loop_settled turns w h st :
  remaining st <= 0 ∨ scan (data st) w h (todoPixels st) = [] →
  data (loop turns w h false st).1 = data st.
Proof.
  intros [H|H]; [by rewrite loop_stop | by apply loop_idle].
Qed.

End ProgressFacts.

(** X5.  Under SpaceFill every pass that does not end the loop fills
    at least one pixel, so a budget of as many passes as the grid has
    hole pixels is always enough: a larger budget returns the same
    buffer. *)
Theorem spacefill_budget_saturates (data mData : list Z) (w h maxPasses : Z) :
  Z.of_nat (length (holes mData w h)) <= maxPasses →
  sharpDiffusion data mData w h maxPasses false =
  sharpDiffusion data mData w h (Z.of_nat (length (holes mData w h))) false.
Proof.
  intros Hn. rewrite !sharpDiffusion_eq. rewrite Nat2Z.id.
  set (H := length (holes mData w h)) in *.
  replace (Z.to_nat maxPasses) with (H + (Z.to_nat maxPasses - H))%nat by lia.
  unfold after. rewrite loop_add. apply loop_settled.
  destruct (loop_progress H w h (start data mData w h false)) as [E|[E|E]];
    [by left | by right |].
  left. rewrite start_eq in E at 2. simpl in E. fold H in E. lia.
Qed.

Lemma spacefill_budget_saturates_witness :
  sharpDiffusion Sample.white4 Sample.mask4 4 4 50 false =
  sharpDiffusion Sample.white4 Sample.mask4 4 4 4 false.
Proof.
  apply (spacefill_budget_saturates Sample.white4 Sample.mask4 4 4 50).
  vm_compute. discriminate.
Defined.

(** ** The front of the fill *)

Section FrontFacts.
Variables (d0 m : list Z) (w h : Z).
Implicit Types (st : state) (x y k : Z).

(** A pixel with alpha above 0 lies within [k] steps of a keep pixel. *)
Local Abbreviation seeded st k :=
  (∀ x y, in_grid w h x y → positive_at (data st) (offset w x y + 3) = true →
          ∃ kx ky, in_grid w h kx ky ∧ ¬ hole m (offset w kx ky) ∧ cheb x y kx ky <= k).

Lemma neighbors_cheb x y n kx ky :
  n ∈ neighbors x y → cheb x y kx ky <= cheb n.1 n.2 kx ky + 1.
Proof.
  unfold neighbors. intros Hn.
  repeat (apply elem_of_cons in Hn as [->|Hn]; [unfold cheb; simpl; lia|]).
  by apply elem_of_nil in Hn.
Qed.

Lemma seeded_mono st k k' : k <= k' → seeded st k → seeded st k'.
Proof.
  intros Hk Hs x y Hg Hp. destruct (Hs x y Hg Hp) as (kx & ky & ? & ? & ?).
  exists kx, ky. split_and!; [done..|lia].
Qed.

Lemma start_seeded : seeded (start d0 m w h false) 0.
Proof.
  rewrite start_eq. simpl. intros x y Hg Hp. exists x, y. split; [exact Hg|].
  split; [|unfold cheb; lia].
  intros Hh. unfold positive_at in Hp.
  destruct (rd (foldl clear d0 (holes m w h)) (offset w x y + 3)) as [a|] eqn:E; [|done].
  rewrite rd_cleared in E.
  - by injection E as <-.
  - apply elem_of_holes. split; [exact Hh|]. by exists x, y.
  - assert (is_Some (rd (foldl clear d0 (holes m w h)) (offset w x y + 3))) as Hs
      by (by eexists).
    apply rd_is_Some in Hs. rewrite length_cleared in Hs. by apply rd_is_Some.
Qed.

Lemma body_seeded st k :
  todo_ok (todoPixels st) → seeded st k → seeded (body w h false st).1 (k + 1).
Proof.
  intros Ht Hs x y Hg Hp.
  pose proof (offset_aligned _ _ _ _ Hg) as Ha.
  assert (positive_at (data st) (offset w x y + 3) = true →
          ∃ kx ky, in_grid w h kx ky ∧ ¬ hole m (offset w kx ky) ∧ cheb x y kx ky <= k + 1)
    as Hold.
  { intros Hp'. destruct (Hs x y Hg Hp') as (kx & ky & ? & ? & ?).
    exists kx, ky. split_and!; [done..|lia]. }
  destruct (decide (offset w x y ∈ todoPixels st)) as [Hin|Hout].
  - assert (offset w x y ≠ -1) as Hne by (destruct Ha; lia).
    pose proof (body_pixel w h false st _ 3 Ht Hin Hne ltac:(lia)) as E3.
    destruct (probe (data st) w h (offset w x y)) as [c|] eqn:Hc.
    + assert (is_Some (probe (data st) w h (offset w x y))) as Hsome by (by eexists).
      apply (probe_is_Some _ _ _ _ _ Hg) in Hsome as (n & Hn & Hv).
      apply valid_nb_iff in Hv as [Hgn Hpn].
      destruct (Hs n.1 n.2 Hgn Hpn) as (kx & ky & HK & Hkeep & Hd).
      exists kx, ky. split_and!; [done..|].
      pose proof (neighbors_cheb x y n kx ky Hn). lia.
    + apply Hold. unfold positive_at in *. by rewrite <- E3.
  - apply Hold. unfold positive_at in *.
    rewrite <- (body_frame w h false st (offset w x y + 3)); [done|].
    intros k0 Hk0 Hne0. apply aligned_disjoint; [exact Ha | | | lia].
    + destruct (Ht _ Hk0); done.
    + intros <-. done.
Qed.

Lemma loop_seeded turns : ∀ st k,
  todo_ok (todoPixels st) → seeded st k →
  seeded (loop turns w h false st).1 (k + Z.of_nat turns).
Proof.
  induction turns as [|t IH]; intros st k Ht Hs.
  - simpl. eapply seeded_mono; [|exact Hs]. lia.
  - rewrite loop_S. destruct (0 <? remaining st);
      [|eapply seeded_mono; [|exact Hs]; lia].
    pose proof (body_seeded st k Ht Hs) as Hb.
    destruct ((body w h false st).2).
    + replace (k + Z.of_nat (S t)) with (k + 1 + Z.of_nat t) by lia.
      apply IH; [|exact Hb]. intros k0 Hk0.
      apply body_todo in Hk0 as [->|Hk0]; [by left | by apply Ht].
    + eapply seeded_mono; [|exact Hb]. lia.
Qed.

End FrontFacts.

(** X6.  The fill advances one ring per pass.  In chart mode, on an
    image whose keep pixels are not transparent, a budget of [k] passes
    fills exactly the hole pixels that lie within [k] steps (in the
    eight directions) of a keep pixel: those are opaque after the call,
    and every hole pixel farther away is still transparent. *)
Theorem spacefill_front (data mData : list Z) (w h maxPasses : Z) (x y : Z) :
  sized w h data → keeps_count data mData w h → 0 <= maxPasses →
  in_grid w h x y → hole mData (offset w x y) →
  let out := sharpDiffusion data mData w h maxPasses false in
  (rd out (offset w x y + 3) = Some 255 ↔
   ∃ kx ky, in_grid w h kx ky ∧ ¬ hole mData (offset w kx ky) ∧
            cheb x y kx ky <= maxPasses) ∧
  (rd out (offset w x y + 3) = Some 255 ∨ rd out (offset w x y + 3) = Some 0).
Proof.
  intros Hs Hk Hmax Hg Hh out. subst out. rewrite sharpDiffusion_eq.
  assert (maxPasses = Z.of_nat (Z.to_nat maxPasses)) as Em by lia.
  set (turns := Z.to_nat maxPasses) in *.
  pose proof (after_fill_inv turns data mData w h) as Hinv.
  assert (offset w x y ∈ holes mData w h) as Hin by (apply elem_of_holes; eauto).
  destruct (sized_slot w h data x y 3 Hs Hg ltac:(lia)) as [a0 Ha0].
  assert (rd (Diffusion.data (after turns data mData w h false)) (offset w x y + 3) = Some 255 ∨
          rd (Diffusion.data (after turns data mData w h false)) (offset w x y + 3) = Some 0)
    as Hbin.
  { destruct (decide (offset w x y ∈ todoPixels (after turns data mData w h false)))
      as [Ht|Ht].
    - right. destruct (inv_open _ _ _ _ _ Hinv _ Hin Ht) as [E _]. by rewrite E, Ha0.
    - left. by rewrite (inv_done _ _ _ _ _ Hinv _ Hin Ht), Ha0. }
  split; [|exact Hbin]. split.
  - intros E.
    assert (todo_ok (todoPixels (start data mData w h false))) as Ht.
    { rewrite start_eq. simpl. intros k0 Hk0. right. by apply holes_aligned in Hk0. }
    pose proof (loop_seeded mData w h turns _ 0 Ht (start_seeded data mData w h)) as Hsd.
    destruct (Hsd x y Hg) as (kx & ky & HK & Hkeep & Hd).
    { unfold positive_at. unfold after in E. by rewrite E. }
    exists kx, ky. split_and!; [done..|lia].
  - intros (kx & ky & HK & Hkeep & Hd).
    pose proof (loop_reach data mData w h kx ky Hs Hk HK Hkeep turns
                  (start data mData w h false) 0 ltac:(lia)
                  (fill_inv_start data mData w h)) as Hr.
    assert (positive_at (Diffusion.data (after turns data mData w h false))
                        (offset w x y + 3) = true) as Hp.
    { apply Hr; [|done|lia]. intros x' y' Hg' Hc'.
      assert (x' = kx ∧ y' = ky) as [-> ->] by (unfold cheb in Hc'; lia).
      eapply keep_valid; [exact Hk | apply fill_inv_start | done | done]. }
    destruct Hbin as [E|E]; [done|]. unfold positive_at in Hp. by rewrite E in Hp.
Qed.

Lemma spacefill_front_witness :
  rd (sharpDiffusion Sample.white4 Sample.mask4 4 4 1 false) (offset 4 1 1 + 3) = Some 255.
Proof.
  apply (spacefill_front Sample.white4 Sample.mask4 4 4 1 1 1).
  - unfold sized. simpl. lia.
  - intros x y [Hx Hy] _.
    assert (x = 0 ∨ x = 1 ∨ x = 2 ∨ x = 3) as Hx' by lia.
    assert (y = 0 ∨ y = 1 ∨ y = 2 ∨ y = 3) as Hy' by lia.
    destruct Hx' as [-> | [-> | [-> | ->]]], Hy' as [-> | [-> | [-> | ->]]]; reflexivity.
  - lia.
  - unfold in_grid. lia.
  - reflexivity.
  - exists 0, 0. split_and!; [unfold in_grid; lia | vm_compute; discriminate | vm_compute; discriminate].
Defined.

(** X7.  Filling twice is filling once.  Under SpaceFill, the
    buffer a call returns is a fixed point of the call: the same mask
    and budget applied to the result give the result again, whether or
    not every hole pixel was reached. *)
Theorem spacefill_idempotent (data mData : list Z) (w h maxPasses : Z) :
  sized w h data →
  let out := sharpDiffusion data mData w h maxPasses false in
  sharpDiffusion out mData w h maxPasses false = out.
Proof.
  intros Hs out. subst out. rewrite !sharpDiffusion_eq.
  set (t := Z.to_nat maxPasses).
  set (out := Diffusion.data (after t data mData w h false)).
  assert (length data = length out) as Hl by (subst out; by rewrite after_length).
  assert (∀ j, ¬ hole_slot mData w h j → rd data j = rd out j) as Hd.
  { intros j Hj. subst out. by rewrite after_frame. }
  pose proof (masked_after data out mData w h t Hl Hd) as Hm. fold out in Hm.
  pose proof (after_fill_inv t out mData w h) as Hinv.
  set (out2 := Diffusion.data (after t out mData w h false)) in *.
  symmetry. apply list_eq_rd. intros j.
  destruct Hm as [_ Hm]. destruct (Hm j) as [?|(p & c & Hp & Hc & -> & Hn1 & Hn2)]; [done|].
  assert (hole_slot mData w h (4 * p + c) ∨ ¬ hole_slot mData w h (4 * p + c)) as [Hh|Hh].
  { rewrite hole_slot_iff.
    destruct (decide (Exists (λ idx, idx <= 4 * p + c <= idx + 3) (holes mData w h)))
      as [He|He]; rewrite Exists_exists in He; [by left | by right]. }
  - destruct Hh as (x & y & Hg & Hh & Hr).
    destruct (aligned_4 _ (offset_aligned w h x y Hg)) as (p' & Hp' & E).
    assert (p' = p) as -> by lia.
    assert (offset w x y ∈ holes mData w h) as Hin by (apply elem_of_holes; eauto).
    rewrite <- E in *.
    destruct (decide (offset w x y ∈ todoPixels (after t out mData w h false))) as [Ht|Ht].
    + destruct (inv_open _ _ _ _ _ Hinv _ Hin Ht) as [_ Hrgb]. symmetry. by apply Hrgb.
    + pose proof (inv_done _ _ _ _ _ Hinv _ Hin Ht) as E3. fold out2 in E3.
      assert (is_Some (rd out (offset w x y + 3))) as [a Ha].
      { apply rd_is_Some. rewrite <- Hl. apply rd_is_Some.
        by apply (sized_slot w h data x y 3). }
      unfold positive_at in Hn2. rewrite E3, Ha in Hn2. done.
  - subst out2. by rewrite after_frame.
Qed.

Lemma spacefill_idempotent_witness :
  sharpDiffusion (sharpDiffusion Sample.clear_left Sample.erase_right 2 1 2 false)
                 Sample.erase_right 2 1 2 false
  = sharpDiffusion Sample.clear_left Sample.erase_right 2 1 2 false.
Proof.
  apply (spacefill_idempotent Sample.clear_left Sample.erase_right 2 1 2).
  unfold sized. simpl. lia.
Defined.

(** * The service, further *)

Section OutcomeFacts.
Variable blend : Z → Z → Z.
Variable drawScaled : bool → Canvas → Z → Z → list Z.
Variable context_ok : canvas_id → Z → Z → bool.
Variable random : nat → Q.
Implicit Types (ctx maskCtx img mask out last : Canvas) (w h : Z).

(** On a canvas without pixels a level is skipped when its first
    canvas gets no context, and throws when it draws. *)
Lemma level_empty ctx maskCtx w h lastCanvas index scale :
  empty_raster (cw ctx) (ch ctx) = true →
  level blend drawScaled context_ok ctx maskCtx w h lastCanvas index scale =
    if context_ok (LevelCanvas index) (Qceiling (inject_Z w * scale))
                  (Qceiling (inject_Z h * scale))
    then inl CanvasException else inr lastCanvas.
Proof.
  intros He. unfold level. destruct (context_ok (LevelCanvas index) _ _); simpl; [|done].
  by rewrite He.
Qed.

Lemma level_full ctx maskCtx w h lastCanvas index scale :
  empty_raster (cw ctx) (ch ctx) = false →
  ∃ r, level blend drawScaled context_ok ctx maskCtx w h lastCanvas index scale = inr r.
Proof.
  intros He. unfold level. destruct (negb (context_ok (LevelCanvas _) _ _)); [by eexists|].
  rewrite He. destruct (negb (context_ok (LevelMask _) _ _)); [by eexists|].
  destruct lastCanvas; [|by eexists].
  destruct (negb (context_ok (GuessCanvas _) _ _)); by eexists.
Qed.

Lemma levels_empty ctx maskCtx w h ss lastCanvas index :
  empty_raster (cw ctx) (ch ctx) = true →
  levels blend drawScaled context_ok ctx maskCtx w h lastCanvas index ss =
    if some_level_canvas context_ok w h index ss
    then inl CanvasException else inr lastCanvas.
Proof.
  intros He. revert index. induction ss as [|scale ss IH]; intros index; simpl; [done|].
  rewrite (level_empty ctx maskCtx w h lastCanvas index scale He).
  destruct (context_ok (LevelCanvas index) _ _); [done | apply IH].
Qed.

Lemma levels_full ctx maskCtx w h ss lastCanvas index :
  empty_raster (cw ctx) (ch ctx) = false →
  ∃ r, levels blend drawScaled context_ok ctx maskCtx w h lastCanvas index ss = inr r.
Proof.
  intros He. revert lastCanvas index.
  induction ss as [|scale ss IH]; intros lastCanvas index; simpl; [by eexists|].
  destruct (level_full ctx maskCtx w h lastCanvas index scale He) as [r ->]. apply IH.
Qed.

(** The last turn of the [forEach] works at the size of the image. *)
Lemma pyramid_last ctx maskCtx w h r :
  level_given context_ok 3 w h →
  pyramid blend drawScaled context_ok ctx maskCtx w h = inr r →
  ∃ lc, level blend drawScaled context_ok ctx maskCtx w h lc 3%nat (Qmake 1 1) = inr r ∧
        empty_raster (cw ctx) (ch ctx) = false.
Proof.
  intros (Hok & _). unfold pyramid, scales. simpl levels.
  destruct (level _ _ _ _ _ _ _ _ _ (Qmake 1 8)) as [e|l0]; [done|].
  destruct (level _ _ _ _ _ _ _ _ _ (Qmake 1 4)) as [e|l1]; [done|].
  destruct (level _ _ _ _ _ _ _ _ _ (Qmake 1 2)) as [e|l2]; [done|].
  destruct (level _ _ _ _ _ _ _ _ _ (Qmake 1 1)) as [e|l3] eqn:E; [done|].
  intros [= <-]. exists l2. split; [exact E|].
  unfold level in E. rewrite !Qceiling_unit, Hok in E. simpl in E.
  by destruct (empty_raster _ _).
Qed.

Lemma pyramid_size ctx maskCtx w h last :
  level_given context_ok 3 w h →
  pyramid blend drawScaled context_ok ctx maskCtx w h = inr (Some last) →
  cw last = w ∧ ch last = h ∧ length (cdata last) = Z.to_nat (w * h * 4).
Proof.
  intros Hok Hp. destruct (pyramid_last _ _ _ _ _ Hok Hp) as (lc & E & He).
  destruct Hok as (H1 & H2 & H3).
  unfold level in E. rewrite !Qceiling_unit, H1, H2, H3, He in E. simpl in E.
  destruct lc; injection E as <-; simpl; (split_and!; [done..|]);
    rewrite length_through, sharpDiffusion_length; apply length_getImageData.
Qed.

(** The store leaves a buffer of opaque pixels as it is. *)
Lemma through_opaque_all w h d :
  0 <= w → 0 <= h → sized w h d →
  (∀ x y, in_grid w h x y → rd d (offset w x y + 3) = Some 255) →
  through blend d = d.
Proof.
  intros Hw Hh Hs Hop. apply list_eq_rd. intros j.
  destruct (decide (0 <= j < w * h * 4)) as [Hj|Hj].
  - destruct (grid_of_slot _ _ _ Hw Hh Hj) as (x & y & k & Hg & Hk & ->).
    apply through_opaque; [by eapply offset_aligned | by apply Hop | done].
  - assert (rd d j = None) as -> by (apply rd_None; unfold sized in Hs; lia).
    apply rd_None. rewrite length_through. unfold sized in Hs. lia.
Qed.

End OutcomeFacts.

(** X8.  When [performInpainting] rejects.  With both images decoded
    the outcome depends on the size of the image and on the contexts
    the browser gives, never on the mask or the pixels: "Canvas error"
    when the canvas of the image gets no context; else "Mask error" when
    the canvas of the mask gets none; else, for an image without pixels,
    a caught canvas exception in chart mode, and in photo mode as soon
    as a level of the pyramid gets the context of its first canvas (the
    scaled draw then throws; with no such level the empty canvas is
    returned); a result in every other case. *)
Theorem performInpainting_outcome blend drawScaled context_ok random
    (img mask : Canvas) (mode : InpaintMode) :
  let w := cw img in
  let h := ch img in
  let r := performInpainting blend drawScaled context_ok random (Some img) (Some mask) mode in
  if negb (context_ok ImageCanvas w h) then r = inl CanvasError
  else if negb (context_ok MaskCanvas w h) then r = inl MaskError
  else if empty_raster w h &&
          match mode with Chart => true | Photo => level_drawn context_ok w h end
  then r = inl CanvasException
  else ∃ out, r = inr out.
Proof.
  cbv zeta. unfold performInpainting.
  destruct (context_ok ImageCanvas (cw img) (ch img)); simpl; [|done].
  destruct (context_ok MaskCanvas (cw img) (ch img)); simpl; [|done].
  destruct (empty_raster (cw img) (ch img)) eqn:He; simpl.
  - destruct mode; [done|]. unfold hierarchicalInpaint, pyramid, level_drawn.
    rewrite levels_empty by done.
    destruct (some_level_canvas _ _ _ _ _); [done | by eexists].
  - destruct mode; [by eexists|]. unfold hierarchicalInpaint.
    destruct (levels_full blend drawScaled context_ok
                (drawImage00 blend img (cw img) (ch img))
                (drawImage00 blend mask (cw img) (ch img))
                (cw img) (ch img) scales None 0%nat He) as [r Hr].
    unfold pyramid. rewrite Hr. rewrite He. destruct r; by eexists.
Qed.

(** X9.  The source comment "the lastCanvas is already 1.0 scale":
    where the browser gives the canvases of the finest level their
    contexts, the canvas the pyramid ends with has the width and the
    height of the image, and reading it back at full size
    ([smoothData]) returns its buffer byte for byte. *)
Theorem pyramid_full_scale blend drawScaled context_ok
    (ctx maskCtx : Canvas) (w h : Z) (last : Canvas) :
  level_given context_ok 3 w h →
  pyramid blend drawScaled context_ok ctx maskCtx w h = inr (Some last) →
  cw last = w ∧ ch last = h ∧ 0 < cw ctx ∧ 0 < ch ctx ∧
  (0 <= w → 0 <= h → sized w h (cdata last) ∧ getImageData last w h = cdata last).
Proof.
  intros Hok Hp.
  destruct (pyramid_size _ _ _ _ _ _ _ _ Hok Hp) as (Ew & Eh & El).
  destruct (pyramid_last _ _ _ _ _ _ _ _ Hok Hp) as (_ & _ & Hne).
  unfold empty_raster in Hne. apply orb_false_iff in Hne as [H1 H2].
  apply Z.leb_gt in H1, H2. split_and!; [done..|].
  intros Hw Hh. assert (sized w h (cdata last)) as Hs by (unfold sized; rewrite El; lia).
  split; [exact Hs|]. destruct last as [lw lh ld]. simpl in *. subst lw lh.
  by apply getImageData_id.
Qed.

Lemma pyramid_full_scale_witness :
  ∃ last,
    pyramid nearest Sample.flat_draw Sample.granted Sample.one_px
      (drawImage00 nearest Sample.hole_px 1 1) 1 1
      = inr (Some last) ∧
    cw last = 1 ∧ ch last = 1.
Proof.
  exists (MkCanvas 1 1 [10; 11; 12; 255]).
  destruct (pyramid_full_scale nearest Sample.flat_draw Sample.granted Sample.one_px
              (drawImage00 nearest Sample.hole_px 1 1) 1 1 (MkCanvas 1 1 [10; 11; 12; 255])
              (conj eq_refl (conj eq_refl eq_refl)) eq_refl) as (Ew & Eh & _).
  split; [vm_compute; reflexivity | split; [exact Ew | exact Eh]].
Defined.

(** ** The guess of the coarser level *)

Section GuessFacts.
Implicit Types (g cur m fd smooth l : list Z) (i j c : Z).

(** The colour Step 3 stores at the pixel at offset [i]. *)
Local Abbreviation guess_px g :=
  (λ i, (i, (rd0 g i, rd0 g (i + 1), rd0 g (i + 2), 255))).

Lemma inject_fills g m l cur :
  foldl (inject_step g m) cur l = fills cur (guess_px g <$> filter (hole m) l).
Proof.
  revert cur. induction l as [|i l IH]; intros cur; [done|]. simpl.
  rewrite IH. unfold inject_step. destruct (decide (hole m i)) as [Hh|Hh].
  - rewrite (filter_cons_True _ _ _ Hh). unfold hole in Hh. rewrite Hh. reflexivity.
  - rewrite (filter_cons_False _ _ _ Hh). unfold hole in Hh.
    by destruct (below128 m (i + 3)).
Qed.

Lemma guess_keys g l : (guess_px g <$> l).*1 = l.
Proof. induction l as [|a l IH]; [done|]. rewrite !fmap_cons, IH. done. Qed.

End GuessFacts.

(** X10.  Step 3 of a pyramid level, the guess of the coarser level.
    For a guess of bytes as long as the level's buffer: a hole pixel of
    the level takes R, G and B of the guess and becomes opaque, and
    every other pixel is left as it is. *)
Theorem inject_guess_spec (guessData currentData currentMaskData : list Z) (i : Z) :
  Forall is_byte guessData → length currentData = length guessData → aligned i →
  let out := inject_guess guessData currentData currentMaskData in
  (hole currentMaskData i →
     (∀ c, 0 <= c < 3 → rd out (i + c) = rd guessData (i + c)) ∧
     rd out (i + 3) = (const 255 <$> rd currentData (i + 3))) ∧
  (¬ hole currentMaskData i →
     ∀ c, 0 <= c <= 3 → rd out (i + c) = rd currentData (i + c)).
Proof.
  intros Hb Hlen Ha out. subst out. unfold inject_guess. rewrite inject_fills.
  set (len := Z.of_nat (length guessData)).
  set (keys := filter (hole currentMaskData) (strides4 len)).
  assert (NoDup keys) as Hnd by apply NoDup_filter, NoDup_strides4.
  assert (∀ k, k ∈ keys → aligned k) as Hal.
  { intros k [_ [Hk _]%elem_of_strides4]%list_elem_of_filter. exact Hk. }
  assert (∀ c, 0 <= c <= 3 → i ∉ keys →
            rd (fills currentData ((λ i, (i, (rd0 guessData i, rd0 guessData (i + 1),
                                              rd0 guessData (i + 2), 255))) <$> keys)) (i + c)
            = rd currentData (i + c)) as Hout.
  { intros c Hc Hni. apply rd_fills_out. rewrite guess_keys. intros k Hk.
    apply aligned_disjoint; [exact Ha | by apply Hal | | exact Hc]. intros ->. done. }
  split.
  - intros Hh. destruct (decide (i < len)) as [Hl|Hl].
    + assert (i ∈ keys) as Hi.
      { apply list_elem_of_filter. split; [exact Hh|]. by apply elem_of_strides4. }
      assert (∀ c, 0 <= c <= 3 →
                rd (fills currentData ((λ i, (i, (rd0 guessData i, rd0 guessData (i + 1),
                                                  rd0 guessData (i + 2), 255))) <$> keys)) (i + c)
                = (const (clamp8 (chan (rd0 guessData i, rd0 guessData (i + 1),
                                        rd0 guessData (i + 2), 255) c))
                   <$> rd currentData (i + c))) as Hin.
      { intros c Hc. apply rd_fills_in; [by rewrite guess_keys | by rewrite guess_keys | | exact Hc].
        apply list_elem_of_fmap. by exists i. }
      split; [|by rewrite Hin by lia].
      intros c Hc. rewrite Hin by lia.
      assert (clamp8 (chan (rd0 guessData i, rd0 guessData (i + 1),
                            rd0 guessData (i + 2), 255) c) = rd0 guessData (i + c)) as ->.
      { rewrite <- (clamp8_id (rd0 guessData (i + c))) by (by apply rd0_byte).
        f_equal. unfold chan.
        destruct (Z.eqb_spec c 0) as [->|]; [by rewrite Z.add_0_r|].
        destruct (Z.eqb_spec c 1) as [->|]; [done|].
        destruct (Z.eqb_spec c 2) as [->|]; [done | lia]. }
      unfold rd0. destruct (rd guessData (i + c)) as [v|] eqn:Ev.
      * assert (is_Some (rd currentData (i + c))) as [u ->]; [|done].
        apply rd_is_Some. rewrite Hlen. apply rd_is_Some. by eexists.
      * assert (rd currentData (i + c) = None) as ->; [|done].
        apply rd_None. rewrite Hlen. by apply rd_None.
    + assert (i ∉ keys) as Hni.
      { intros [_ [_ ?]%elem_of_strides4]%list_elem_of_filter. lia. }
      assert (∀ c, 0 <= c <= 3 → rd currentData (i + c) = None) as Hn.
      { intros c Hc. apply rd_None. rewrite Hlen. fold len. lia. }
      split.
      * intros c Hc. rewrite Hout, Hn by (done || lia). symmetry.
        apply rd_None. fold len. lia.
      * rewrite Hout, Hn by (done || lia). done.
  - intros Hh c Hc. apply Hout; [exact Hc|].
    intros [Hh' _]%list_elem_of_filter. done.
Qed.

Lemma inject_guess_spec_witness :
  rd (inject_guess [10; 11; 12; 255; 13; 14; 15; 255] Sample.two_px Sample.erase_right)
     (4 + 1) = Some 14 ∧
  rd (inject_guess [10; 11; 12; 255; 13; 14; 15; 255] Sample.two_px Sample.erase_right)
     (0 + 1) = Some 60.
Proof.
  split.
  - apply (inject_guess_spec [10; 11; 12; 255; 13; 14; 15; 255] Sample.two_px
             Sample.erase_right 4);
      [repeat constructor; unfold is_byte; lia | reflexivity | split; [lia | reflexivity]
      | reflexivity | lia].
  - apply (inject_guess_spec [10; 11; 12; 255; 13; 14; 15; 255] Sample.two_px
             Sample.erase_right 0);
      [repeat constructor; unfold is_byte; lia | reflexivity | split; [lia | reflexivity]
      | vm_compute; discriminate | lia].
Defined.

(** ** The noise samples *)

(** X11.  The order of the [Math.random()] calls.  The texturizer
    draws one sample per hole pixel, in row-major order: the hole pixel
    at offset [i] is textured with sample number [k], where [k] counts
    the hole pixels before it, and the whole loop draws as many samples
    as the buffer has hole pixels. *)
Theorem texturize_sample_order (random : nat → Q)
    (finalData smoothData mData : list Z) (i : Z) :
  aligned i → hole mData i → is_Some (rd finalData (i + 3)) →
  let k := length (filter (hole mData) (strides4 i)) in
  (∀ c, 0 <= c < 3 →
     rd (texturize random finalData smoothData mData) (i + c) =
       Some (textured smoothData (i + c) (noise_of (random k)))) ∧
  (foldl (texture_step random smoothData mData) (finalData, 0%nat)
         (strides4 (Z.of_nat (length finalData)))).2 =
    length (filter (hole mData) (strides4 (Z.of_nat (length finalData)))).
Proof.
  intros Ha Hh Hs k. split; [|by rewrite texture_count].
  assert (i < Z.of_nat (length finalData)) as Hl by (apply rd_is_Some in Hs; lia).
  destruct (strides4_split _ _ Ha Hl) as [rest Er].
  pose proof (NoDup_strides4 (Z.of_nat (length finalData))) as Hnd.
  pose proof (strides4_aligned (Z.of_nat (length finalData))) as Hal.
  rewrite Er in Hnd, Hal.
  apply NoDup_app in Hnd as (Hn1 & Hd & Hn2). apply NoDup_cons in Hn2 as [Hni Hn2].
  apply Forall_app in Hal as [Hal1 Hal2]. apply Forall_cons in Hal2 as [_ Hal2].
  unfold texturize. rewrite Er, foldl_app. simpl foldl.
  set (st1 := foldl (texture_step random smoothData mData) (finalData, 0%nat) (strides4 i)).
  assert (st1.2 = k) as Ek.
  { subst st1 k. rewrite texture_count. lia. }
  destruct (texture_fold random smoothData mData (strides4 i) (finalData, 0%nat) Hn1 Hal1)
    as (Hlen1 & _ & _). fold st1 in Hlen1. simpl in Hlen1.
  assert (is_Some (rd st1.1 (i + 3))) as Hs1.
  { apply rd_is_Some. rewrite Hlen1. by apply rd_is_Some. }
  destruct (texture_step_hole random smoothData mData st1 i Hh ltac:(destruct Ha; lia) Hs1)
    as [Hc _].
  intros c Hc3.
  destruct (texture_fold random smoothData mData rest
              (texture_step random smoothData mData st1 i) Hn2 Hal2) as (_ & Hfr & _).
  rewrite Hfr.
  - rewrite Hc by done. by rewrite Ek.
  - intros i' Hi' _. apply aligned_disjoint; [exact Ha | | | lia].
    + eapply Forall_forall in Hal2; done.
    + intros ->. done.
Qed.

Lemma texturize_sample_order_witness :
  rd (texturize (λ k, Qmake (Z.of_nat k) 4) [1; 2; 3; 255; 4; 5; 6; 255]
                [10; 10; 10; 255; 20; 20; 20; 255] [0; 0; 0; 0; 0; 0; 0; 0]) (4 + 0)
  = Some 17.
Proof.
  destruct (texturize_sample_order (λ k, Qmake (Z.of_nat k) 4) [1; 2; 3; 255; 4; 5; 6; 255]
              [10; 10; 10; 255; 20; 20; 20; 255] [0; 0; 0; 0; 0; 0; 0; 0] 4
              ltac:(split; [lia | reflexivity]) eq_refl ltac:(by eexists)) as [H _].
  rewrite (H 0 ltac:(lia)). vm_compute. reflexivity.
Defined.

(** X12.  A mask that erases nothing.  If the mask, fitted to the
    image, has no hole pixel, whatever [performInpainting] returns is
    the image as the canvas holds it, in chart mode and in photo mode
    (the pyramid runs, but the final loop stores nothing): the size of
    the image and its bytes written and read back, twice when the
    buffer was put back on the canvas.  For an opaque image this is the
    image itself, byte for byte. *)
Theorem performInpainting_no_hole blend drawScaled context_ok random
    (img mask : Canvas) (mode : InpaintMode) (out : Canvas) :
  wf_raster img →
  (∀ x y, in_grid (cw img) (ch img) x y →
          ¬ hole (cdata (crop mask (cw img) (ch img))) (offset (cw img) x y)) →
  performInpainting blend drawScaled context_ok random (Some img) (Some mask) mode = inr out →
  cw out = cw img ∧ ch out = ch img ∧
  (cdata out = through blend (cdata img) ∨
   cdata out = through blend (through blend (cdata img))) ∧
  ((∀ x y, in_grid (cw img) (ch img) x y →
           rd (cdata img) (offset (cw img) x y + 3) = Some 255) →
   out = img).
Proof.
  intros Hwf Hn Hp. pose proof Hwf as (Hw & Hh & Hs).
  destruct (perform_size _ _ _ _ _ _ _ _ Hwf Hp) as (Ew & Eh & Hso).
  assert (cdata out = through blend (cdata img) ∨
          cdata out = through blend (through blend (cdata img))) as Hd.
  { pose proof (perform_shape _ _ _ _ img mask mode out Hwf Hp) as Hsh. cbv zeta in Hsh.
    destruct Hsh as (Ec & [(_ & _ & ->)|(_ & _ & d & -> & Hl & Hd & _)]); [by left|].
    right. unfold putData. cbn [cdata]. f_equal. rewrite <- Ec.
    apply list_eq_rd. intros j.
    destruct (decide (0 <= j < cw img * ch img * 4)) as [Hj|Hj].
    - destruct (grid_of_slot _ _ _ Hw Hh Hj) as (x & y & k & Hg & Hk & ->).
      apply Hd; [done | | done]. rewrite hole_fitted by done. by apply Hn.
    - assert (rd d j = None) as -> by (apply rd_None; unfold sized in Hs; lia).
      symmetry. apply rd_None. rewrite Ec, length_through. unfold sized in Hs. lia. }
  split_and!; [done..|]. intros Hop.
  assert (through blend (cdata img) = cdata img) as Et
    by (by apply (through_opaque_all blend (cw img) (ch img))).
  assert (cdata out = cdata img) as Ed by (destruct Hd as [-> | ->]; by rewrite !Et).
  destruct out, img. simpl in *. congruence.
Qed.

Lemma performInpainting_no_hole_witness :
  performInpainting nearest Sample.flat_draw Sample.granted Sample.random58
    (Some (MkCanvas 2 1 Sample.two_px)) (Some Sample.keep_2x1) Photo
  = inr (MkCanvas 2 1 Sample.two_px).
Proof.
  assert (∃ out, performInpainting nearest Sample.flat_draw Sample.granted Sample.random58
                   (Some (MkCanvas 2 1 Sample.two_px)) (Some Sample.keep_2x1) Photo = inr out)
    as [out Ho] by (eexists; vm_compute; reflexivity).
  rewrite Ho. f_equal.
  destruct (performInpainting_no_hole nearest Sample.flat_draw Sample.granted
              Sample.random58 (MkCanvas 2 1 Sample.two_px) Sample.keep_2x1 Photo out)
    as (_ & _ & _ & H); [unfold wf_raster, sized; simpl; lia | | exact Ho |].
  - intros x y [Hx Hy]. simpl in Hx, Hy.
    assert (y = 0) as -> by lia.
    assert (x = 0 ∨ x = 1) as [-> | ->] by lia; vm_compute; discriminate.
  - apply H. intros x y [Hx Hy]. simpl in Hx, Hy.
    assert (y = 0) as -> by lia.
    assert (x = 0 ∨ x = 1) as [-> | ->] by lia; reflexivity.
Defined.

(** * The deck *)

Section DeckFacts.
Context {OCRResult : Type}.
Variable generateId : nat → string.
Implicit Types (st prev : AppState OCRResult) (s : Slide OCRResult)
               (l : list (Slide OCRResult)) (a b : string) (i j : nat).

Lemma findSlide_Some a l i s :
  findSlide a l = Some (i, s) →
  l !! i = Some s ∧ id s = a ∧ ∀ j y, l !! j = Some y → (j < i)%nat → id y ≠ a.
Proof. unfold findSlide. intros H. by apply list_find_Some in H. Qed.

Lemma findSlide_None a l : findSlide a l = None ↔ a ∉ id <$> l.
Proof.
  unfold findSlide. rewrite list_find_None, Forall_forall, list_elem_of_fmap. split.
  - intros H (s & -> & Hs). by apply (H s).
  - intros H s Hs E. apply H. by exists s.
Qed.

Lemma findSlide_elem a l : a ∈ id <$> l → is_Some (findSlide a l).
Proof.
  intros H. destruct (findSlide a l) eqn:E; [by eexists|].
  by apply findSlide_None in E.
Qed.

Lemma ids_insert l i s s' :
  l !! i = Some s → id s' = id s → id <$> <[i := s']> l = id <$> l.
Proof.
  intros Hl E. rewrite list_fmap_insert, E. apply list_insert_id.
  by rewrite list_lookup_fmap, Hl.
Qed.

Lemma findSlide_insert a l i s s' :
  findSlide a l = Some (i, s) → id s' = a →
  findSlide a (<[i := s']> l) = Some (i, s').
Proof.
  intros (Hl & Hs & Hm)%findSlide_Some E. unfold findSlide. apply list_find_Some.
  split_and!.
  - apply list_lookup_insert_eq. by eapply lookup_lt_Some.
  - exact E.
  - intros j y Hj Hlt. rewrite list_lookup_insert_ne in Hj by lia. by eapply Hm.
Qed.

Lemma activeSlide_find st a i s :
  activeSlideId st = Some a → findSlide a (slides st) = Some (i, s) →
  activeSlide st = Some s.
Proof.
  intros Ha (Hl & Hs & Hm)%findSlide_Some. unfold activeSlide. rewrite Ha.
  assert (list_find (λ s0, Some (id s0) = Some a) (slides st) = Some (i, s)) as ->; [|done].
  apply list_find_Some. split_and!; [done | by rewrite Hs |].
  intros j y Hj Hlt [= E]. by eapply Hm.
Qed.

Lemma coherent_ids st st' :
  activeSlideId st' = activeSlideId st → step st' = step st →
  id <$> slides st' = id <$> slides st →
  coherent st → coherent st'.
Proof. unfold coherent. intros -> -> ->. done. Qed.

(** An update of the slide found keeps the identifiers. *)
Lemma with_slides_coherent st a i s s' :
  findSlide a (slides st) = Some (i, s) → id s' = id s →
  coherent st → coherent (with_slides st (<[i := s']> (slides st))).
Proof.
  intros (Hl & _)%findSlide_Some E. apply coherent_ids; [done..|]. simpl.
  by eapply ids_insert.
Qed.

Lemma handleMaskCancel_coherent st : coherent st → coherent (handleMaskCancel st).
Proof.
  intros Hc. unfold handleMaskCancel. destruct (activeSlideId st) as [a|] eqn:Ea; [|done].
  destruct (nonempty a); [|done].
  destruct (findSlide a (slides st)) as [[i s]|] eqn:Ef; [|done].
  destruct (isRefineMode s); [|done]. by eapply with_slides_coherent.
Qed.

Lemma handleRefine_coherent act st : coherent st → coherent (handleRefine act st).
Proof.
  intros Hc. unfold handleRefine. destruct act as [a|]; [|done].
  destruct (nonempty a); [|done].
  destruct (findSlide a (slides st)) as [[i s]|] eqn:Ef; [|done].
  by eapply with_slides_coherent.
Qed.

Lemma handleRevertToOriginal_coherent act st :
  coherent st → coherent (handleRevertToOriginal act st).
Proof.
  intros Hc. unfold handleRevertToOriginal. destruct act as [a|]; [|done].
  destruct (nonempty a); [|done].
  destruct (findSlide a (slides st)) as [[i s]|] eqn:Ef; [|done].
  by eapply with_slides_coherent.
Qed.

Lemma deleteSlide_slides a st :
  slides (deleteSlide a st) = filter (λ s, id s ≠ a) (slides st).
Proof. unfold deleteSlide. by destruct (filter _ _). Qed.

Lemma deleteSlide_coherent a st : coherent st → coherent (deleteSlide a st).
Proof.
  intros Hc. unfold deleteSlide.
  destruct (filter (λ s, id s ≠ a) (slides st)) as [|s0 l'] eqn:Ef; [done|].
  unfold coherent in *. cbn [activeSlideId step slides].
  destruct (decide (Some a = activeSlideId st)) as [E|N].
  - rewrite fmap_cons. left.
  - destruct (activeSlideId st) as [c|]; [|done].
    apply list_elem_of_fmap in Hc as (s & -> & Hs). apply list_elem_of_fmap.
    exists s. split; [done|]. rewrite <- Ef. apply list_elem_of_filter.
    split; [|done]. intros E. apply N. by rewrite E.
Qed.

Lemma handleImagesUpload_Some images st st' :
  handleImagesUpload generateId images st = Some st' →
  step st' = EDITOR ∧
  slides st' = slides st ++ imap (newSlide generateId) images ∧
  ((truthy (activeSlideId st) = true ∧ activeSlideId st' = activeSlideId st) ∨
   (truthy (activeSlideId st) = false ∧
    ∃ img rest, images = img :: rest ∧ activeSlideId st' = Some (generateId 0%nat))).
Proof.
  unfold handleImagesUpload. destruct (truthy (activeSlideId st)) eqn:Et.
  - intros [= <-]. simpl. split_and!; [done..|]. by left.
  - destruct images as [|img rest]; [done|]. simpl. intros [= <-]. simpl.
    split_and!; [done..|]. right. split; [done|]. by exists img, rest.
Qed.

Lemma truthy_Some act : truthy act = true → ∃ a, act = Some a ∧ nonempty a = true.
Proof. destruct act as [a|]; [|done]. intros H. by exists a. Qed.

Lemma handleImagesUpload_coherent images st st' :
  handleImagesUpload generateId images st = Some st' → coherent st → coherent st'.
Proof.
  intros (Hstep & Hsl & [[Ht Ha]|(Ht & img & rest & -> & Ha)])%handleImagesUpload_Some Hc;
    unfold coherent in *; rewrite Ha, Hsl, fmap_app.
  - apply truthy_Some in Ht as (a & Ea & _). rewrite Ea in *.
    apply elem_of_app. by left.
  - apply elem_of_app. right. rewrite imap_cons, fmap_cons. left.
Qed.

Lemma array_store_Some {A} (xs ys : list A) i v :
  array_store xs i v = Some ys →
  ((i < length xs)%nat ∧ ys = <[i := v]> xs) ∨ (i = length xs ∧ ys = xs ++ [v]).
Proof.
  unfold array_store. destruct (Nat.ltb_spec i (length xs)); [intros [= <-]; by left|].
  destruct (Nat.eqb_spec i (length xs)); [intros [= <-]; by right | done].
Qed.

Lemma processingDone_coherent i cur img ocr st st' :
  (∀ s, slides st !! i = Some s → id s = id cur) →
  processingDone i cur img ocr st = Some st' → coherent st → coherent st'.
Proof.
  intros Hid. unfold processingDone.
  destruct (array_store _ _ _) as [l'|] eqn:Es; [|done]. simpl. intros [= <-].
  apply array_store_Some in Es as [[Hi ->]|[-> ->]]; unfold coherent; simpl.
  - destruct (lookup_lt_is_Some_2 (slides st) i Hi) as [s Hs].
    rewrite (ids_insert _ _ s); [done | done |]. simpl. symmetry. by apply Hid.
  - destruct (activeSlideId st); [|done]. rewrite fmap_app. intros H.
    apply elem_of_app. by left.
Qed.

End DeckFacts.

(** X13.  The selection never dangles.  A state is coherent when the
    selected identifier belongs to a slide of the deck, and nothing is
    selected only outside the editor.  The initial state is coherent
    and every update of [App.tsx] keeps a coherent state coherent: the
    key handlers, an upload that does not throw, deleting any slide,
    clicking a slide of the deck, "new page", cancel, refine, revert,
    reset, and the updates of a processing run (for the last one, as
    long as the slot it stores into still holds the slide it read). *)
Theorem selection_kept {OCRResult : Type} (generateId : nat → string) :
  coherent (initialState (OCRResult := OCRResult)) ∧
  coherent (handleClearApiKey (OCRResult := OCRResult)).2 ∧
  ∀ prev : AppState OCRResult, coherent prev →
    (∀ key, coherent (restoreApiKey key prev)) ∧
    (∀ key, coherent (handleSaveApiKey key prev).2) ∧
    (∀ images st', handleImagesUpload generateId images prev = Some st' → coherent st') ∧
    (∀ id0, coherent (deleteSlide id0 prev)) ∧
    (∀ slideId, slideId ∈ id <$> slides prev → coherent (selectSlide slideId prev)) ∧
    coherent (addPage prev) ∧
    coherent (handleMaskCancel prev) ∧
    (∀ act, coherent (handleRefine act prev)) ∧
    (∀ act, coherent (handleRevertToOriginal act prev)) ∧
    coherent (handleResetAll prev) ∧
    (∀ text, coherent (processingBegin text prev) ∧ coherent (setStatusText text prev)) ∧
    coherent (processingFailed prev) ∧
    (∀ i cur img ocr st',
       (∀ s, slides prev !! i = Some s → id s = id cur) →
       processingDone i cur img ocr prev = Some st' → coherent st').
Proof.
  split; [done|]. split; [done|]. intros prev Hc. split_and!.
  - intros [key|]; [|done]. unfold restoreApiKey. destruct (nonempty key); [|done].
    unfold coherent in *. simpl. by destruct (activeSlideId prev).
  - intros key. unfold coherent in *. simpl. by destruct (activeSlideId prev).
  - intros images st' H. by eapply handleImagesUpload_coherent.
  - intros id0. by apply deleteSlide_coherent.
  - intros slideId H. exact H.
  - unfold coherent in *. simpl. by destruct (activeSlideId prev).
  - by apply handleMaskCancel_coherent.
  - intros act. by apply handleRefine_coherent.
  - intros act. by apply handleRevertToOriginal_coherent.
  - done.
  - intros text. split; exact Hc.
  - exact Hc.
  - intros i cur img ocr st' Hid H. by eapply processingDone_coherent.
Qed.

Lemma selection_kept_witness :
  coherent (deleteSlide "b" Desk.deck) ∧ activeSlideId (deleteSlide "b" Desk.deck) = Some "a"%string.
Proof.
  destruct (selection_kept (OCRResult := unit) Desk.ids) as (_ & _ & H).
  destruct (H Desk.deck) as (_ & _ & _ & Hd & _).
  - unfold coherent. simpl. apply list_elem_of_further, list_elem_of_here.
  - split; [apply Hd | reflexivity].
Defined.

(** X14.  In a coherent state the editor always shows a slide: the
    main area is the masking view or the result view of the selected
    slide, never the placeholder "please select a slide". *)
Theorem editor_shows_slide {OCRResult : Type} (st : AppState OCRResult) :
  coherent st → step st = EDITOR →
  ∃ s, s ∈ slides st ∧ activeSlideId st = Some (id s) ∧ activeSlide st = Some s ∧
       (mainView st = ShowMasking (inpaintSource s) ∨ mainView st = ShowResult s).
Proof.
  intros Hc He. unfold coherent in Hc.
  destruct (activeSlideId st) as [a|] eqn:Ea; [|done].
  destruct (findSlide_elem _ _ Hc) as [[i s] Hf].
  pose proof (activeSlide_find st a i s Ea Hf) as Hs.
  apply findSlide_Some in Hf as (Hl & <- & _).
  exists s. split_and!; [by eapply list_elem_of_lookup_2 | done | done |].
  unfold mainView. rewrite He, Hs.
  destruct (bool_decide (status s = PENDING) || isRefineMode s); [by left | by right].
Qed.

Lemma editor_shows_slide_witness : mainView Desk.deck = ShowResult Desk.slideB.
Proof.
  destruct (editor_shows_slide Desk.deck) as (s & _ & Hid & Hs & _).
  - unfold coherent. simpl. apply list_elem_of_further, list_elem_of_here.
  - reflexivity.
  - reflexivity.
Defined.

Section DeleteFacts.
Context {OCRResult : Type}.
Implicit Types (st prev : AppState OCRResult) (s : Slide OCRResult)
               (l : list (Slide OCRResult)) (a b : string).

Lemma filter_ids_comm a b l :
  filter (λ s, id s ≠ a) (filter (λ s, id s ≠ b) l) =
  filter (λ s, id s ≠ b) (filter (λ s, id s ≠ a) l).
Proof.
  rewrite !list_filter_filter. apply list_filter_iff. intros s. tauto.
Qed.

(** The state after [deleteSlide], field by field. *)
Lemma deleteSlide_eq a st :
  deleteSlide a st =
    let l' := filter (λ s, id s ≠ a) (slides st) in
    MkApp (if decide (l' = []) then UPLOAD else step st) l'
          (match head l' with
           | None => None
           | Some s0 => if decide (Some a = activeSlideId st) then Some (id s0)
                        else activeSlideId st
           end)
          (isGlobalProcessing st) (globalStatusText st) (apiKey st).
Proof.
  unfold deleteSlide. cbv zeta. by destruct (filter _ _).
Qed.

Lemma head_filter_keep a l s0 l' :
  l = s0 :: l' → id s0 ≠ a → head (filter (λ s, id s ≠ a) l) = Some s0.
Proof. intros -> H. by rewrite filter_cons_True. Qed.

Lemma deleteSlide_comm_ne a b st :
  a ≠ b → deleteSlide a (deleteSlide b st) = deleteSlide b (deleteSlide a st).
Proof.
  intros Hab. rewrite !(deleteSlide_eq a), !(deleteSlide_eq b). cbv zeta. simpl.
  rewrite (filter_ids_comm a b).
  set (L := slides st). set (La := filter (λ s, id s ≠ a) L).
  set (Lb := filter (λ s, id s ≠ b) L). set (Lab := filter (λ s, id s ≠ b) La).
  assert (Lab = filter (λ s, id s ≠ a) Lb) as ELab by (subst Lab La Lb; apply filter_ids_comm).
  f_equal.
  - destruct (decide (Lab = [])) as [E0|N0]; [done|].
    destruct (decide (Lb = [])) as [Eb|Nb].
    { exfalso. apply N0. rewrite ELab, Eb. done. }
    destruct (decide (La = [])) as [Ea|Na]; [|done].
    exfalso. apply N0. subst Lab. rewrite Ea. done.
  - destruct (head Lab) as [s0|] eqn:Hh; [|done].
    apply head_Some in Hh as [rest Hh].
    destruct Lb as [|sb Lb'] eqn:Eb; [by rewrite ELab in Hh|].
    destruct La as [|sa La'] eqn:Ea; [done|]. simpl.
    destruct (decide (Some b = activeSlideId st)) as [Eact|Nact].
    + (* the selected slide is [b] *)
      destruct (decide (Some a = activeSlideId st)) as [E'|_]; [congruence|].
      rewrite (decide_True _ _ Eact).
      destruct (decide (Some a = Some (id sb))) as [E1|N1]; [done|].
      (* [sb] survives the filter of [a] and heads the list *)
      assert (head (filter (λ s, id s ≠ a) (sb :: Lb')) = Some sb) as Hsb.
      { eapply head_filter_keep; [done|]. intros E. apply N1. by rewrite E. }
      rewrite <- ELab, Hh in Hsb. simpl in Hsb. congruence.
    + destruct (decide (Some a = activeSlideId st)) as [Eact|Nact'].
      * destruct (decide (Some b = Some (id sa))) as [E1|N1]; [done|].
        assert (head (filter (λ s, id s ≠ b) (sa :: La')) = Some sa) as Hsa.
        { eapply head_filter_keep; [done|]. intros E. apply N1. by rewrite E. }
        fold Lab in Hsa. rewrite Hh in Hsa. simpl in Hsa. congruence.
      * by rewrite (decide_False _ _ Nact).
Qed.

End DeleteFacts.

(** X15.  Deleting slides.  After [deleteSlide] no slide of the deck
    carries the deleted identifier; deleting the same identifier again
    changes nothing; and deleting two slides gives the same state in
    either order, the selection included (when the selected slide goes,
    the first slide that is left takes over, and an emptied deck sends
    the user back to the upload step with nothing selected). *)
Theorem deleteSlide_algebra {OCRResult : Type} (st : AppState OCRResult) (a b : string) :
  (a ∉ id <$> slides (deleteSlide a st)) ∧
  deleteSlide a (deleteSlide a st) = deleteSlide a st ∧
  deleteSlide a (deleteSlide b st) = deleteSlide b (deleteSlide a st).
Proof.
  split_and!.
  - rewrite deleteSlide_slides. intros (s & E & [Hs _]%list_elem_of_filter)%list_elem_of_fmap.
    by apply Hs.
  - rewrite (deleteSlide_eq a (deleteSlide a st)), (deleteSlide_eq a st). cbv zeta. simpl.
    rewrite list_filter_filter.
    rewrite (list_filter_iff (λ s, id s ≠ a ∧ id s ≠ a) (λ s, id s ≠ a)) by (intros s; tauto).
    destruct (filter (λ s, id s ≠ a) (slides st)) as [|s0 l'] eqn:Ef; [done|]. simpl.
    f_equal. destruct (decide (Some a = activeSlideId st)) as [E|N].
    + by destruct (decide (Some a = Some (id s0))).
    + by rewrite (decide_False _ _ N).
  - destruct (decide (a = b)) as [->|Hab]; [done | by apply deleteSlide_comm_ne].
Qed.

Section RefineFacts.
Context {OCRResult : Type}.
Implicit Types (st prev : AppState OCRResult) (s : Slide OCRResult)
               (l : list (Slide OCRResult)) (a b : string) (i j : nat).

Lemma handleMaskCancel_idle st a i s :
  activeSlideId st = Some a → findSlide a (slides st) = Some (i, s) →
  isRefineMode s = false → handleMaskCancel st = st.
Proof.
  intros Ha Hf Hr. unfold handleMaskCancel. rewrite Ha. destruct (nonempty a); [|done].
  by rewrite Hf, Hr.
Qed.

Lemma activeSlide_findSlide st s :
  activeSlide st = Some s →
  ∃ a i, activeSlideId st = Some a ∧ findSlide a (slides st) = Some (i, s).
Proof.
  unfold activeSlide. destruct (list_find _ _) as [[i s']|] eqn:Ef; [|done].
  intros [= ->]. apply list_find_Some in Ef as (Hl & Hs & Hm).
  exists (id s), i. split; [done|]. unfold findSlide. apply list_find_Some.
  split_and!; [done..|]. intros j y Hj Hlt E. apply (Hm j y Hj Hlt). by rewrite E.
Qed.

End RefineFacts.

(** X16.  Refine and Cancel.  Cancel after Refine is Cancel: the two
    clicks leave the state that Cancel alone leaves.  When the selected
    slide is not in refine mode they give back the state exactly as it
    was; in the editor, on a processed slide, Refine opens the masking
    view on the image the next inpainting will start from, and Cancel
    returns to the result view of the slide. *)
Theorem refine_then_cancel {OCRResult : Type} (st : AppState OCRResult) :
  let refined := handleRefine (activeSlideId st) st in
  handleMaskCancel refined = handleMaskCancel st ∧
  ∀ s, activeSlide st = Some s → isRefineMode s = false →
    handleMaskCancel refined = st ∧
    (step st = EDITOR → truthy (activeSlideId st) = true →
     ∃ s', activeSlide refined = Some s' ∧
           inpaintSource s' = bgImage s ∧
           mainView refined = ShowMasking (inpaintSource s') ∧
           (status s ≠ PENDING → mainView st = ShowResult s)).
Proof.
  cbv zeta.
  assert (handleMaskCancel (handleRefine (activeSlideId st) st) = handleMaskCancel st) as Hrc.
  { unfold handleRefine. destruct (activeSlideId st) as [a|] eqn:Ea; [|done].
    destruct (nonempty a) eqn:Hne; [|done].
    destruct (findSlide a (slides st)) as [[i s]|] eqn:Ef; [|done].
    pose proof Ef as (Hl & Hs & _)%findSlide_Some.
    unfold handleMaskCancel. simpl. rewrite Ea, Hne.
    rewrite (findSlide_insert a (slides st) i s
               (MkSlide (id s) (originalImageSrc s) (processedImageSrc s) (ocrData s)
                        (status s) true) Ef Hs). simpl.
    rewrite list_insert_insert_eq. unfold with_slides. simpl. rewrite Ef.
    destruct (isRefineMode s) eqn:Hr; [done|].
    rewrite list_insert_id; [by destruct st|]. rewrite Hl. f_equal.
    destruct s. simpl in *. by rewrite Hr. }
  split; [exact Hrc|]. intros s Hs Hr.
  destruct (activeSlide_findSlide _ _ Hs) as (a & i & Ea & Ef).
  split; [rewrite Hrc; by eapply handleMaskCancel_idle|].
  intros He Ht. rewrite Ea in Ht. simpl in Ht.
  pose proof Ef as (Hl & Hid & _)%findSlide_Some.
  unfold handleRefine. rewrite Ea, Ht, Ef.
  eexists. split; [|split; [|split]].
  - eapply (activeSlide_find _ a i); [done|]. simpl. by apply (findSlide_insert a _ i s).
  - unfold inpaintSource, bgImage. simpl. by destruct (processedImageSrc s).
  - unfold mainView. simpl. rewrite He.
    erewrite (activeSlide_find _ a i); [|done|simpl; by apply (findSlide_insert a _ i s)].
    simpl. by rewrite orb_true_r.
  - intros Hp. unfold mainView. rewrite He, Hs, Hr.
    by rewrite bool_decide_eq_false_2.
Qed.

Lemma refine_then_cancel_witness :
  handleMaskCancel (handleRefine (activeSlideId Desk.deck) Desk.deck) = Desk.deck ∧
  mainView (handleRefine (activeSlideId Desk.deck) Desk.deck) = ShowMasking "b2.png".
Proof.
  destruct (refine_then_cancel Desk.deck) as [_ H].
  destruct (H Desk.slideB eq_refl eq_refl) as [H1 H2].
  split; [exact H1|].
  destruct (H2 eq_refl eq_refl) as (s' & Hs' & _ & Hv & _).
  rewrite Hv. injection Hs' as <-. reflexivity.
Defined.

(** X17.  Revert to the original, as the tooltip of the button says:
    the export uses the original image as the background of the slide
    and keeps its text boxes.  After [handleRevertToOriginal] the
    selected slide is exported ([status] DONE) with its original image
    as background and its OCR items as they were, the editor shows its
    result view, the other slides are untouched, and a second click
    changes nothing. *)
Theorem revert_exports_original {OCRResult : Type} (st : AppState OCRResult)
    (s : Slide OCRResult) :
  activeSlide st = Some s → truthy (activeSlideId st) = true →
  let st' := handleRevertToOriginal (activeSlideId st) st in
  ∃ i s',
    slides st !! i = Some s ∧ slides st' !! i = Some s' ∧ activeSlide st' = Some s' ∧
    id s' = id s ∧ originalImageSrc s' = originalImageSrc s ∧ ocrData s' = ocrData s ∧
    bgImage s' = originalImageSrc s ∧ s' ∈ validSlides (slides st') ∧
    (∀ j, j ≠ i → slides st' !! j = slides st !! j) ∧
    length (slides st') = length (slides st) ∧
    handleRevertToOriginal (activeSlideId st') st' = st' ∧
    (step st = EDITOR → mainView st' = ShowResult s').
Proof.
  intros Hs Ht st'. subst st'.
  destruct (activeSlide_findSlide _ _ Hs) as (a & i & Ea & Ef).
  rewrite Ea in Ht. simpl in Ht.
  pose proof Ef as (Hl & Hid & _)%findSlide_Some.
  set (s' := MkSlide (id s) (originalImageSrc s) (Some (originalImageSrc s)) (ocrData s)
                     DONE false).
  assert (handleRevertToOriginal (activeSlideId st) st =
          with_slides st (<[i := s']> (slides st))) as ->.
  { unfold handleRevertToOriginal. by rewrite Ea, Ht, Ef. }
  assert (findSlide a (<[i := s']> (slides st)) = Some (i, s')) as Ef'
    by (by apply (findSlide_insert a _ i s)).
  assert (activeSlide (with_slides st (<[i := s']> (slides st))) = Some s') as Ha'
    by (by eapply (activeSlide_find _ a i)).
  assert (<[i := s']> (slides st) !! i = Some s') as Hl'
    by (apply list_lookup_insert_eq; by eapply lookup_lt_Some).
  exists i, s'. cbn [slides with_slides activeSlideId step].
  split; [done|]. split; [done|]. split; [done|]. split; [done|]. split; [done|].
  split; [done|]. split; [|split; [|split; [|split; [|split]]]].
  - unfold bgImage, s'. simpl. by destruct (nonempty (originalImageSrc s)).
  - apply list_elem_of_filter. split; [done|]. by eapply list_elem_of_lookup_2.
  - intros j Hj. by apply list_lookup_insert_ne.
  - apply length_insert.
  - unfold handleRevertToOriginal. cbn [slides with_slides activeSlideId step].
    rewrite Ea, Ht, Ef'. unfold with_slides. cbn [slides activeSlideId step
      isGlobalProcessing globalStatusText apiKey id originalImageSrc ocrData].
    by rewrite list_insert_insert_eq.
  - intros He. unfold mainView. cbn [step with_slides]. rewrite He, Ha'. reflexivity.
Qed.

Lemma revert_exports_original_witness :
  bgImage Desk.slideB = "b2.png"%string ∧
  ∃ s', activeSlide (handleRevertToOriginal (activeSlideId Desk.deck) Desk.deck) = Some s' ∧
        bgImage s' = "b.png"%string.
Proof.
  split; [reflexivity|].
  destruct (revert_exports_original Desk.deck Desk.slideB eq_refl eq_refl)
    as (i & s' & _ & _ & Ha & _ & _ & _ & Hb & _).
  exists s'. split; [exact Ha | exact Hb].
Defined.

Section SettledFacts.
Context {OCRResult : Type}.
Variable generateId : nat → string.
Implicit Types (st prev : AppState OCRResult) (s : Slide OCRResult)
               (l : list (Slide OCRResult)) (a b : string) (i j : nat).

Local Abbreviation ready := (λ s : Slide OCRResult, status s = PENDING ∨ status s = DONE).

Lemma ready_filter (P : Slide OCRResult → Prop) `{∀ s, Decision (P s)} l :
  Forall ready l → Forall ready (filter P l).
Proof.
  rewrite !Forall_forall. intros Hl s [_ Hs]%list_elem_of_filter. by apply Hl.
Qed.

Lemma ready_valid l : Forall ready l → validSlides l = l.
Proof.
  induction 1 as [|s l Hs Hl IH]; [done|]. unfold validSlides in *.
  rewrite filter_cons_True; [by rewrite IH|].
  intros E. destruct Hs as [Hs|Hs]; rewrite Hs in E; discriminate.
Qed.

Lemma ready_new images : Forall ready (imap (newSlide generateId) images).
Proof.
  apply Forall_lookup. intros i s. rewrite list_lookup_imap.
  destruct (images !! i); [|done]. intros [= <-]. by left.
Qed.

Lemma settled_update act st (f : Slide OCRResult → Slide OCRResult) :
  (∀ s, ready s → ready (f s)) → settled st →
  settled (match act with
           | Some a =>
               if nonempty a then
                 match findSlide a (slides st) with
                 | Some (idx, slide) => with_slides st (<[idx := f slide]> (slides st))
                 | None => st
                 end
               else st
           | None => st
           end).
Proof.
  intros Hf Hs. destruct act as [a|]; [|done]. destruct (nonempty a); [|done].
  destruct (findSlide a (slides st)) as [[i s]|] eqn:Ef; [|done].
  apply findSlide_Some in Ef as (Hl & _). unfold settled. simpl.
  apply Forall_insert; [done|]. apply Hf. exact (Forall_lookup_1 _ _ _ _ Hs Hl).
Qed.

End SettledFacts.

(** X18.  Every page on the button is exported.  No update of
    [App.tsx] gives a slide the status ERROR (or PROCESSING): starting
    from the initial state, every slide is PENDING or DONE.  The filter
    of [downloadPPTX] therefore removes nothing, and the export has as
    many pages as the download button shows. *)
Theorem export_keeps_every_slide {OCRResult : Type} (generateId : nat → string) :
  settled (initialState (OCRResult := OCRResult)) ∧
  settled (handleClearApiKey (OCRResult := OCRResult)).2 ∧
  (∀ prev : AppState OCRResult, settled prev →
    (∀ key, settled (restoreApiKey key prev)) ∧
    (∀ key, settled (handleSaveApiKey key prev).2) ∧
    (∀ images st', handleImagesUpload generateId images prev = Some st' → settled st') ∧
    (∀ id0, settled (deleteSlide id0 prev)) ∧
    (∀ slideId, settled (selectSlide slideId prev)) ∧
    settled (addPage prev) ∧
    settled (handleMaskCancel prev) ∧
    (∀ act, settled (handleRefine act prev)) ∧
    (∀ act, settled (handleRevertToOriginal act prev)) ∧
    settled (handleResetAll prev) ∧
    (∀ text, settled (processingBegin text prev) ∧ settled (setStatusText text prev)) ∧
    settled (processingFailed prev) ∧
    (∀ i cur img ocr st', processingDone i cur img ocr prev = Some st' → settled st')) ∧
  (∀ st : AppState OCRResult, settled st →
    validSlides (slides st) = slides st ∧
    length (validSlides (slides st)) = pagesShown st).
Proof.
  split; [by apply Forall_nil|]. split; [by apply Forall_nil|]. split.
  - intros prev Hs. split_and!.
    + intros [key|]; [|done]. unfold restoreApiKey. by destruct (nonempty key).
    + done.
    + intros images st' (_ & E & _)%handleImagesUpload_Some. unfold settled. rewrite E.
      apply Forall_app. split; [done | apply ready_new].
    + intros id0. unfold settled. rewrite deleteSlide_slides. by apply ready_filter.
    + done.
    + done.
    + unfold handleMaskCancel. destruct (activeSlideId prev) as [a|]; [|done].
      destruct (nonempty a); [|done].
      destruct (findSlide a (slides prev)) as [[i s]|] eqn:Ef; [|done].
      destruct (isRefineMode s); [|done].
      apply findSlide_Some in Ef as (Hl & _). unfold settled. simpl.
      apply Forall_insert; [done|]. exact (Forall_lookup_1 _ _ _ _ Hs Hl).
    + intros act.
      apply (settled_update act prev
               (λ s, MkSlide (id s) (originalImageSrc s) (processedImageSrc s) (ocrData s)
                             (status s) true)); done.
    + intros act.
      apply (settled_update act prev
               (λ s, MkSlide (id s) (originalImageSrc s) (Some (originalImageSrc s))
                             (ocrData s) DONE false)); [|done].
      intros s _. by right.
    + by apply Forall_nil.
    + done.
    + done.
    + intros i cur img ocr st'. unfold processingDone.
      destruct (array_store _ _ _) as [l'|] eqn:Es; [|done]. simpl. intros [= <-].
      unfold settled. simpl.
      apply array_store_Some in Es as [[_ ->]|[_ ->]].
      * apply Forall_insert; [done | by right].
      * apply Forall_app. split; [done|]. apply Forall_cons. split; [by right | done].
  - intros st Hs. pose proof (ready_valid _ Hs) as E. split; [exact E|].
    by rewrite E.
Qed.

Lemma export_keeps_every_slide_witness :
  length (validSlides (slides (handleRefine (Some "b"%string) Desk.deck))) = 2%nat.
Proof.
  destruct (export_keeps_every_slide (OCRResult := unit) Desk.ids) as (_ & _ & Hk & Hv).
  assert (settled Desk.deck) as Hd.
  { apply Forall_cons. split; [by left|]. apply Forall_cons. split; [by right | done]. }
  destruct (Hk Desk.deck Hd) as (_ & _ & _ & _ & _ & _ & _ & Hr & _).
  destruct (Hv _ (Hr (Some "b"%string))) as [_ E]. rewrite E. reflexivity.
Defined.

(** X19.  A processing run on a deck that did not change meanwhile.
    The last update of [handleProcessingStart] stores into the slot of
    the slide the handler read at the start: that slide, and no other,
    becomes DONE with the new image and leaves refine mode; a refine
    run keeps the OCR items of the slide, a first run takes those of
    [performOCR]; the overlay goes down and the editor shows the result
    view of the slide. *)
Theorem processing_completes {OCRResult : Type} (st prev : AppState OCRResult)
    (i : nat) (cur : Slide OCRResult) (img : string) (ocr : list OCRResult) :
  processingTarget st = Some (i, cur) →
  slides prev = slides st → activeSlideId prev = activeSlideId st →
  ∃ st' s',
    processingDone i cur img (ocrAfter cur ocr) prev = Some st' ∧
    slides st' !! i = Some s' ∧ activeSlide st' = Some s' ∧
    id s' = id cur ∧ originalImageSrc s' = originalImageSrc cur ∧
    processedImageSrc s' = Some img ∧ status s' = DONE ∧ isRefineMode s' = false ∧
    ocrData s' = (if isRefineMode cur then ocrData cur else ocr) ∧
    (∀ j, j ≠ i → slides st' !! j = slides st !! j) ∧
    length (slides st') = length (slides st) ∧
    isGlobalProcessing st' = false ∧
    (step prev = EDITOR → mainView st' = ShowResult s').
Proof.
  intros Ht Hsl Hact. unfold processingTarget in Ht.
  destruct (activeSlideId st) as [a|] eqn:Ea; [|done].
  destruct (nonempty a) eqn:Hne; [|done].
  pose proof Ht as (Hl & Hid & _)%findSlide_Some.
  assert (i < length (slides prev))%nat as Hi by (rewrite Hsl; by eapply lookup_lt_Some).
  set (s' := MkSlide (id cur) (originalImageSrc cur) (Some img) (ocrAfter cur ocr) DONE false).
  assert (processingDone i cur img (ocrAfter cur ocr) prev =
          Some (MkApp (step prev) (<[i := s']> (slides prev)) (activeSlideId prev) false
                      (globalStatusText prev) (apiKey prev))) as E.
  { unfold processingDone, array_store. apply Nat.ltb_lt in Hi. by rewrite Hi. }
  eexists _, s'. split; [exact E|]. cbn [slides step activeSlideId isGlobalProcessing].
  assert (findSlide a (<[i := s']> (slides prev)) = Some (i, s')) as Ef'
    by (rewrite Hsl; by apply (findSlide_insert a _ i cur)).
  assert (activeSlide (MkApp (step prev) (<[i := s']> (slides prev)) (activeSlideId prev)
                             false (globalStatusText prev) (apiKey prev)) = Some s') as Ha'
    by (by eapply (activeSlide_find _ a i)).
  split; [by apply list_lookup_insert_eq|].
  split; [done|]. split; [done|]. split; [done|]. split; [done|]. split; [done|].
  split; [done|]. split; [done|].
  split; [intros j Hj; rewrite Hsl; by apply list_lookup_insert_ne|].
  split; [by rewrite length_insert, Hsl|]. split; [done|].
  intros He. unfold mainView. rewrite Ha'. cbn [step]. rewrite He. reflexivity.
Qed.

Lemma processing_completes_witness :
  ∃ st' s', processingDone 1 Desk.slideB "b3.png" (ocrAfter Desk.slideB []) Desk.deck = Some st' ∧
            mainView st' = ShowResult s' ∧ bgImage s' = "b3.png"%string ∧ ocrData s' = [].
Proof.
  destruct (processing_completes Desk.deck Desk.deck 1 Desk.slideB "b3.png" []
              eq_refl eq_refl eq_refl)
    as (st' & s' & E & _ & _ & _ & _ & Hp & _ & _ & Ho & _ & _ & _ & Hv).
  exists st', s'. split; [exact E|]. split; [by apply Hv|]. split; [|exact Ho].
  unfold bgImage. rewrite Hp. reflexivity.
Defined.

(** X20.  Uploads.  [handleImagesUpload] throws (on [newSlides[0].id])
    exactly when it is called with no image while no slide is selected;
    [processFiles] never calls it with an empty list, so an upload
    never throws.  An upload keeps the slides of the deck in place and
    appends one slide per image, in order, each PENDING and without a
    processed image; the first upload into an empty deck opens the
    masking view on the first image. *)
Theorem upload_appends {OCRResult : Type} (generateId : nat → string)
    (images : list string) (prev : AppState OCRResult) :
  (handleImagesUpload generateId images prev = None ↔
     images = [] ∧ truthy (activeSlideId prev) = false) ∧
  processFiles_done generateId images prev ≠ None ∧
  ∀ st', handleImagesUpload generateId images prev = Some st' →
    step st' = EDITOR ∧
    take (length (slides prev)) (slides st') = slides prev ∧
    originalImageSrc <$> drop (length (slides prev)) (slides st') = images ∧
    Forall (λ s, status s = PENDING ∧ processedImageSrc s = None ∧
                 isRefineMode s = false ∧ ocrData s = [])
           (drop (length (slides prev)) (slides st')) ∧
    (slides prev = [] → activeSlideId prev = None →
     ∀ img rest, images = img :: rest → mainView st' = ShowMasking img).
Proof.
  assert (handleImagesUpload generateId images prev = None ↔
          images = [] ∧ truthy (activeSlideId prev) = false) as Hnone.
  { unfold handleImagesUpload. destruct (truthy (activeSlideId prev)).
    - split; [done | by intros [_ ?]].
    - destruct images; simpl; [done|]. split; [done | by intros [? _]]. }
  split; [exact Hnone|]. split.
  - unfold processFiles_done. destruct images as [|img rest]; [done|]. simpl.
    intros [E _]%Hnone. done.
  - intros st' H. pose proof H as (Hstep & Hsl & Hact)%handleImagesUpload_Some.
    split; [done|]. rewrite Hsl, take_app_length, drop_app_length.
    split; [done|]. split; [|split].
    + apply list_eq. intros k. rewrite list_lookup_fmap, list_lookup_imap.
      by destruct (images !! k).
    + apply Forall_lookup. intros k s. rewrite list_lookup_imap.
      destruct (images !! k); [|done]. by intros [= <-].
    + intros Hnil Hno img rest ->.
      destruct Hact as [[Ht _]|(_ & _ & _ & _ & Ha)]; [by rewrite Hno in Ht|].
      unfold mainView. rewrite Hstep. unfold activeSlide. rewrite Ha, Hsl, Hnil. simpl.
      rewrite decide_True by done. reflexivity.
Qed.

Lemma upload_appends_witness :
  ∃ st', handleImagesUpload Desk.ids ["p.png"; "q.png"]%string (initialState (OCRResult := unit))
           = Some st' ∧
         mainView st' = ShowMasking "p.png".
Proof.
  destruct (upload_appends (OCRResult := unit) Desk.ids ["p.png"; "q.png"]%string initialState)
    as (_ & _ & H).
  eexists. split; [reflexivity|].
  destruct (H _ eq_refl) as (_ & _ & _ & _ & Hv). by eapply Hv.
Defined.

(** * The mask pad *)

Section PadFacts.
Variable context_ok : Z → Z → bool.
Implicit Types (p : pad) (c s img : Canvas) (H K L : list Canvas).

Local Abbreviation saveHistory := (saveHistory context_ok).
Local Abbreviation handleUndo := (handleUndo context_ok).
Local Abbreviation has_ctx := (has_ctx context_ok).

Lemma snapshot_wf c : wf_raster c → snapshot c = c.
Proof. apply crop_wf. Qed.

Lemma putImageData_fits c img : 0 <= cw c → 0 <= ch c → fits c img → putImageData c img = img.
Proof.
  intros Hw Hh ((Hiw & Hih & Hs) & Ew & Eh). destruct img as [w h d]. simpl in *.
  subst w h. unfold putImageData. simpl. f_equal.
  transitivity (getImageData (MkCanvas (cw c) (ch c) d) (cw c) (ch c));
    [|by apply getImageData_id].
  unfold getImageData. apply list_fmap_ext. intros i j Hj. simpl.
  apply lookup_seqZ in Hj as [-> Hi]. rewrite Z.add_0_l in *.
  set (j := Z.of_nat i) in *.
  assert (0 <= j) as Hj0 by lia.
  assert (0 < cw c ∧ 0 < ch c) as [Hw' Hh'] by nia.
  assert (0 <= j / 4 < cw c * ch c) as Hp.
  { split; [apply Z.div_pos; lia|]. apply Z.div_lt_upper_bound; lia. }
  pose proof (Z.mod_pos_bound (j / 4) (cw c) Hw') as Hx.
  assert (j / 4 / cw c < ch c) as Hy by (apply Z.div_lt_upper_bound; lia).
  destruct (Z.ltb_spec (j / 4 mod cw c) (cw c)); [|lia].
  destruct (Z.ltb_spec (j / 4 / cw c) (ch c)); [|lia]. reflexivity.
Qed.

Lemma clearRect_wf c : 0 <= cw c → 0 <= ch c → wf_raster (clearRect c).
Proof.
  intros Hw Hh. unfold wf_raster, clearRect, sized. simpl.
  rewrite length_replicate. split_and!; [done..|]. nia.
Qed.

Lemma clearRect_size c c' : cw c' = cw c → ch c' = ch c → clearRect c' = clearRect c.
Proof. unfold clearRect. by intros -> ->. Qed.

Lemma latest20_snoc L s :
  ∃ L', latest20 (L ++ [s]) = L' ++ [s] ∧ L' `suffix_of` L ∧
        length L' = (length L `min` 19)%nat.
Proof.
  unfold latest20. rewrite length_app. simpl.
  destruct (Nat.ltb_spec 20 (length L + 1)) as [Hlt|Hge].
  - exists (drop (length L + 1 - 20) L). split_and!.
    + rewrite drop_app_le by lia. done.
    + apply suffix_drop.
    + rewrite length_drop. lia.
  - exists L. split_and!; [done | done | lia].
Qed.

Lemma saveHistory_eq p :
  has_ctx p = true →
  saveHistory p = Pad (canvas p) (latest20 (history p ++ [snapshot (canvas p)])).
Proof. unfold Masking.saveHistory. by intros ->. Qed.

Lemma handleUndo_nil p : history p = [] → handleUndo p = p.
Proof. unfold Masking.handleUndo. by intros ->. Qed.

Lemma handleUndo_single p s :
  has_ctx p = true → history p = [s] → handleUndo p = Pad (clearRect (canvas p)) [].
Proof. unfold Masking.handleUndo. by intros -> ->. Qed.

Lemma handleUndo_pop p L s prev :
  has_ctx p = true → history p = L ++ [s] → last L = Some prev →
  handleUndo p = Pad (putImageData (canvas p) prev) L.
Proof.
  intros Hc Hh Hl. unfold Masking.handleUndo. rewrite Hh, Hc, length_app. simpl.
  assert (L ≠ []) as Hne by (intros ->; done).
  assert (0 < length L)%nat as Hpos by (destruct L; [done | simpl; lia]).
  destruct (Nat.ltb_spec 0 (length L + 1)); [|lia].
  destruct (Nat.leb_spec (length L + 1) 1); [lia|].
  replace (length L + 1 - 1)%nat with (length L) by lia.
  rewrite take_app_length, Hl. done.
Qed.

Lemma suffix_last L' L : L' `suffix_of` L → L' ≠ [] → last L' = last L.
Proof.
  intros [k ->] Hne. rewrite last_app. destruct (last L') eqn:E; [done|].
  by apply last_None in E.
Qed.

Lemma fits_wf_size c c' s : cw c' = cw c → ch c' = ch c → fits c s → fits c' s.
Proof. unfold fits. intros -> ->. done. Qed.

End PadFacts.

(** X21.  The history keeps the latest twenty snapshots.  With a
    context, [saveHistory] leaves the canvas alone and appends its
    snapshot; the new history is the tail of the old one followed by the
    snapshot, at most twenty entries long, so the snapshot just taken is
    always the last entry and older ones fall off the front. *)
Theorem saveHistory_keeps_latest context_ok (p : pad) :
  has_ctx context_ok p = true →
  let p' := saveHistory context_ok p in
  canvas p' = canvas p ∧
  history p' `suffix_of` (history p ++ [snapshot (canvas p)]) ∧
  length (history p') = (S (length (history p)) `min` 20)%nat ∧
  last (history p') = Some (snapshot (canvas p)).
Proof.
  intros Hc p'. subst p'. rewrite saveHistory_eq by done. simpl.
  destruct (latest20_snoc (history p) (snapshot (canvas p))) as (L' & E & Hs & Hl).
  rewrite E. split_and!; [done | by apply suffix_app | | apply last_snoc].
  rewrite length_app. simpl. lia.
Qed.

Lemma saveHistory_keeps_latest_witness :
  length (history (saveHistory Sample.always
                     (Pad Sample.one_px (replicate 20 Sample.keep_px)))) = 20%nat ∧
  last (history (saveHistory Sample.always
                   (Pad Sample.one_px (replicate 20 Sample.keep_px)))) = Some Sample.one_px.
Proof.
  destruct (saveHistory_keeps_latest Sample.always
              (Pad Sample.one_px (replicate 20 Sample.keep_px)) eq_refl)
    as (_ & _ & Hl & Hlast).
  split; [exact Hl | exact Hlast].
Defined.

Section UndoFacts.
Variable context_ok : Z → Z → bool.
Implicit Types (p : pad) (c s img : Canvas) (H K L : list Canvas) (d : list Z).

Local Abbreviation saveHistory := (saveHistory context_ok).
Local Abbreviation handleUndo := (handleUndo context_ok).
Local Abbreviation has_ctx := (has_ctx context_ok).

Lemma Forall_fits_suffix c c' L' L :
  cw c' = cw c → ch c' = ch c → L' `suffix_of` L →
  Forall (fits c) L → Forall (fits c') L'.
Proof.
  intros Ew Eh [k ->] [_ Hf]%Forall_app. eapply Forall_impl; [exact Hf|].
  intros s. by apply fits_wf_size.
Qed.

(** Saving a drawn canvas. *)
Lemma save_drawn p d :
  has_ctx p = true → wf_raster (canvas p) →
  sized (cw (canvas p)) (ch (canvas p)) d →
  let c1 := MkCanvas (cw (canvas p)) (ch (canvas p)) d in
  wf_raster c1 ∧
  ∃ L', saveHistory (Pad c1 (history p)) = Pad c1 (L' ++ [c1]) ∧
        L' `suffix_of` history p ∧ length L' = (length (history p) `min` 19)%nat.
Proof.
  intros Hc (Hw & Hh & _) Hd c1.
  assert (wf_raster c1) as Hwf by (by split_and!).
  split; [exact Hwf|].
  rewrite saveHistory_eq by exact Hc. simpl. rewrite (snapshot_wf c1 Hwf).
  destruct (latest20_snoc (history p) c1) as (L' & E & Hs & Hl).
  exists L'. by rewrite E.
Qed.

(** One step back, onto a snapshot of the size of the canvas. *)
Lemma undo_onto p L s prev :
  has_ctx p = true → 0 <= cw (canvas p) → 0 <= ch (canvas p) →
  history p = L ++ [s] → last L = Some prev → fits (canvas p) prev →
  handleUndo p = Pad prev L.
Proof.
  intros Hc Hw Hh Hh' Hl Hf. rewrite (handleUndo_pop _ p L s prev Hc Hh' Hl).
  by rewrite putImageData_fits.
Qed.

Lemma in_sync_pop prev L :
  fits prev prev → Forall (fits prev) L → last L = Some prev → in_sync (Pad prev L).
Proof. intros [Hwf _] Hf Hl. unfold in_sync. simpl. by rewrite Hl. Qed.

Lemma in_sync_clear c : 0 <= cw c → 0 <= ch c → in_sync (Pad (clearRect c) []).
Proof.
  intros Hw Hh. unfold in_sync. simpl. split_and!; [by apply clearRect_wf | done |].
  symmetry. by apply clearRect_size.
Qed.

(** Stepping back over the snapshots [K]. *)
Lemma undo_iter K : ∀ p H,
  has_ctx p = true → in_sync p → history p = H ++ K → H ≠ [] →
  ∃ s, last H = Some s ∧ Nat.iter (length K) handleUndo p = Pad s H ∧
       in_sync (Pad s H) ∧ has_ctx (Pad s H) = true.
Proof.
  induction K as [|s K IH] using rev_ind; intros p H Hc Hs Hh Hne.
  - rewrite app_nil_r in Hh. destruct Hs as (Hwf & Hf & Hl). rewrite Hh in Hl, Hf.
    destruct (last H) as [s|] eqn:El; [|by apply last_None in El].
    exists s. subst s. simpl. split_and!; [done | | | done].
    + destruct p. simpl in *. by subst.
    + unfold in_sync. simpl. by rewrite El.
  - rewrite length_app. simpl. rewrite Nat.add_comm. simpl Nat.add.
    rewrite Nat.iter_succ_r.
    destruct Hs as (Hwf & Hf & Hl). pose proof Hwf as (Hw & Hh0 & _).
    rewrite Hh, app_assoc in Hf. apply Forall_app in Hf as [Hf _].
    assert (H ++ K ≠ []) as Hne' by (destruct H; done).
    destruct (last (H ++ K)) as [prev|] eqn:El; [|by apply last_None in El].
    assert (fits (canvas p) prev) as Hfp.
    { eapply Forall_forall; [exact Hf|]. by eapply last_Some_elem_of. }
    rewrite app_assoc in Hh.
    rewrite (undo_onto p (H ++ K) s prev Hc Hw Hh0 Hh El Hfp).
    destruct Hfp as (Hwp & Ewp & Ehp).
    apply IH; [| |done|done].
    + unfold Masking.has_ctx in *. simpl. by rewrite Ewp, Ehp.
    + apply in_sync_pop; [done | | done].
      eapply Forall_impl; [exact Hf|]. intros s'. by apply fits_wf_size.
Qed.

End UndoFacts.

(** X22.  Undo takes back the last gesture.  When the history tells
    what the canvas shows (its last snapshot is the canvas; with no
    snapshot the canvas is clear), a drawing followed by Undo leaves the
    canvas exactly as it was before the drawing, and the history again
    tells what the canvas shows.  The same holds for an automatic
    detection, whatever the history was, because it saves before it
    paints. *)
Theorem undo_takes_back context_ok (p : pad) (d : list Z) :
  has_ctx context_ok p = true → wf_raster (canvas p) →
  sized (cw (canvas p)) (ch (canvas p)) d →
  canvas (handleUndo context_ok (autoDetect context_ok d p)) = canvas p ∧
  (in_sync p →
   let p1 := stroke context_ok d p in
   cdata (canvas p1) = d ∧ in_sync p1 ∧
   canvas (handleUndo context_ok p1) = canvas p ∧
   in_sync (handleUndo context_ok p1) ∧
   history (handleUndo context_ok p1) `suffix_of` history p).
Proof.
  intros Hc Hwf Hd. pose proof Hwf as (Hw & Hh & _).
  set (c1 := MkCanvas (cw (canvas p)) (ch (canvas p)) d).
  assert (∀ H, has_ctx context_ok (Pad c1 H) = true) as Hc1 by (intros H; exact Hc).
  split.
  - unfold autoDetect. rewrite Hc. cbv zeta.
    rewrite (saveHistory_eq context_ok p Hc). simpl. rewrite (snapshot_wf _ Hwf).
    destruct (latest20_snoc (history p) (canvas p)) as (L' & -> & _ & _).
    destruct (save_drawn context_ok (Pad (canvas p) (L' ++ [canvas p])) d Hc Hwf Hd)
      as (Hwf1 & L'' & E & Hs & Hl).
    simpl in E, Hs, Hl. fold c1 in E. fold c1. rewrite E.
    assert (L'' ≠ []) as Hne.
    { intros ->. rewrite length_app in Hl. simpl in Hl. lia. }
    rewrite (undo_onto context_ok _ L'' c1 (canvas p)); [done | done | done | done | done | |].
    + rewrite (suffix_last _ _ Hs Hne). apply last_snoc.
    + split; [exact Hwf | done].
  - intros Hs p1. subst p1. unfold stroke. rewrite Hc.
    destruct (save_drawn context_ok p d Hc Hwf Hd) as (Hwf1 & L' & E & Hsuf & Hl).
    fold c1 in E, Hwf1. fold c1. rewrite E. simpl.
    destruct Hs as (_ & Hf & Hlast).
    assert (Forall (fits c1) L') as Hf' by (by eapply Forall_fits_suffix).
    assert (in_sync (Pad c1 (L' ++ [c1]))) as Hs1.
    { unfold in_sync. simpl. rewrite last_snoc. split_and!; [done | | done].
      apply Forall_app. split; [done|]. apply Forall_cons. by split. }
    split; [done|]. split; [exact Hs1|].
    destruct L' as [|s0 L0] eqn:EL.
    + assert (history p = []) as Hnil.
      { destruct (history p); [done|]. simpl in Hl. lia. }
      rewrite Hnil in Hlast. simpl in Hlast.
      rewrite (handleUndo_single context_ok _ c1); [|done|done]. simpl.
      rewrite (clearRect_size (canvas p) c1) by done.
      split_and!; [by rewrite <- Hlast | by apply in_sync_clear | apply suffix_nil].
    + assert (last (s0 :: L0) = Some (canvas p)) as Hl0.
      { rewrite (suffix_last _ _ Hsuf) by done.
        destruct (last (history p)) as [s|] eqn:El; [by subst|].
        apply last_None in El. rewrite El in Hsuf.
        apply suffix_nil_inv in Hsuf. done. }
      assert (fits c1 (canvas p)) as Hfc by (split; [exact Hwf | done]).
      rewrite (undo_onto context_ok _ (s0 :: L0) c1 (canvas p)); [|done..].
      simpl. split_and!; [done | | done].
      apply in_sync_pop; [by split | | done].
      by eapply Forall_fits_suffix.
Qed.

Lemma undo_takes_back_witness :
  canvas (handleUndo Sample.always
            (stroke Sample.always [40; 50; 60; 255] (Pad Sample.one_px [Sample.one_px])))
  = Sample.one_px.
Proof.
  destruct (undo_takes_back Sample.always (Pad Sample.one_px [Sample.one_px])
              [40; 50; 60; 255] eq_refl
              ltac:(unfold wf_raster, sized; simpl; lia)
              ltac:(unfold sized; simpl; lia)) as [_ H].
  destruct H as (_ & _ & E & _).
  - unfold in_sync. simpl. split_and!; [unfold wf_raster, sized; simpl; lia | | done].
    apply Forall_cons. split; [|done]. unfold fits, wf_raster, sized. simpl. lia.
  - exact E.
Defined.

(** X23.  How far Undo goes.  From a state whose history tells what
    the canvas shows, [k] clicks on Undo step back over the last [k]
    snapshots: the canvas shows the snapshot that is then the last one.
    The click that finds a single snapshot left does not restore it but
    clears the canvas and empties the history, and further clicks do
    nothing: as many clicks as there are snapshots (at most twenty)
    always end on a clear canvas. *)
Theorem undo_unwinds context_ok (p : pad) :
  has_ctx context_ok p = true → in_sync p →
  (∀ H K, history p = H ++ K → H ≠ [] →
     ∃ s, last H = Some s ∧
          Nat.iter (length K) (handleUndo context_ok) p = Pad s H) ∧
  (∀ k, (length (history p) <= k)%nat →
     Nat.iter k (handleUndo context_ok) p = Pad (clearRect (canvas p)) []).
Proof.
  intros Hc Hs. split.
  - intros H K Hh Hne.
    destruct (undo_iter context_ok K p H Hc Hs Hh Hne) as (s & Hl & E & _).
    by exists s.
  - assert (∀ k, Nat.iter k (handleUndo context_ok) (Pad (clearRect (canvas p)) []) =
                 Pad (clearRect (canvas p)) []) as Hfix.
    { induction k as [|k IH]; [done|]. simpl. rewrite IH. by apply handleUndo_nil. }
    intros k Hk. destruct (history p) as [|s0 K] eqn:Eh.
    + destruct Hs as (_ & _ & Hl). rewrite Eh in Hl. simpl in Hl.
      assert (p = Pad (clearRect (canvas p)) []) as Ep.
      { destruct p. simpl in *. by rewrite Eh, <- Hl. }
      rewrite Ep at 1. apply Hfix.
    + simpl in Hk.
      replace k with ((k - S (length K)) + 1 + length K)%nat by lia.
      rewrite !Nat.iter_add.
      destruct (undo_iter context_ok K p [s0] Hc Hs Eh ltac:(done))
        as (s & [= <-] & E & Hs' & Hc').
      rewrite E. simpl Nat.iter at 2.
      rewrite (handleUndo_single context_ok _ s0); [|done|done]. simpl.
      destruct Hs' as (_ & _ & Hl'). simpl in Hl'.
      destruct Hs as (_ & Hf & _). rewrite Eh in Hf. apply Forall_cons in Hf as [Hf _].
      destruct Hf as (_ & Ew & Ehh).
      rewrite (clearRect_size (canvas p) s0) by done. apply Hfix.
Qed.

Lemma undo_unwinds_witness :
  Nat.iter 2 (handleUndo Sample.always) (Pad Sample.one_px [Sample.other_px; Sample.one_px])
  = Pad (clearRect Sample.one_px) [].
Proof.
  destruct (undo_unwinds Sample.always (Pad Sample.one_px [Sample.other_px; Sample.one_px]))
    as [_ H]; [reflexivity | | by apply (H 2%nat)].
  unfold in_sync. simpl. split_and!; [unfold wf_raster, sized; simpl; lia | | done].
  repeat (apply Forall_cons; split; [unfold fits, wf_raster, sized; simpl; lia|]). done.
Defined.

Section SyncFacts.
Variable context_ok : Z → Z → bool.
Implicit Types (p : pad) (c s img : Canvas) (H K L : list Canvas) (d : list Z).

Local Abbreviation saveHistory := (saveHistory context_ok).
Local Abbreviation handleUndo := (handleUndo context_ok).
Local Abbreviation has_ctx := (has_ctx context_ok).

Lemma save_in_sync c H :
  context_ok (cw c) (ch c) = true → wf_raster c → Forall (fits c) H →
  in_sync (saveHistory (Pad c H)).
Proof.
  intros Hc Hwf Hf. rewrite saveHistory_eq by exact Hc. simpl.
  rewrite (snapshot_wf c Hwf).
  destruct (latest20_snoc H c) as (L' & -> & Hs & _).
  unfold in_sync. simpl. rewrite last_snoc. split_and!; [done | | done].
  apply Forall_app. split.
  - by eapply (Forall_fits_suffix c c L' H).
  - apply Forall_cons. by split.
Qed.

Lemma undo_in_sync p : has_ctx p = true → in_sync p → in_sync (handleUndo p).
Proof.
  intros Hc Hs. pose proof Hs as ((Hw & Hh & _) & Hf & _).
  destruct (last (history p)) as [s|] eqn:El.
  - apply last_Some in El as [L Eh].
    destruct (last L) as [prev|] eqn:El'.
    + rewrite Eh in Hf. apply Forall_app in Hf as [Hf _].
      assert (fits (canvas p) prev) as Hfp.
      { eapply Forall_forall; [exact Hf|]. by eapply last_Some_elem_of. }
      rewrite (undo_onto context_ok p L s prev Hc Hw Hh Eh El' Hfp).
      destruct Hfp as (Hwp & Ewp & Ehp).
      apply in_sync_pop; [done | | done].
      eapply Forall_impl; [exact Hf|]. intros s'. by apply fits_wf_size.
    + apply last_None in El'. subst L.
      rewrite (handleUndo_single context_ok p s Hc Eh). by apply in_sync_clear.
  - apply last_None in El. by rewrite handleUndo_nil.
Qed.

End SyncFacts.

(** X24.  The history and the canvas stay in step.  Say that the
    history tells what the canvas shows when its last snapshot is the
    canvas and, with no snapshot, the canvas is clear.  [initCanvas] on
    a fresh component and [handleLocalCancel] bring this about, and
    [saveHistory], a drawing, an automatic detection and [handleUndo]
    keep it, wherever the browser gives a 2D context. *)
Theorem history_in_step context_ok :
  (∀ w h c0, 0 <= w → 0 <= h → context_ok w h = true →
     in_sync (initCanvas context_ok w h (Pad c0 []))) ∧
  (∀ p, has_ctx context_ok p = true → wf_raster (canvas p) →
     in_sync (handleLocalCancel context_ok p)) ∧
  (∀ p, has_ctx context_ok p = true → in_sync p →
     in_sync (saveHistory context_ok p) ∧
     in_sync (handleUndo context_ok p) ∧
     ∀ d, sized (cw (canvas p)) (ch (canvas p)) d →
          in_sync (stroke context_ok d p) ∧ in_sync (autoDetect context_ok d p)).
Proof.
  split_and!.
  - intros w h c0 Hw Hh Hc. unfold initCanvas.
    apply save_in_sync; [exact Hc | by apply clearRect_wf | done].
  - intros p Hc (Hw & Hh & _). unfold handleLocalCancel. rewrite Hc. by apply in_sync_clear.
  - intros p Hc Hs. pose proof Hs as (Hwf & Hf & _). pose proof Hwf as (Hw & Hh & _).
    split_and!.
    + destruct p as [c H]. by apply save_in_sync.
    + by apply undo_in_sync.
    + intros d Hd.
      assert (wf_raster (MkCanvas (cw (canvas p)) (ch (canvas p)) d)) as Hwf1
        by (by split_and!).
      unfold stroke, autoDetect. rewrite Hc. cbv zeta. split.
      * apply save_in_sync; [exact Hc | exact Hwf1 |].
        eapply Forall_impl; [exact Hf|]. intros s. by apply fits_wf_size.
      * apply save_in_sync; [exact Hc | exact Hwf1 |].
        assert (in_sync (saveHistory context_ok p)) as (_ & Hf1 & _).
        { destruct p as [c H]. by apply save_in_sync. }
        assert (canvas (saveHistory context_ok p) = canvas p) as Ec.
        { unfold saveHistory. by destruct (has_ctx context_ok p). }
        rewrite Ec in Hf1.
        eapply Forall_impl; [exact Hf1|]. intros s. by apply fits_wf_size.
Qed.

Lemma history_in_step_witness :
  in_sync (initCanvas Sample.always 1 1 (Pad Sample.one_px [])) ∧
  in_sync (handleLocalCancel Sample.always (Pad Sample.one_px [Sample.other_px])).
Proof.
  destruct (history_in_step Sample.always) as (H1 & H2 & _).
  split.
  - apply H1; [lia | lia | reflexivity].
  - apply H2; [reflexivity | unfold wf_raster, sized; simpl; lia].
Defined.

(** * The OCR filter *)

Section OcrFacts.
Variable num : Type.
Variable of_int : Z → num.
Variables div mul add : num → num → num.
Variable floor : num → Z.
Variable context_ok : Z → Z → bool.
Variable blend : Z → Z → Z.
Implicit Types (maskInfo mask : Canvas) (item : OCRResult Z) (parsed : list (OCRResult Z)).

Local Abbreviation isMasked := (isMasked num of_int div mul add floor).
Local Abbreviation probes := (probes num of_int div mul add floor).
Local Abbreviation kept := (kept num of_int div).
Local Abbreviation filterResults := (filterResults num of_int div mul add floor).

Lemma isMasked_probes maskInfo item :
  isMasked maskInfo item = true ↔
  ∃ idx, idx ∈ probes maskInfo item ∧ below50 (cdata maskInfo) (idx + 3) = true.
Proof.
  unfold Ocr.isMasked, Ocr.probes. cbv zeta.
  set (pc := (_ * cw maskInfo + _) * 4).
  set (ptl := (_ * cw maskInfo + _) * 4).
  set (pbr := (_ * cw maskInfo + _) * 4).
  split.
  - destruct (below50 (cdata maskInfo) (pc + 3)) eqn:Ec.
    + intros _. exists pc. split; [left | done].
    + intros [H|H]%orb_true_iff.
      * exists ptl. split; [right; left | done].
      * exists pbr. split; [right; right; left | done].
  - intros (idx & Hin & Hb).
    apply elem_of_cons in Hin as [->|Hin]; [by rewrite Hb|].
    apply elem_of_cons in Hin as [->|Hin]; [rewrite Hb; by destruct (below50 _ (pc + 3))|].
    apply elem_of_cons in Hin as [->|Hin]; [|by apply elem_of_nil in Hin].
    rewrite Hb, orb_true_r. by destruct (below50 _ (pc + 3)).
Qed.

Lemma probes_aligned maskInfo item idx :
  idx ∈ probes maskInfo item → ∃ q, idx = q * 4.
Proof.
  unfold Ocr.probes. cbv zeta. intros Hin.
  repeat (apply elem_of_cons in Hin as [->|Hin]; [by eexists|]).
  by apply elem_of_nil in Hin.
Qed.

(** The push at the end grows the result in the order of the answer. *)
Lemma filterResults_eq maskInfo parsed :
  filterResults maskInfo parsed =
    kept <$> filter (λ item, isMasked maskInfo item = true) parsed.
Proof.
  unfold Ocr.filterResults.
  assert (∀ acc, foldl (filter_step num of_int div mul add floor maskInfo) acc parsed =
                 acc ++ (kept <$> filter (λ item, isMasked maskInfo item = true) parsed))
    as H; [|by rewrite H].
  induction parsed as [|item parsed IH]; intros acc; simpl; [by rewrite app_nil_r|].
  rewrite IH. unfold filter_step.
  destruct (isMasked maskInfo item) eqn:E.
  - rewrite filter_cons_True by done. rewrite fmap_cons, <- app_assoc. done.
  - rewrite filter_cons_False; [done|]. by rewrite E.
Qed.

(** A defined read at an alpha slot is the read of a pixel of the grid. *)
Lemma alpha_slot_grid maskInfo q a :
  wf_raster maskInfo → rd (cdata maskInfo) (q * 4 + 3) = Some a →
  ∃ x y, in_grid (cw maskInfo) (ch maskInfo) x y ∧ q * 4 = offset (cw maskInfo) x y.
Proof.
  intros (Hw & Hh & Hs) Hr.
  assert (is_Some (rd (cdata maskInfo) (q * 4 + 3))) as Hi by (by eexists).
  apply rd_is_Some in Hi. unfold sized in Hs. rewrite Hs in Hi.
  destruct (grid_of_slot _ _ (q * 4 + 3) Hw Hh Hi) as (x & y & k & Hg & Hk & E).
  exists x, y. split; [exact Hg|]. unfold offset in *. lia.
Qed.

(** The mask data are the mask as the canvas holds it. *)
Lemma getMaskData_wf mask :
  wf_raster mask → context_ok (cw mask) (ch mask) = true →
  getMaskData context_ok blend (Some mask) =
    Some (MkCanvas (cw mask) (ch mask) (through blend (cdata mask))).
Proof.
  intros Hwf Hc. pose proof Hwf as (Hw & Hh & Hs). unfold getMaskData. rewrite Hc.
  rewrite getImageData_drawImage00 by done. by rewrite (getImageData_wf mask Hwf).
Qed.



End OcrFacts.

(** X25.  A mask on which nothing is erased keeps no text.  If no
    pixel of the mask has alpha below 50, [performOCR] returns the empty
    list whatever the model answered and wherever its boxes lie: every
    probe of the filter reads the alpha of a pixel of the mask or reads
    outside the buffer, and neither counts as erased.  This holds for
    any arithmetic of the coordinates. *)
Theorem unmasked_keeps_no_text (num : Type) (of_int : Z → num)
    (div mul add : num → num → num) (floor : num → Z) (context_ok : Z → Z → bool)
    (blend : Z → Z → Z)
    (apiKey : string) (parsed : list (OCRResult Z)) (mask : Canvas) :
  nonempty apiKey = true → wf_raster mask → context_ok (cw mask) (ch mask) = true →
  (∀ x y, in_grid (cw mask) (ch mask) x y →
          below50 (cdata mask) (offset (cw mask) x y + 3) = false) →
  performOCR num of_int div mul add floor context_ok blend apiKey (Parsed parsed) (Some mask)
    = Some [].
Proof.
  intros Hk Hwf Hc Hno. unfold performOCR.
  rewrite Hk, (getMaskData_wf _ _ _ Hwf Hc). simpl.
  f_equal. rewrite filterResults_eq.
  set (maskInfo := MkCanvas (cw mask) (ch mask) (through blend (cdata mask))).
  assert (wf_raster maskInfo) as Hwf'.
  { destruct Hwf as (Hw & Hh & Hs). unfold wf_raster, maskInfo. simpl.
    split_and!; [done..|]. by apply sized_through. }
  assert (filter (λ item, isMasked num of_int div mul add floor maskInfo item = true) parsed
          = []) as ->; [|done].
  apply elem_of_nil_inv. intros item [Hm _]%list_elem_of_filter.
  apply isMasked_probes in Hm as (idx & Hin & Hb).
  apply probes_aligned in Hin as [q ->].
  unfold below50 in Hb. destruct (rd (cdata maskInfo) (q * 4 + 3)) as [a|] eqn:Hr; [|done].
  destruct (alpha_slot_grid maskInfo q a Hwf' Hr) as (x & y & Hg & E).
  specialize (Hno x y Hg). unfold below50 in Hno.
  rewrite E in Hr. unfold maskInfo in Hr. simpl in Hr.
  rewrite through_alpha in Hr by (by eapply offset_aligned).
  rewrite Hr in Hno. congruence.
Qed.

Lemma unmasked_keeps_no_text_witness :
  performOCR Q inject_Z Qdiv Qmult Qplus Qfloor Sample.always nearest "key"
    (Parsed [MkOCR "Title" (MkBox 0 0 1000 1000)]) (Some Sample.keep_2x1) = Some [].
Proof.
  apply (unmasked_keeps_no_text Q inject_Z Qdiv Qmult Qplus Qfloor Sample.always nearest
           "key" [MkOCR "Title" (MkBox 0 0 1000 1000)] Sample.keep_2x1);
    [reflexivity | unfold wf_raster, sized; simpl; lia | reflexivity |].
  intros x y [Hx Hy]. simpl in Hx, Hy.
  assert (y = 0) as -> by lia.
  assert (x = 0 ∨ x = 1) as [-> | ->] by lia; reflexivity.
Defined.


